(** * Worker process supervisor of the Electron main process

    Shallow embedding of [PythonManager] (app/electron/main.ts, latest
    revision) together with the part of the JavaScript runtime it relies
    on: promises, the micro-task queue, child-process exit listeners and
    timers.  Every method body is written in a small command language that
    follows the TypeScript source statement by statement; an event loop
    gives the commands their meaning.  The environment (the worker, the
    operating system, the application) acts through events. *)

From Stdlib Require Import String List ZArith Bool Arith Lia.
From Stdlib Require PrimFloat.
Import ListNotations.
Open Scope string_scope.
Open Scope list_scope.

(** ** Values that cross the HTTP bridge *)

#[local] Unset Elimination Schemes.

Inductive json : Type :=
| JNull
| JBool (b : bool)
| JNum (z : Z)
| JStr (s : string)
| JArr (items : list json)
| JObj (fields : list (string * json)).

#[local] Set Elimination Schemes.

(** JavaScript truthiness of a decoded response body. *)
Definition truthy (d : json) : bool :=
  match d with
  | JNull => false
  | JBool b => b
  | JNum z => negb (z =? 0)%Z
  | JStr s => negb (s =? "")
  | JArr _ | JObj _ => true
  end.

(** Text of an [Error].  [JSON.stringify] and [String] are library
    functions; their results are kept as uninterpreted terms over the
    value they were applied to. *)
Inductive message : Type :=
| Lit (s : string)
| JSON_stringify (d : json)
| String_of (v : json).

Record AxiosResponse : Type := { status : Z; data : json }.

(** What a [catch] clause can receive.  [isAxiosError(error)] holds of the
    first constructor only. *)
Inductive thrown : Type :=
| AxiosError (response : option AxiosResponse) (code : option string)
| Error (msg : message)
| NonError (v : json).

(** ** RecoveryPolicy *)

Definition TRANSIENT_ERROR_CODES : list string :=
  ["ECONNREFUSED"; "ECONNRESET"; "ETIMEDOUT"].

Definition has (set : list string) (c : string) : bool :=
  existsb (String.eqb c) set.

(** [error.code && TRANSIENT_ERROR_CODES.has(error.code)] *)
Definition code_is_transient (code : option string) : bool :=
  match code with
  | Some c => negb (c =? "") && has TRANSIENT_ERROR_CODES c
  | None => false
  end.

Definition shouldAttemptRecovery (error : thrown) : bool :=
  match error with
  | AxiosError response code =>
      if match response with
         | Some r => (500 <=? status r)%Z
         | None => false
         end
      then true
      else if code_is_transient code then true
      else false
  | _ => false
  end.

Definition normalizeError (error : thrown) : thrown :=
  match error with
  | AxiosError response code =>
      let fallthrough :=
        if code_is_transient code
        then Error (Lit "Python worker is unavailable. Please try again.")
        else error in
      match response with
      | Some r =>
          if truthy (data r)
          then match data r with
               | JStr s => Error (Lit s)
               | d => Error (JSON_stringify d)
               end
          else fallthrough
      | None => fallthrough
      end
  | Error _ => error
  | NonError v => Error (String_of v)
  end.

(** The classification rule in the words of the specification. *)
Inductive classification : Type := Transient | Fatal.

Definition classify (error : thrown) : classification :=
  if shouldAttemptRecovery error then Transient else Fatal.

Definition server_side_status (e : thrown) : Prop :=
  exists r code, e = AxiosError (Some r) code /\ (500 <= status r)%Z.

Definition connection_level_failure (e : thrown) : Prop :=
  exists response c,
    e = AxiosError response (Some c) /\
    (c = "ECONNREFUSED" \/ c = "ECONNRESET" \/ c = "ETIMEDOUT").

(** ** The runtime: promises, callbacks, child processes *)

Definition promise : Type := nat.
Definition handle : Type := nat.

Inductive value : Type := Undefined | Data (d : json).

Inductive outcome : Type := Fulfilled (v : value) | Rejected (e : thrown).

(** The closures the source hands to the runtime. *)
Inductive callback : Type :=
| Cb_process_exit                               (* this.process.on('exit', ...) *)
| Cb_cleanup (proc : handle) (resolve : promise) (* cleanup inside stop() *)
| Cb_resolve (resolve : promise)                (* resolve passed to setTimeout *)
| Cb_clear_startPromise.                        (* argument of .finally(...) *)

Definition callback_eqb (a b : callback) : bool :=
  match a, b with
  | Cb_process_exit, Cb_process_exit => true
  | Cb_cleanup h p, Cb_cleanup h' p' => (h =? h')%nat && (p =? p')%nat
  | Cb_resolve p, Cb_resolve p' => (p =? p')%nat
  | Cb_clear_startPromise, Cb_clear_startPromise => true
  | _, _ => false
  end.

Inductive method : Type :=
| M_start
| M_spawnWorker
| M_waitForReady
| M_ensureBoundary
| M_request (endpoint : string) (payload : option json)
| M_restartWorker
| M_stop.

(** Synchronous statements. *)
Inductive action : Type -> Type :=
| Get_ready : action bool
| Set_ready (b : bool) : action unit
| Get_process : action (option handle)
| Set_process (h : option handle) : action unit
| Get_startPromise : action (option promise)
| Set_startPromise (p : option promise) : action unit
| Spawn : action handle
| On_exit (h : handle) (cb : callback) : action unit
| Once_exit (h : handle) (cb : callback) : action unit
| Get_exitCode (h : handle) : action (option Z)
| Kill (h : handle) : action bool
| New_promise : action promise
| Invoke (cb : callback) : action unit
| Set_timeout (cb : callback) (ms : Z) : action unit
| Console_error (text : string) : action unit
| Axios_get (url : string) : action promise
| Axios_post (url : string) (payload : json) : action promise.

(** Bodies of async functions. [Async] and [Call] start another async
    function and hand back its promise; [Await] suspends. *)
Inductive prog : Type :=
| Return (v : value)
| Throw (e : thrown)
| Do {X : Type} (a : action X) (k : X -> prog)
| Async (body : prog) (k : promise -> prog)
| Call (m : method) (k : promise -> prog)
| Await (p : promise) (k : outcome -> prog).

Notation "x <- a ;; k" := (Do a (fun x => k))
  (at level 61, a at next level, right associativity).
Notation "a ;;; k" := (Do a (fun _ => k))
  (at level 61, right associativity).

(** What an observer of the main process can see. *)
Inductive obs : Type :=
| O_spawn (h : handle)
| O_kill (h : handle)
| O_get (url : string)
| O_post (url : string) (payload : json)
| O_setTimeout (ms : Z)
| O_console_error (text : string).

Record child : Type := {
  alive : bool;
  exitCode : option Z;                 (* stays null when a signal ends it *)
  listeners : list (bool * callback)   (* (registered with once, listener) *)
}.

Record waiter : Type := {
  awaited : promise;
  w_self : promise;
  resume : outcome -> prog
}.

Record world : Type := {
  (* the PythonManager instance *)
  process : option handle;
  ready : bool;
  startPromise : option promise;
  (* module-level variable *)
  quitting : bool;
  (* promises and the micro-task queue *)
  next_promise : promise;
  settled : list (promise * outcome);
  waiters : list waiter;
  jobs : list (promise * prog);
  (* operating system and network *)
  children : list child;
  inflight : list promise;
  timers : list callback;
  kill_throws : handle -> bool;
  log : list obs
}.

(** Field updates. *)

Definition set_process (x : option handle) (w : world) : world :=
  {| process := x;
     ready := ready w;
     startPromise := startPromise w;
     quitting := quitting w;
     next_promise := next_promise w;
     settled := settled w;
     waiters := waiters w;
     jobs := jobs w;
     children := children w;
     inflight := inflight w;
     timers := timers w;
     kill_throws := kill_throws w;
     log := log w |}.

Definition set_ready (x : bool) (w : world) : world :=
  {| process := process w;
     ready := x;
     startPromise := startPromise w;
     quitting := quitting w;
     next_promise := next_promise w;
     settled := settled w;
     waiters := waiters w;
     jobs := jobs w;
     children := children w;
     inflight := inflight w;
     timers := timers w;
     kill_throws := kill_throws w;
     log := log w |}.

Definition set_startPromise (x : option promise) (w : world) : world :=
  {| process := process w;
     ready := ready w;
     startPromise := x;
     quitting := quitting w;
     next_promise := next_promise w;
     settled := settled w;
     waiters := waiters w;
     jobs := jobs w;
     children := children w;
     inflight := inflight w;
     timers := timers w;
     kill_throws := kill_throws w;
     log := log w |}.

Definition set_quitting (x : bool) (w : world) : world :=
  {| process := process w;
     ready := ready w;
     startPromise := startPromise w;
     quitting := x;
     next_promise := next_promise w;
     settled := settled w;
     waiters := waiters w;
     jobs := jobs w;
     children := children w;
     inflight := inflight w;
     timers := timers w;
     kill_throws := kill_throws w;
     log := log w |}.

Definition set_next_promise (x : promise) (w : world) : world :=
  {| process := process w;
     ready := ready w;
     startPromise := startPromise w;
     quitting := quitting w;
     next_promise := x;
     settled := settled w;
     waiters := waiters w;
     jobs := jobs w;
     children := children w;
     inflight := inflight w;
     timers := timers w;
     kill_throws := kill_throws w;
     log := log w |}.

Definition set_settled (x : list (promise * outcome)) (w : world) : world :=
  {| process := process w;
     ready := ready w;
     startPromise := startPromise w;
     quitting := quitting w;
     next_promise := next_promise w;
     settled := x;
     waiters := waiters w;
     jobs := jobs w;
     children := children w;
     inflight := inflight w;
     timers := timers w;
     kill_throws := kill_throws w;
     log := log w |}.

Definition set_waiters (x : list waiter) (w : world) : world :=
  {| process := process w;
     ready := ready w;
     startPromise := startPromise w;
     quitting := quitting w;
     next_promise := next_promise w;
     settled := settled w;
     waiters := x;
     jobs := jobs w;
     children := children w;
     inflight := inflight w;
     timers := timers w;
     kill_throws := kill_throws w;
     log := log w |}.

Definition set_jobs (x : list (promise * prog)) (w : world) : world :=
  {| process := process w;
     ready := ready w;
     startPromise := startPromise w;
     quitting := quitting w;
     next_promise := next_promise w;
     settled := settled w;
     waiters := waiters w;
     jobs := x;
     children := children w;
     inflight := inflight w;
     timers := timers w;
     kill_throws := kill_throws w;
     log := log w |}.

Definition set_children (x : list child) (w : world) : world :=
  {| process := process w;
     ready := ready w;
     startPromise := startPromise w;
     quitting := quitting w;
     next_promise := next_promise w;
     settled := settled w;
     waiters := waiters w;
     jobs := jobs w;
     children := x;
     inflight := inflight w;
     timers := timers w;
     kill_throws := kill_throws w;
     log := log w |}.

Definition set_inflight (x : list promise) (w : world) : world :=
  {| process := process w;
     ready := ready w;
     startPromise := startPromise w;
     quitting := quitting w;
     next_promise := next_promise w;
     settled := settled w;
     waiters := waiters w;
     jobs := jobs w;
     children := children w;
     inflight := x;
     timers := timers w;
     kill_throws := kill_throws w;
     log := log w |}.

Definition set_timers (x : list callback) (w : world) : world :=
  {| process := process w;
     ready := ready w;
     startPromise := startPromise w;
     quitting := quitting w;
     next_promise := next_promise w;
     settled := settled w;
     waiters := waiters w;
     jobs := jobs w;
     children := children w;
     inflight := inflight w;
     timers := x;
     kill_throws := kill_throws w;
     log := log w |}.

Definition set_log (x : list obs) (w : world) : world :=
  {| process := process w;
     ready := ready w;
     startPromise := startPromise w;
     quitting := quitting w;
     next_promise := next_promise w;
     settled := settled w;
     waiters := waiters w;
     jobs := jobs w;
     children := children w;
     inflight := inflight w;
     timers := timers w;
     kill_throws := kill_throws w;
     log := x |}.

(** *** Promises *)

Fixpoint lookup (p : promise) (l : list (promise * outcome)) : option outcome :=
  match l with
  | [] => None
  | (q, o) :: l' => if (p =? q)%nat then Some o else lookup p l'
  end.

Definition outcome_of (w : world) (p : promise) : option outcome :=
  lookup p (settled w).

Definition alloc (w : world) : world * promise :=
  (set_next_promise (S (next_promise w)) w, next_promise w).

Definition awaits (p : promise) (x : waiter) : bool := (awaited x =? p)%nat.

(** Settling a promise a second time does nothing.  The first time, every
    continuation waiting on it is queued as a micro-task, in order. *)
Definition settle (p : promise) (o : outcome) (w : world) : world :=
  match outcome_of w p with
  | Some _ => w
  | None =>
      let woken := filter (awaits p) (waiters w) in
      let w1 := set_settled ((p, o) :: settled w) w in
      let w2 := set_waiters (filter (fun x => negb (awaits p x)) (waiters w)) w1 in
      set_jobs (jobs w ++ map (fun x => (w_self x, resume x o)) woken) w2
  end.

(** *** Child processes *)

Fixpoint update {A : Type} (n : nat) (f : A -> A) (l : list A) : list A :=
  match l, n with
  | [], _ => []
  | x :: l', 0 => f x :: l'
  | x :: l', S n' => x :: update n' f l'
  end.

Definition add_listener (h : handle) (once : bool) (cb : callback) (w : world) : world :=
  set_children
    (update h (fun c => {| alive := alive c; exitCode := exitCode c;
                           listeners := listeners c ++ [(once, cb)] |})
       (children w)) w.

(** Every [cleanup] closure is registered at most once, so removing all
    listeners equal to it removes that one registration. *)
Definition removeListener (h : handle) (cb : callback) (w : world) : world :=
  set_children
    (update h (fun c => {| alive := alive c; exitCode := exitCode c;
                           listeners := filter (fun l => negb (callback_eqb (snd l) cb))
                                          (listeners c) |})
       (children w)) w.

Definition log_event (o : obs) (w : world) : world := set_log (log w ++ [o]) w.

(** *** Callbacks, with the source lines they stand for *)

Definition run_callback (cb : callback) (w : world) : world :=
  match cb with
  | Cb_process_exit =>
      (* this.ready = false; this.process = null;
         if (!quitting) { this.startPromise = null; } *)
      let w1 := set_process None (set_ready false w) in
      if quitting w1 then w1 else set_startPromise None w1
  | Cb_cleanup proc resolve =>
      (* proc.removeListener('exit', cleanup); this.process = null;
         this.ready = false; resolve(); *)
      let w1 := removeListener proc (Cb_cleanup proc resolve) w in
      let w2 := set_ready false (set_process None w1) in
      settle resolve (Fulfilled Undefined) w2
  | Cb_resolve resolve => settle resolve (Fulfilled Undefined) w
  | Cb_clear_startPromise => set_startPromise None w
  end.

(** *** Synchronous statements *)

Definition perform {X : Type} (a : action X) (w : world) : world * X :=
  match a in action X return world * X with
  | Get_ready => (w, ready w)
  | Set_ready b => (set_ready b w, tt)
  | Get_process => (w, process w)
  | Set_process h => (set_process h w, tt)
  | Get_startPromise => (w, startPromise w)
  | Set_startPromise p => (set_startPromise p w, tt)
  | Spawn =>
      (* spawn() hands out a handle at once; whether the process could be
         launched shows later ([Launch_error] below) *)
      let h := length (children w) in
      (log_event (O_spawn h)
         (set_children
            (children w ++ [{| alive := true; exitCode := None; listeners := [] |}]) w),
       h)
  | On_exit h cb => (add_listener h false cb w, tt)
  | Once_exit h cb => (add_listener h true cb w, tt)
  | Get_exitCode h =>
      (w, match nth_error (children w) h with
          | Some c => exitCode c
          | None => None
          end)
  | Kill h => (log_event (O_kill h) w, kill_throws w h)
  | New_promise => alloc w
  | Invoke cb => (run_callback cb w, tt)
  | Set_timeout cb ms => (log_event (O_setTimeout ms) (set_timers (timers w ++ [cb]) w), tt)
  | Console_error text => (log_event (O_console_error text) w, tt)
  | Axios_get url =>
      let (w1, p) := alloc w in
      (log_event (O_get url) (set_inflight (inflight w1 ++ [p]) w1), p)
  | Axios_post url payload =>
      let (w1, p) := alloc w in
      (log_event (O_post url payload) (set_inflight (inflight w1 ++ [p]) w1), p)
  end.

(** ** PythonManager *)

(** [`http://${PY_HOST}:${PY_PORT}${endpoint}`] with the default host and
    port. *)
Definition url (endpoint : string) : string :=
  ("http://127.0.0.1:8765" ++ endpoint)%string.

Arguments url _ : simpl never.

(** [return x] / [throw e] of a settled result. *)
Definition pass_on (o : outcome) : prog :=
  match o with
  | Fulfilled v => Return v
  | Rejected e => Throw e
  end.

(** [await p] outside any [try]: a rejection leaves the function. *)
Definition after_await (k : value -> prog) (o : outcome) : prog :=
  match o with
  | Fulfilled v => k v
  | Rejected e => Throw e
  end.

Definition await (p : promise) (k : value -> prog) : prog :=
  Await p (after_await k).

(** [p.finally(cb)] *)
Definition finally (p : promise) (cb : callback) : prog :=
  Await p (fun o => Invoke cb ;;; pass_on o).

(** [new Promise((resolve) => setTimeout(resolve, ms))] *)
Definition sleep (ms : Z) (k : promise -> prog) : prog :=
  p <- New_promise ;;
  Set_timeout (Cb_resolve p) ms ;;;
  k p.

Definition start : prog :=
  r <- Get_ready ;;
  if r then Return Undefined
  else
    let await_startPromise :=
      sp <- Get_startPromise ;;
      match sp with
      | Some p => await p (fun _ => Return Undefined)
      | None => Return Undefined
      end in
    sp <- Get_startPromise ;;
    match sp with
    | None =>
        Call M_spawnWorker (fun p0 =>
        Async (finally p0 Cb_clear_startPromise) (fun p1 =>
        Set_startPromise (Some p1) ;;;
        await_startPromise))
    | Some _ => await_startPromise
    end.

(** The loop of [waitForReady], counted by the attempts that remain. *)
Fixpoint waitForReady_loop (remaining : nat) : prog :=
  match remaining with
  | 0 => Throw (Error (Lit "Python worker failed to start"))
  | S n =>
      p <- Axios_get (url "/health") ;;
      Await p (fun o =>
        match o with
        | Fulfilled _ => Set_ready true ;;; Return Undefined
        | Rejected _ => sleep 500 (fun s => await s (fun _ => waitForReady_loop n))
        end)
  end.

Definition waitForReady : prog := waitForReady_loop 60.

Arguments waitForReady_loop _ : simpl never.

Definition spawnWorker : prog :=
  proc <- Get_process ;;
  match proc with
  | Some _ => Return Undefined
  | None =>
      Set_ready false ;;;
      h <- Spawn ;;
      Set_process (Some h) ;;;
      On_exit h Cb_process_exit ;;;
      Call M_waitForReady (fun p => await p (fun _ =>
      Call M_ensureBoundary (fun p' => await p' (fun _ =>
      Return Undefined))))
  end.

Definition ensureBoundary : prog :=
  Call (M_request "/boundary/cache" (Some (JObj []))) (fun p =>
  Await p (fun o =>
    match o with
    | Fulfilled _ => Return Undefined
    | Rejected _ =>
        Console_error "Failed to ensure boundary cache" ;;;
        Return Undefined
    end)).

(** The closure [performRequest] of [request]; an axios promise is
    fulfilled with [response.data]. *)
Definition performRequest (endpoint : string) (payload : option json) : prog :=
  match payload with
  | Some body => p <- Axios_post (url endpoint) body ;; await p Return
  | None => p <- Axios_get (url endpoint) ;; await p Return
  end.

Definition request (endpoint : string) (payload : option json) : prog :=
  let bridge :=
    Async (performRequest endpoint payload) (fun p =>
    Await p (fun o =>
      match o with
      | Fulfilled v => Return v
      | Rejected error =>
          if shouldAttemptRecovery error
          then Call M_restartWorker (fun r => await r (fun _ =>
               Async (performRequest endpoint payload) (fun p' =>
               Await p' pass_on)))
          else Throw (normalizeError error)
      end)) in
  r <- Get_ready ;;
  if r then bridge
  else Call M_start (fun s => await s (fun _ => bridge)).

Definition restartWorker : prog :=
  Call M_stop (fun p => await p (fun _ =>
  Set_startPromise None ;;;
  Call M_start (fun s => await s (fun _ =>
  Return Undefined)))).

Definition stop : prog :=
  proc <- Get_process ;;
  match proc with
  | None => Return Undefined
  | Some proc =>
      done <- New_promise ;;
      let cleanup := Cb_cleanup proc done in
      code <- Get_exitCode proc ;;
      match code with
      | Some _ => Invoke cleanup ;;; Await done pass_on
      | None =>
          Once_exit proc cleanup ;;;
          threw <- Kill proc ;;
          let armed :=
            Set_timeout cleanup 2000 ;;;
            Await done pass_on in
          if threw
          then Console_error "Failed to stop Python worker" ;;;
               Invoke cleanup ;;;
               armed
          else armed
      end
  end.

Definition body (m : method) : prog :=
  match m with
  | M_start => start
  | M_spawnWorker => spawnWorker
  | M_waitForReady => waitForReady
  | M_ensureBoundary => ensureBoundary
  | M_request endpoint payload => request endpoint payload
  | M_restartWorker => restartWorker
  | M_stop => stop
  end.

(** ** The event loop *)

Definition suspend (p self : promise) (k : outcome -> prog) (w : world) : world :=
  match outcome_of w p with
  | Some o => set_jobs (jobs w ++ [(self, k o)]) w
  | None => set_waiters (waiters w ++ [{| awaited := p; w_self := self; resume := k |}]) w
  end.

(** Runs an async function from where it stands to its next [await] or to
    its end, which settles its own promise [self].  [depth] bounds the
    nesting of method calls inside one synchronous stretch; [None]: the
    bound was too small. *)
Fixpoint exec (depth : nat) : world -> promise -> prog -> option world :=
  fix go (w : world) (self : promise) (c : prog) {struct c} : option world :=
    match c with
    | Return v => Some (settle self (Fulfilled v) w)
    | Throw e => Some (settle self (Rejected e) w)
    | Do a k => let (w1, x) := perform a w in go w1 self (k x)
    | Async b k =>
        let (w1, q) := alloc w in
        match go w1 q b with
        | Some w2 => go w2 self (k q)
        | None => None
        end
    | Call m k =>
        match depth with
        | 0 => None
        | S depth' =>
            let (w1, q) := alloc w in
            match exec depth' w1 q (body m) with
            | Some w2 => go w2 self (k q)
            | None => None
            end
        end
    | Await p k => Some (suspend p self k w)
    end.

(** Empties the micro-task queue, oldest job first; [fuel] bounds the
    number of jobs of one turn. *)
Fixpoint drain (fuel : nat) (w : world) : option world :=
  match jobs w with
  | [] => Some w
  | (self, c) :: rest =>
      match fuel with
      | 0 => None
      | S fuel' =>
          match exec fuel (set_jobs rest w) self c with
          | Some w1 => drain fuel' w1
          | None => None
          end
      end
  end.

Arguments exec _ _ _ _ : simpl nomatch.
Arguments drain _ _ : simpl nomatch.

(** What the environment can do. Pending HTTP calls and timers are named
    by position, oldest first. *)
Inductive event : Type :=
| App_call (m : method)              (* the application calls a method *)
| Before_quit                        (* app.on('before-quit') *)
| Http_reply (i : nat) (r : outcome) (* axios settles a pending call *)
| Timer_fire (i : nat)               (* a timer set by setTimeout is due *)
| Proc_exit (h : handle) (code : option Z) (* a child process has ended *)
| Launch_error (h : handle) (errno : Z).  (* a child could not be launched *)

Fixpoint remove_nth {A : Type} (n : nat) (l : list A) : list A :=
  match l, n with
  | [], _ => []
  | _ :: l', 0 => l'
  | x :: l', S n' => x :: remove_nth n' l'
  end.

(** [emit('exit')]: the listeners registered at that moment, in order; a
    [once] listener is unregistered just before it runs. *)
Definition emit_exit (h : handle) (w : world) : world :=
  match nth_error (children w) h with
  | None => w
  | Some c =>
      fold_left
        (fun w' (l : bool * callback) =>
           let (once, cb) := l in
           run_callback cb (if once then removeListener h cb w' else w'))
        (listeners c) w
  end.

Definition handle_event (fuel : nat) (ev : event) (w : world) : option world :=
  match ev with
  | App_call m =>
      let (w1, q) := alloc w in exec fuel w1 q (body m)
  | Before_quit =>
      let (w1, q) := alloc (set_quitting true w) in exec fuel w1 q (body M_stop)
  | Http_reply i r =>
      match nth_error (inflight w) i with
      | Some p => Some (settle p r (set_inflight (remove_nth i (inflight w)) w))
      | None => Some w
      end
  | Timer_fire i =>
      match nth_error (timers w) i with
      | Some cb => Some (run_callback cb (set_timers (remove_nth i (timers w)) w))
      | None => Some w
      end
  | Proc_exit h code =>
      match nth_error (children w) h with
      | Some {| alive := true |} =>
          Some (emit_exit h
                  (set_children
                     (update h (fun c => {| alive := false; exitCode := code;
                                            listeners := listeners c |})
                        (children w)) w))
      | _ => Some w
      end
  | Launch_error h errno =>
      (* spawn() has returned a handle, but the interpreter could not be
         run: Node sets exitCode to the negative errno and emits 'error',
         never 'exit'. The manager registers no listener for 'error'. *)
      match nth_error (children w) h with
      | Some {| alive := true |} =>
          Some (set_children
                  (update h (fun c => {| alive := false; exitCode := Some errno;
                                         listeners := listeners c |})
                     (children w)) w)
      | _ => Some w
      end
  end.

(** One turn of the loop: the event's handler, then every micro-task. *)
Definition step (fuel : nat) (ev : event) (w : world) : option world :=
  match handle_event fuel ev w with
  | Some w1 => drain fuel w1
  | None => None
  end.

Fixpoint run (fuel : nat) (evs : list event) (w : world) : option world :=
  match evs with
  | [] => Some w
  | ev :: evs' =>
      match step fuel ev w with
      | Some w1 => run fuel evs' w1
      | None => None
      end
  end.

Arguments step _ _ _ : simpl never.
Arguments run _ _ _ : simpl never.

(** The main process right after [new PythonManager()]. *)
Definition initial_world (kill_fails : handle -> bool) : world :=
  {| process := None; ready := false; startPromise := None; quitting := false;
     next_promise := 0; settled := []; waiters := []; jobs := [];
     children := []; inflight := []; timers := [];
     kill_throws := kill_fails; log := [] |}.

Definition ok (d : json) : outcome := Fulfilled (Data d).


(** ** Worlds between two turns of the loop *)


Lemma lookup_fresh (n p : promise) (st : list (promise * outcome)) :
  Forall (fun x => fst x < n) st -> n <= p -> lookup p st = None.
Proof.
  induction 1 as [|[q o] st Hq _ IH]; intros Hp; cbn in *; [reflexivity|].
  destruct (Nat.eqb_spec p q); [lia | auto].
Qed.











(** What the calls below leave alone. *)
Definition same_manager (w w' : world) : Prop :=
  process w' = process w /\ ready w' = ready w /\ startPromise w' = startPromise w.

Definition same_processes (w w' : world) : Prop :=
  children w' = children w /\ timers w' = timers w.

(** The manager is [Ready] or [Starting] on child [h]: the handle is set
    and the child runs with the exit handler of [spawnWorker] attached. *)
Definition supervises (w : world) (h : handle) : Prop :=
  process w = Some h /\
  nth_error (children w) h =
    Some {| alive := true; exitCode := None; listeners := [(false, Cb_process_exit)] |}.

(** ** Properties *)

Section Classification.

Lemma has_transient (c : string) :
  has TRANSIENT_ERROR_CODES c = true <->
  c = "ECONNREFUSED" \/ c = "ECONNRESET" \/ c = "ETIMEDOUT".
Proof.
  unfold has, TRANSIENT_ERROR_CODES; cbn.
  rewrite !orb_true_iff, !String.eqb_eq. intuition discriminate.
Qed.

Lemma code_is_transient_iff (code : option string) :
  code_is_transient code = true <->
  exists c, code = Some c /\
            (c = "ECONNREFUSED" \/ c = "ECONNRESET" \/ c = "ETIMEDOUT").
Proof.
  destruct code as [c|]; unfold code_is_transient.
  - rewrite andb_true_iff, has_transient. split.
    + intros [_ H]. eauto.
    + intros (c' & E & H). injection E as E. subst c'. split; [|assumption].
      destruct H as [E | [E | E]]; subst c; reflexivity.
  - split; [discriminate | intros (c & [=] & _)].
Qed.

Lemma shouldAttemptRecovery_iff (e : thrown) :
  shouldAttemptRecovery e = true <->
  server_side_status e \/ connection_level_failure e.
Proof.
  unfold server_side_status, connection_level_failure.
  destruct e as [response code | m | v]; cbn.
  - assert (code_is_transient code = true ->
            exists response' c, AxiosError response code = AxiosError response' (Some c) /\
              (c = "ECONNREFUSED" \/ c = "ECONNRESET" \/ c = "ETIMEDOUT")) as Hyes.
    { intros (c & E & Hc)%code_is_transient_iff. subst code. eauto. }
    assert ((exists response' c, AxiosError response code = AxiosError response' (Some c) /\
              (c = "ECONNREFUSED" \/ c = "ECONNRESET" \/ c = "ETIMEDOUT")) ->
            code_is_transient code = true) as Hno.
    { intros (response' & c & E & Hc). injection E as _ E2. subst code.
      apply code_is_transient_iff. eauto. }
    destruct response as [r|].
    + destruct (Z.leb_spec 500 (status r)) as [Hs | Hs].
      * split; [|reflexivity]. intros _. left. eauto.
      * destruct (code_is_transient code) eqn:Hc.
        -- split; [|reflexivity]. intros _. right. auto.
        -- split; [discriminate|].
           intros [(r' & code' & E & Hr) | H].
           ++ injection E as E1 E2. subst r'. lia.
           ++ apply Hno in H. discriminate.
    + destruct (code_is_transient code) eqn:Hc.
      * split; [|reflexivity]. intros _. right. auto.
      * split; [discriminate|].
        intros [(r' & code' & E & _) | H]; [discriminate E|].
        apply Hno in H. discriminate.
  - split; [discriminate | intros [(? & ? & [=] & _) | (? & ? & [=] & _)]].
  - split; [discriminate | intros [(? & ? & [=] & _) | (? & ? & [=] & _)]].
Qed.

End Classification.

(** ** Runs from the start of the main process *)

Lemma run_cons (fuel : nat) (ev : event) (evs : list event) (w : world) :
run fuel (ev :: evs) w =
match step fuel ev w with
| Some w1 => run fuel evs w1
| None => None
end.
Proof. reflexivity. Qed.

Lemma run_app (fuel : nat) (a b : list event) (w : world) :
run fuel (a ++ b) w =
match run fuel a w with
| Some w1 => run fuel b w1
| None => None
end.
Proof.
revert w; induction a as [|ev a IH]; intros w; [reflexivity|].
cbn [app]. rewrite !run_cons. destruct (step fuel ev w); auto.
Qed.

(** Enough for every turn of the runs below. *)
Definition fuel : nat := 32.

(** The worker answers its first health probe and the boundary-cache
  call of [ensureBoundary]. *)
Definition health_body : json := JObj [("status", JStr "ok")].

Definition boot : list event :=
[App_call M_start; Http_reply 0 (ok health_body); Http_reply 0 (ok (JObj []))].

(** [Idle]: a fresh manager. The flag tells whether [proc.kill()] throws
  in this run. *)
Definition idle_world (kill_fails : bool) : world :=
initial_world (fun _ => kill_fails).

(** [Ready]: the manager after [boot]. Promises 0 to 8 belong to the
  start operation; child 0 is the worker. *)
Definition ready_world (kill_fails : bool) : world :=
{| process := Some 0;
   ready := true;
   startPromise := None;
   quitting := false;
   next_promise := 9;
   settled :=
     [(0, Fulfilled Undefined); (4, Fulfilled Undefined);
      (1, Fulfilled Undefined); (5, Fulfilled Undefined);
      (6, ok (JObj [])); (7, ok (JObj [])); (8, ok (JObj []));
      (2, Fulfilled Undefined); (3, ok health_body)];
   waiters := [];
   jobs := [];
   children :=
     [{| alive := true; exitCode := None;
         listeners := [(false, Cb_process_exit)] |}];
   inflight := [];
   timers := [];
   kill_throws := fun _ => kill_fails;
   log := [O_spawn 0; O_get (url "/health");
           O_post (url "/boundary/cache") (JObj [])] |}.

Lemma boot_reaches_ready (kill_fails : bool) :
run fuel boot (idle_world kill_fails) = Some (ready_world kill_fails).
Proof. vm_compute. reflexivity. Qed.

Lemma ready_world_supervises (kill_fails : bool) :
supervises (ready_world kill_fails) 0.
Proof. split; reflexivity. Qed.


(** Evaluates the step in the goal on the virtual machine. *)
Ltac compute_step :=
  match goal with
  | |- context [step ?f ?ev ?w] =>
      let t := eval vm_compute in (step f ev w) in
      replace (step f ev w) with t by (vm_compute; reflexivity);
      cbv iota beta
  end.

Lemma drain_S (f : nat) (w : world) :
  drain (S f) w =
  match jobs w with
  | [] => Some w
  | (self, c) :: rest =>
      match exec (S f) (set_jobs rest w) self c with
      | Some w1 => drain f w1
      | None => None
      end
  end.
Proof. reflexivity. Qed.

Lemma step_eq (f : nat) (ev : event) (w : world) :
  step f ev w =
  match handle_event f ev w with
  | Some w1 => drain f w1
  | None => None
  end.
Proof. reflexivity. Qed.

Ltac vm_replace x :=
  let t := eval vm_compute in x in
  replace x with t by (vm_compute; reflexivity).

(** The next event makes [request] branch on [shouldAttemptRecovery e]:
    runs the jobs queued in front of that branch, then decides it with
    [H]. *)
Ltac classify_with e H :=
  unfold fuel; rewrite run_cons, step_eq;
  match goal with
  | |- context [handle_event ?f ?ev ?w] => vm_replace (handle_event f ev w)
  end;
  cbv iota beta;
  repeat (
    rewrite drain_S; cbn [jobs];
    lazymatch goal with
    | |- context [exec ?f ?w ?s (if ?c then ?a else ?b)] =>
        change c with (shouldAttemptRecovery e); rewrite H
    | |- context [exec ?f ?w ?s ?c] => vm_replace (exec f w s c); cbv iota beta
    end).


(** Ends the turn that [classify_with] has opened: runs the branch just
    decided, then the jobs that are left. *)
Ltac finish_turn :=
  try match goal with
      | |- context [exec ?f ?w ?s ?c] => vm_replace (exec f w s c); cbv iota beta
      end;
  match goal with
  | |- context [drain ?f ?w] => vm_replace (drain f w); cbv iota beta
  end.

(** Settles a conjunction about a run from left to right, so that each
    world is known before the next step is evaluated on it. *)
Ltac in_order :=
  repeat (split; [vm_compute; reflexivity|]); vm_compute; reflexivity.

(** How [exec] unfolds, one statement at a time. *)
Lemma exec_Do (d : nat) (w : world) (self : promise) (X : Type) (a : action X) (k : X -> prog) :
  exec d w self (Do a k) = let (w1, x) := perform a w in exec d w1 self (k x).
Proof. destruct d; reflexivity. Qed.

Lemma exec_Return (d : nat) (w : world) (self : promise) (v : value) :
  exec d w self (Return v) = Some (settle self (Fulfilled v) w).
Proof. destruct d; reflexivity. Qed.

Lemma exec_Throw (d : nat) (w : world) (self : promise) (e : thrown) :
  exec d w self (Throw e) = Some (settle self (Rejected e) w).
Proof. destruct d; reflexivity. Qed.

Lemma exec_pass_on (d : nat) (w : world) (self : promise) (o : outcome) :
  exec d w self (pass_on o) = Some (settle self o w).
Proof. destruct o; [apply exec_Return | apply exec_Throw]. Qed.

Lemma exec_Async (d : nat) (w : world) (self : promise) (b : prog) (k : promise -> prog) :
  exec d w self (Async b k) =
  let (w1, q) := alloc w in
  match exec d w1 q b with
  | Some w2 => exec d w2 self (k q)
  | None => None
  end.
Proof. destruct d; reflexivity. Qed.

Lemma exec_Call (d : nat) (w : world) (self : promise) (m : method) (k : promise -> prog) :
  exec (S d) w self (Call m k) =
  let (w1, q) := alloc w in
  match exec d w1 q (body m) with
  | Some w2 => exec (S d) w2 self (k q)
  | None => None
  end.
Proof. reflexivity. Qed.

Lemma exec_Call_0 (w : world) (self : promise) (m : method) (k : promise -> prog) :
  exec 0 w self (Call m k) = None.
Proof. reflexivity. Qed.

Lemma exec_Await (d : nat) (w : world) (self : promise) (p : promise) (k : outcome -> prog) :
  exec d w self (Await p k) = Some (suspend p self k w).
Proof. destruct d; reflexivity. Qed.

Lemma drain_nil (f : nat) (w : world) : jobs w = [] -> drain f w = Some w.
Proof.
  intros H. destruct f; [|rewrite drain_S; now rewrite H].
  change (drain 0 w) with (match jobs w with [] => Some w | (_, _) :: _ => None end).
  now rewrite H.
Qed.


Section Bridge.

(** An HTTP result that [request] hands on without restarting. *)
Definition no_recovery (r : outcome) : Prop :=
  match r with
  | Fulfilled _ => True
  | Rejected e => shouldAttemptRecovery e = false
  end.

Definition direct_result (r : outcome) : outcome :=
  match r with
  | Fulfilled v => Fulfilled v
  | Rejected e => Rejected (normalizeError e)
  end.

Definition bridge_call (endpoint : string) (payload : option json) : obs :=
  match payload with
  | Some b => O_post (url endpoint) b
  | None => O_get (url endpoint)
  end.



Lemma request_direct (kill_fails : bool)
      (endpoint : string) (payload : option json) (r : outcome) :
  no_recovery r ->
  let w := ready_world kill_fails in
  exists w',
    run fuel [App_call (M_request endpoint payload); Http_reply 0 r] w = Some w' /\
    outcome_of w' (next_promise w) = Some (direct_result r) /\
    log w' = log w ++ [bridge_call endpoint payload] /\
    inflight w' = inflight w /\
    same_manager w w' /\ same_processes w w'.
Proof.
  intros Hr w; subst w. unfold same_manager, same_processes.
  destruct payload as [b|], r as [v|e]; cbn in Hr.
  1, 3: eexists; split; [vm_compute; reflexivity | vm_compute; auto 10].
  - eexists; split.
    + rewrite run_cons. compute_step. classify_with e Hr. vm_compute. reflexivity.
    + vm_compute. auto 10.
  - eexists; split.
    + rewrite run_cons. compute_step. classify_with e Hr. vm_compute. reflexivity.
    + vm_compute. auto 10.
Qed.

(** C3. [classify] answers [Transient] exactly for a response status of
    500 or more and for the connection failures ECONNREFUSED, ECONNRESET
    and ETIMEDOUT; an error classified [Fatal] reaches the caller of
    [request] after the single bridge call, and the run shows no kill, no
    spawn and no change to the manager. *)
Theorem recovery_policy (e : thrown) :
  (classify e = Transient <-> server_side_status e \/ connection_level_failure e) /\
  (classify e = Fatal ->
   forall (kill_fails : bool) (endpoint : string) (payload : option json),
     let w := ready_world kill_fails in
     exists w',
       run fuel [App_call (M_request endpoint payload);
                 Http_reply 0 (Rejected e)] w = Some w' /\
       outcome_of w' (next_promise w) = Some (Rejected (normalizeError e)) /\
       log w' = log w ++ [bridge_call endpoint payload] /\
       same_manager w w' /\ same_processes w w').
Proof.
  unfold classify. split.
  - rewrite <- shouldAttemptRecovery_iff.
    destruct (shouldAttemptRecovery e); split; congruence.
  - intros Hf kill_fails endpoint payload.
    assert (no_recovery (Rejected e)) as Hr
      by (cbn; destruct (shouldAttemptRecovery e); congruence).
    destruct (request_direct kill_fails endpoint payload _ Hr)
      as (w' & Hrun & Hout & Hlog & _ & Hm & Hp).
    exists w'. auto.
Qed.

(** The body of a rejected mission, as in the specification's scenario. *)
Definition unknown_token : json :=
  JObj [("errors", JArr [JObj [("message", JStr "Unknown token"); ("line", JNum 3)]])].

Definition bad_request (d : json) : thrown :=
  AxiosError (Some {| status := 400; data := d |}) (Some "ERR_BAD_REQUEST").

Definition compile_payload : json := JObj [("mission_text", JStr "<invalid>")].

Lemma recovery_policy_witness :
  exists w',
    run fuel [App_call (M_request "/mission/compile" (Some compile_payload));
              Http_reply 0 (Rejected (bad_request unknown_token))]
      (ready_world false) = Some w' /\
    outcome_of w' 9 = Some (Rejected (normalizeError (bad_request unknown_token))) /\
    log w' = log (ready_world false) ++
             [bridge_call "/mission/compile" (Some compile_payload)] /\
    same_manager (ready_world false) w' /\ same_processes (ready_world false) w'.
Proof.
  exact (proj2 (recovery_policy (bad_request unknown_token)) eq_refl
           false "/mission/compile" (Some compile_payload)).
Defined.

(** What the [Error] handed to the caller says for a response body [d]. *)
Definition content (d : json) : message :=
  match d with
  | JStr s => Lit s
  | _ => JSON_stringify d
  end.

(** C7. A response with a 4xx status and a non-empty body is not retried:
    [request] rejects with a plain [Error] whose text is the body itself
    (a string) or the body passed to [JSON.stringify], after one bridge
    call, with no kill and no spawn. *)
Theorem validation_error_is_forwarded
        (kill_fails : bool) (endpoint : string) (payload : option json)
        (st : Z) (d : json) (code : option string) :
  (400 <= st < 500)%Z -> truthy d = true -> code_is_transient code = false ->
  let e := AxiosError (Some {| status := st; data := d |}) code in
  let w := ready_world kill_fails in
  exists w',
    run fuel [App_call (M_request endpoint payload); Http_reply 0 (Rejected e)] w
      = Some w' /\
    outcome_of w' (next_promise w) = Some (Rejected (Error (content d))) /\
    log w' = log w ++ [bridge_call endpoint payload] /\
    same_manager w w' /\ same_processes w w'.
Proof.
  intros Hst Hd Hc e w.
  assert (shouldAttemptRecovery e = false) as Hr.
  { subst e. cbn [shouldAttemptRecovery status]. rewrite Hc.
    destruct (Z.leb_spec 500 st); [lia | reflexivity]. }
  assert (normalizeError e = Error (content d)) as Hn.
  { subst e. cbn [normalizeError data]. rewrite Hd. destruct d; reflexivity. }
  destruct (request_direct kill_fails endpoint payload (Rejected e) Hr)
    as (w' & Hrun & Hout & Hlog & _ & Hm & Hp).
  exists w'. cbn [direct_result] in Hout. rewrite Hn in Hout. auto.
Qed.

Lemma validation_error_is_forwarded_witness :
  exists w',
    run fuel [App_call (M_request "/mission/compile" (Some compile_payload));
              Http_reply 0 (Rejected (bad_request unknown_token))]
      (ready_world false) = Some w' /\
    outcome_of w' 9 = Some (Rejected (Error (JSON_stringify unknown_token))) /\
    log w' = log (ready_world false) ++
             [O_post (url "/mission/compile") compile_payload] /\
    same_manager (ready_world false) w' /\ same_processes (ready_world false) w'.
Proof.
  apply (validation_error_is_forwarded false "/mission/compile"
           (Some compile_payload) 400 unknown_token (Some "ERR_BAD_REQUEST")).
  - lia.
  - reflexivity.
  - reflexivity.
Defined.

Definition server_error : thrown :=
  AxiosError (Some {| status := 500; data := JStr "Internal Server Error" |})
             (Some "ERR_BAD_RESPONSE").




End Bridge.


Section Shutdown.


(** The worker as the operating system sees it while it ignores the
    termination signal. *)
Definition still_running : child :=
  {| alive := true; exitCode := None; listeners := [(false, Cb_process_exit)] |}.

(** [Starting]: [start()] has spawned child 0 and waits for its first
    health probe. *)
Definition starting_world (kill_fails : bool) : world :=
  {| process := Some 0;
     ready := false;
     startPromise := Some 4;
     quitting := false;
     next_promise := 5;
     settled := [];
     waiters :=
       [ {| awaited := 3; w_self := 2;
            resume := fun o =>
              match o with
              | Fulfilled _ => Set_ready true ;;; Return Undefined
              | Rejected _ =>
                  sleep 500 (fun s => await s (fun _ => waitForReady_loop 59))
              end |};
         {| awaited := 2; w_self := 1;
            resume := fun o =>
              match o with
              | Fulfilled _ =>
                  Call M_ensureBoundary (fun p' => await p' (fun _ => Return Undefined))
              | Rejected e => Throw e
              end |};
         {| awaited := 1; w_self := 4;
            resume := fun o => Invoke Cb_clear_startPromise ;;; pass_on o |};
         {| awaited := 4; w_self := 0;
            resume := fun o =>
              match o with
              | Fulfilled _ => Return Undefined
              | Rejected e => Throw e
              end |} ];
     jobs := [];
     children := [still_running];
     inflight := [3];
     timers := [];
     kill_throws := fun _ => kill_fails;
     log := [O_spawn 0; O_get (url "/health")] |}.

Lemma start_reaches_starting (kill_fails : bool) :
  step fuel (App_call M_start) (idle_world kill_fails) = Some (starting_world kill_fails).
Proof. vm_compute. reflexivity. Qed.

(** C5. The worker does not exit after [kill()]: [stop()] stays pending
    until the 2000 ms timer fires, then resolves with the handle cleared
    and [ready] false, while the child is still running. The same holds
    when [stop()] interrupts a start and when it is issued by the
    before-quit handler. *)
Theorem stop_completes_on_timeout :
  forall (w : world) (call : event),
    (w = ready_world false \/ w = starting_world false) ->
    (call = App_call M_stop \/ call = Before_quit) ->
    exists w1 w2,
      step fuel call w = Some w1 /\
      outcome_of w1 (next_promise w) = None /\
      log w1 = log w ++ [O_kill 0; O_setTimeout 2000] /\
      step fuel (Timer_fire 0) w1 = Some w2 /\
      outcome_of w2 (next_promise w) = Some (Fulfilled Undefined) /\
      process w2 = None /\ ready w2 = false /\
      nth_error (children w2) 0 = Some still_running.
Proof.
  intros w call [-> | ->] [-> | ->];
    (eexists; eexists; split; [vm_compute; reflexivity|]);
    vm_compute; auto 10.
Qed.

Lemma stop_completes_on_timeout_witness :
  exists w1 w2,
    step fuel Before_quit (ready_world false) = Some w1 /\
    outcome_of w1 9 = None /\
    log w1 = log (ready_world false) ++ [O_kill 0; O_setTimeout 2000] /\
    step fuel (Timer_fire 0) w1 = Some w2 /\
    outcome_of w2 9 = Some (Fulfilled Undefined) /\
    process w2 = None /\ ready w2 = false /\
    nth_error (children w2) 0 = Some still_running.
Proof.
  exact (stop_completes_on_timeout (ready_world false) Before_quit
           (or_introl eq_refl) (or_intror eq_refl)).
Defined.


(** [stop()] of the earlier revision of main.ts, a synchronous method:
    [if (this.process) { this.process.kill(); this.process = null;
    this.ready = false; }].  The flag returned says whether [kill()] threw,
    in which case the exception leaves [stop()]. *)
Definition stop_sync (w : world) : world * bool :=
  match process w with
  | Some h =>
      let (w1, threw) := perform (Kill h) w in
      if threw then (w1, true)
      else (set_ready false (set_process None w1), false)
  | None => (w, false)
  end.






End Shutdown.

Section Startup.

(** One probe the worker does not answer: axios rejects with [e], and the
    500 ms timer (number [timer] among the pending ones) then fires. *)
Definition probe_fails (timer : nat) (e : thrown) : list event :=
  [Http_reply 0 (Rejected e); Timer_fire timer].

(** [n] such probes in a row; [errors] gives the error of each. *)
Fixpoint rounds (timer : nat) (errors : nat -> thrown) (n : nat) : list event :=
  match n with
  | 0 => []
  | S n' => probe_fails timer (errors 0) ++ rounds timer (fun i => errors (S i)) n'
  end.

(** What [n] unanswered probes leave in the log. *)
Fixpoint probes (n : nat) : list obs :=
  match n with
  | 0 => []
  | S n' => O_get (url "/health") :: O_setTimeout 500 :: probes n'
  end.

Definition startup_error : thrown := Error (Lit "Python worker failed to start").

Definition probe_answered (errors : nat -> thrown) (d : json) (k : nat) : Prop :=
  exists w,
    run fuel (App_call M_waitForReady :: rounds 0 errors k ++ [Http_reply 0 (ok d)])
      (idle_world false) = Some w /\
    outcome_of w 0 = Some (Fulfilled Undefined) /\
    ready w = true /\
    log w = probes k ++ [O_get (url "/health")] /\
    inflight w = [] /\ timers w = [].

Definition probes_exhausted (errors : nat -> thrown) : Prop :=
  exists w1 w2,
    run fuel (App_call M_waitForReady :: rounds 0 errors 59) (idle_world false)
      = Some w1 /\
    outcome_of w1 0 = None /\
    run fuel (probe_fails 0 (errors 59)) w1 = Some w2 /\
    outcome_of w2 0 = Some (Rejected startup_error) /\
    ready w2 = false /\
    log w2 = probes 60 /\
    inflight w2 = [] /\ timers w2 = [].

Lemma probe_answered_up_to (errors : nat -> thrown) (d : json) (k : nat) :
  k < 60 -> probe_answered errors d k.
Proof.
  intros Hk. unfold probe_answered.
  do 60 (destruct k as [|k];
         [eexists; split; [vm_compute; reflexivity | vm_compute; auto 10]|]).
  lia.
Qed.

(** C4. [waitForReady] probes the health endpoint and sleeps 500 ms after
    each failure. The first answer, after [k < 60] failures, ends the loop:
    the promise is fulfilled and [ready] is set, with [k + 1] probes made.
    After the 60th failure and its sleep the promise is rejected with
    "Python worker failed to start"; no 61st probe is made. *)
Theorem waitForReady_probe_budget (errors : nat -> thrown) :
  (forall (d : json) (k : nat), k < 60 -> probe_answered errors d k) /\
  probes_exhausted errors.
Proof.
  split; [intros d k; apply probe_answered_up_to|].
  unfold probes_exhausted.
  eexists; eexists; split; [vm_compute; reflexivity|].
  vm_compute. auto 10.
Qed.

Definition refused : thrown := AxiosError None (Some "ECONNREFUSED").

Lemma waitForReady_probe_budget_witness :
  probe_answered (fun _ => refused) health_body 7.
Proof.
  apply (proj1 (waitForReady_probe_budget (fun _ => refused)) health_body 7). lia.
Defined.

(** C6. The worker process stays alive but never answers: [start()] is
    rejected after 60 probes and leaves the handle of child 0 in place.
    The next [start()] therefore takes the early return of [spawnWorker]:
    it resolves at once, spawns nothing, probes nothing, and [ready] is
    still false. *)
Theorem start_after_timeout_is_skipped (kill_fails : bool) :
  exists w1 w2,
    run fuel (App_call M_start :: rounds 0 (fun _ => refused) 60)
      (idle_world kill_fails) = Some w1 /\
    outcome_of w1 0 = Some (Rejected startup_error) /\
    process w1 = Some 0 /\ ready w1 = false /\ startPromise w1 = None /\
    nth_error (children w1) 0 = Some still_running /\
    log w1 = O_spawn 0 :: probes 60 /\
    step fuel (App_call M_start) w1 = Some w2 /\
    outcome_of w2 (next_promise w1) = Some (Fulfilled Undefined) /\
    log w2 = log w1 /\ inflight w2 = [] /\
    process w2 = Some 0 /\ ready w2 = false.
Proof.
  eexists; eexists; split; [vm_compute; reflexivity|].
  vm_compute. auto 20.
Qed.

(** When the unanswering worker has exited in the meantime, its exit
    handler has cleared the handle and the next [start()] does start over:
    it spawns child 1 and probes again. *)
Lemma start_after_exit_starts_over (kill_fails : bool) (code : option Z) :
  exists w1 w2,
    run fuel (App_call M_start :: rounds 0 (fun _ => refused) 60 ++ [Proc_exit 0 code])
      (idle_world kill_fails) = Some w1 /\
    outcome_of w1 0 = Some (Rejected startup_error) /\
    process w1 = None /\
    step fuel (App_call M_start) w1 = Some w2 /\
    outcome_of w2 (next_promise w1) = None /\
    log w2 = log w1 ++ [O_spawn 1; O_get (url "/health")] /\
    process w2 = Some 1.
Proof.
  eexists; eexists; split; [vm_compute; reflexivity|].
  vm_compute. auto 20.
Qed.

End Startup.

Section Recovery.

(** The manager inside [restartWorker], after the bridge call of a request
    failed with the transient error [e]: child 0 has been sent the
    termination signal, and [stop()] (promises 13 and 14), [restartWorker]
    (12) and the request (9) wait in a chain. *)
Definition restarting_world (endpoint : string) (payload : option json) (e : thrown)
  : world :=
  let w := ready_world false in
  {| process := Some 0;
     ready := true;
     startPromise := None;
     quitting := false;
     next_promise := 15;
     settled := (10, Rejected e) :: (11, Rejected e) :: settled w;
     waiters :=
       [ {| awaited := 14; w_self := 13; resume := pass_on |};
         {| awaited := 13; w_self := 12;
            resume := after_await (fun _ =>
              Set_startPromise None ;;;
              Call M_start (fun s => await s (fun _ => Return Undefined))) |};
         {| awaited := 12; w_self := 9;
            resume := after_await (fun _ =>
              Async (performRequest endpoint payload) (fun p' => Await p' pass_on)) |} ];
     jobs := [];
     children :=
       [{| alive := true; exitCode := None;
           listeners := [(false, Cb_process_exit); (true, Cb_cleanup 0 14)] |}];
     inflight := [];
     timers := [Cb_cleanup 0 14];
     kill_throws := fun _ => false;
     log := log w ++ [bridge_call endpoint payload; O_kill 0; O_setTimeout 2000] |}.

Lemma transient_failure_restarts
      (endpoint : string) (payload : option json) (e : thrown) :
  shouldAttemptRecovery e = true ->
  run fuel [App_call (M_request endpoint payload); Http_reply 0 (Rejected e)]
    (ready_world false)
  = Some (restarting_world endpoint payload e).
Proof.
  intros He.
  destruct payload as [b|];
    rewrite run_cons; compute_step; classify_with e He; vm_compute; reflexivity.
Qed.

Lemma run_two (f : nat) (a b : event) (evs : list event) (w w1 : world) :
  run f [a; b] w = Some w1 -> run f (a :: b :: evs) w = run f evs w1.
Proof.
  intros H. change (a :: b :: evs) with ([a; b] ++ evs).
  now rewrite run_app, H.
Qed.

(** The respawned worker never answers. When the old worker had confirmed
    its exit, the timer of [stop()] is still pending and fires after [j]
    of the probes. *)
Definition never_healthy (errors : nat -> thrown) (evs : list event) : Prop :=
  (exists code j,
      j <= 4 /\
      evs = Proc_exit 0 code ::
            rounds 1 errors j ++ Timer_fire 0 ::
            rounds 0 (fun i => errors (j + i)) (60 - j)) \/
  evs = Timer_fire 0 :: rounds 0 errors 60.

(** C10. The bridge call of a request fails with a transient error [e] and
    the worker respawned by [restartWorker] never answers its health
    probes: the request is rejected with the startup error, whatever [e]
    was, and after the spawn the log shows the 60 health probes only, so
    the call was not retried. *)
Theorem failed_restart_propagates
        (endpoint : string) (payload : option json) (e : thrown)
        (errors : nat -> thrown) (evs : list event) :
  shouldAttemptRecovery e = true ->
  never_healthy errors evs ->
  let w0 := ready_world false in
  exists w,
    run fuel (App_call (M_request endpoint payload) ::
              Http_reply 0 (Rejected e) :: evs) w0 = Some w /\
    outcome_of w (next_promise w0) = Some (Rejected startup_error) /\
    log w = log w0 ++
            [bridge_call endpoint payload; O_kill 0; O_setTimeout 2000; O_spawn 1] ++
            probes 60 /\
    inflight w = [] /\ ready w = false.
Proof.
  intros He Hevs w0; subst w0.
  rewrite (run_two _ _ _ _ _ _ (transient_failure_restarts endpoint payload e He)).
  destruct Hevs as [(code & j & Hj & ->) | ->].
  - do 5 (destruct j as [|j];
          [destruct payload;
           (eexists; split; [vm_compute; reflexivity | vm_compute; auto 10])|]).
    lia.
  - destruct payload;
      (eexists; split; [vm_compute; reflexivity | vm_compute; auto 10]).
Qed.

Lemma failed_restart_propagates_witness :
  exists w,
    run fuel (App_call (M_request "/grid/build" (Some (JObj [("cell_size", JNum 100)]))) ::
              Http_reply 0 (Rejected server_error) ::
              Timer_fire 0 :: rounds 0 (fun _ => refused) 60)
      (ready_world false) = Some w /\
    outcome_of w 9 = Some (Rejected startup_error) /\
    log w = log (ready_world false) ++
            [O_post (url "/grid/build") (JObj [("cell_size", JNum 100)]);
             O_kill 0; O_setTimeout 2000; O_spawn 1] ++ probes 60 /\
    inflight w = [] /\ ready w = false.
Proof.
  apply (failed_restart_propagates "/grid/build"
           (Some (JObj [("cell_size", JNum 100)])) server_error (fun _ => refused)).
  - reflexivity.
  - right. reflexivity.
Defined.









Section Retry.

Variables (endpoint : string) (payload : option json).

(** What [request] does once [await this.restartWorker()] has returned or
    thrown: [return performRequest()], so that the promise of [request]
    follows that of the second call. *)
Definition retry_after : outcome -> prog :=
  after_await (fun _ =>
    Async (performRequest endpoint payload) (fun p' => Await p' pass_on)).

(** The [try]/[catch] of [request] around its first
    [await performRequest()]. *)
Definition request_catch (o : outcome) : prog :=
  match o with
  | Fulfilled v => Return v
  | Rejected error =>
      if shouldAttemptRecovery error
      then Call M_restartWorker (fun r => Await r retry_after)
      else Throw (normalizeError error)
  end.

Definition bridge : prog :=
  Async (performRequest endpoint payload) (fun p => Await p request_catch).

(** The continuations that a call of [performRequest] leaves behind: the
    closure waits for axios, and its caller for the closure. *)
Definition forward (ax pr : promise) : waiter :=
  {| awaited := ax; w_self := pr; resume := after_await Return |}.












End Retry.


End Recovery.

Section SingleFlight.

(** C1 (counterexample). Two calls of [start()] while the manager is not
    ready. In the first run the worker exits during its startup: the exit
    handler clears [startPromise], and the second call starts a second
    operation and spawns a second process while the first operation is
    still probing. In the second run both calls are made in the same turn;
    the worker answers the health probe, fails the boundary-cache call with
    status 500 and is restarted from inside the start operation: a second
    operation and a second process exist while the first operation, on
    which both callers wait, is still in flight. *)
Lemma burst_start_can_spawn_twice :
  (forall code : option Z,
      exists w,
        run fuel [App_call M_start; Proc_exit 0 code; App_call M_start]
          (idle_world false) = Some w /\
        outcome_of w 0 = None /\ outcome_of w 1 = None /\
        outcome_of w 5 = None /\ outcome_of w 6 = None /\
        startPromise w = Some 9 /\
        log w = [O_spawn 0; O_get (url "/health");
                 O_spawn 1; O_get (url "/health")]) /\
  exists w1 w2,
    run fuel [App_call M_start; App_call M_start;
              Http_reply 0 (ok health_body);
              Http_reply 0 (Rejected server_error);
              Proc_exit 0 None] (idle_world false) = Some w1 /\
    outcome_of w1 0 = None /\ outcome_of w1 5 = None /\
    outcome_of w1 4 = None /\ startPromise w1 = Some 17 /\
    log w1 = [O_spawn 0; O_get (url "/health");
              O_post (url "/boundary/cache") (JObj []);
              O_kill 0; O_setTimeout 2000;
              O_spawn 1; O_get (url "/health")] /\
    run fuel [Http_reply 0 (ok health_body);
              Http_reply 0 (ok (JObj []));
              Http_reply 0 (ok (JObj []))] w1 = Some w2 /\
    outcome_of w2 0 = Some (Fulfilled Undefined) /\
    outcome_of w2 5 = Some (Fulfilled Undefined) /\
    process w2 = Some 1.
Proof.
  split.
  - intros code. eexists; split; [vm_compute; reflexivity|].
    vm_compute. auto 12.
  - eexists; eexists; split; [vm_compute; reflexivity|].
    vm_compute. auto 12.
Qed.

(** *** Calls of [start()] that join a start in flight *)

Lemma lookup_cons_ne (p q : promise) (o : outcome) (st : list (promise * outcome)) :
  p <> q -> lookup p ((q, o) :: st) = lookup p st.
Proof. intros H. cbn [lookup]. apply Nat.eqb_neq in H. now rewrite H. Qed.

Lemma update_last {A : Type} (f : A -> A) (l : list A) (x : A) :
  update (length l) f (l ++ [x]) = l ++ [f x].
Proof. induction l as [|y l IH]; cbn; [reflexivity | now rewrite IH]. Qed.

Lemma filter_none_others (p : promise) (ws : list waiter) :
  filter (awaits p) ws = [] -> filter (fun x => negb (awaits p x)) ws = ws.
Proof.
  induction ws as [|x ws IH]; cbn; [reflexivity|].
  destruct (awaits p x); cbn; [discriminate|].
  intros H. now rewrite IH.
Qed.

(** One waiter [sp] on [p] among waiters on other promises. *)
Lemma filter_special (p : promise) (A B : list waiter) (sp : waiter) :
  awaited sp = p ->
  filter (awaits p) (A ++ B) = [] ->
  filter (awaits p) (A ++ sp :: B) = [sp] /\
  filter (fun x => negb (awaits p x)) (A ++ sp :: B) = A ++ B.
Proof.
  intros Hsp HAB. rewrite filter_app in HAB.
  apply app_eq_nil in HAB. destruct HAB as [HA HB].
  assert (Hs : awaits p sp = true) by (unfold awaits; rewrite Hsp; apply Nat.eqb_refl).
  rewrite !filter_app. cbn [filter]. rewrite Hs. cbn [negb].
  rewrite HA, HB, (filter_none_others _ _ HA), (filter_none_others _ _ HB).
  split; reflexivity.
Qed.

Lemma waitForReady_loop_S (m : nat) :
  waitForReady_loop (S m) =
  (p <- Axios_get (url "/health") ;;
   Await p (fun o =>
     match o with
     | Fulfilled _ => Set_ready true ;;; Return Undefined
     | Rejected _ => sleep 500 (fun s => await s (fun _ => waitForReady_loop m))
     end)).
Proof. reflexivity. Qed.

(** The continuation of [start()] after [await this.startPromise]. *)
Definition start_resumes (o : outcome) : prog :=
  match o with
  | Fulfilled _ => Return Undefined
  | Rejected e => Throw e
  end.

(** What a caller of [start()] gets when the shared promise settles
    with [o]. *)
Definition start_result (o : outcome) : outcome :=
  match o with
  | Fulfilled _ => Fulfilled Undefined
  | Rejected e => Rejected e
  end.

(** Callers of [start()] queued behind one settled promise: each of them
    settles with the same result, and nothing else changes. *)
Lemma drain_callers (o : outcome) (ids : list promise) :
  forall (w : world) (f : nat),
    jobs w = map (fun q => (q, start_resumes o)) ids ->
    NoDup ids ->
    (forall q, In q ids ->
               outcome_of w q = None /\ filter (awaits q) (waiters w) = []) ->
    exists w',
      drain (length ids + f) w = Some w' /\
      (forall q, In q ids -> outcome_of w' q = Some (start_result o)) /\
      (forall q, ~ In q ids -> outcome_of w' q = outcome_of w q) /\
      waiters w' = waiters w /\ jobs w' = [] /\
      log w' = log w /\ inflight w' = inflight w /\
      same_manager w w' /\ same_processes w w'.
Proof.
  induction ids as [|q ids IH]; intros w f Hjobs Hnd Hfree.
  - exists w. rewrite drain_nil by assumption.
    unfold same_manager, same_processes. cbn. intuition.
  - cbn [length plus]. rewrite drain_S, Hjobs. cbn [map].
    inversion Hnd as [|q' ids' Hq Hnd']; subst.
    destruct (Hfree q (or_introl eq_refl)) as [Hout Hnone].
    set (r := start_result o).
    assert (exec (S (length ids + f)) (set_jobs (map (fun q => (q, start_resumes o)) ids) w)
              q (start_resumes o)
            = Some (set_jobs (map (fun q => (q, start_resumes o)) ids)
                      (set_settled ((q, r) :: settled w) w))) as Hexec.
    { subst r. destruct o; cbn; unfold settle, outcome_of in *; cbn;
        rewrite Hout; cbn; rewrite Hnone, (filter_none_others _ _ Hnone), app_nil_r;
        destruct w; reflexivity. }
    rewrite Hexec.
    destruct (IH (set_jobs (map (fun q => (q, start_resumes o)) ids)
                    (set_settled ((q, r) :: settled w) w)) f)
      as (w' & Hd & Hin & Hother & Hw & Hj & Hl & Hi & Hm & Hp).
    + reflexivity.
    + assumption.
    + intros q' Hq'. destruct (Hfree q' (or_intror Hq')) as [Ho' Hn'].
      split; [|exact Hn'].
      unfold outcome_of in *. cbn.
      destruct (Nat.eqb_spec q' q); [subst; contradiction | assumption].
    + exists w'. split; [exact Hd|].
      split; [|split; [|split; [exact Hw|split; [exact Hj|split; [exact Hl|
               split; [exact Hi|split; [exact Hm | exact Hp]]]]]]].
      * intros q' [<- | Hq']; [|auto].
        rewrite Hother by assumption. unfold outcome_of. cbn.
        now rewrite Nat.eqb_refl.
      * intros q' Hq'. rewrite Hother by (intros Hc; apply Hq'; now right).
        unfold outcome_of. cbn.
        destruct (Nat.eqb_spec q' q); [subst; exfalso; apply Hq'; now left | reflexivity].
Qed.

(** The promise handed to each call in [evs], in the order of the calls:
    a call gets the next promise of the world it is made in. *)
Fixpoint call_promises (f : nat) (evs : list event) (w : world) : list promise :=
  match evs with
  | [] => []
  | ev :: evs' =>
      match ev with App_call _ => [next_promise w] | _ => [] end ++
      match step f ev w with
      | Some w1 => call_promises f evs' w1
      | None => []
      end
  end.

Lemma call_promises_app (f : nat) (a b : list event) (w w1 : world) :
  run f a w = Some w1 ->
  call_promises f (a ++ b) w = call_promises f a w ++ call_promises f b w1.
Proof.
  revert w. induction a as [|ev a IH]; intros w H.
  - cbn in H. injection H as <-. reflexivity.
  - rewrite run_cons in H. cbn [app call_promises].
    destruct (step f ev w) as [w2|]; [|discriminate].
    rewrite (IH w2 H), app_assoc. reflexivity.
Qed.

(** [c] calls of [start()] in a row. *)
Definition calls (c : nat) : list event := repeat (App_call M_start) c.

(** [k] probes that the worker does not answer.  [gaps] counts the calls
    of [start()] that come in while a probe is pending ([gaps 0],
    [gaps 2], ...) and while the loop sleeps ([gaps 1], [gaps 3], ...). *)
Fixpoint refused_rounds (k : nat) (gaps : nat -> nat) (errors : nat -> thrown)
  : list event :=
  match k with
  | 0 => []
  | S k' =>
      calls (gaps 0) ++ Http_reply 0 (Rejected (errors 0)) ::
      calls (gaps 1) ++ Timer_fire 0 ::
      refused_rounds k' (fun i => gaps (2 + i)) (fun i => errors (S i))
  end.

(** The calls that come in during [k] rounds, and what the rounds leave
    in the log after the first probe. *)
Fixpoint joins (k : nat) (gaps : nat -> nat) : nat :=
  match k with
  | 0 => 0
  | S k' => gaps 0 + gaps 1 + joins k' (fun i => gaps (2 + i))
  end.

Fixpoint retries (k : nat) : list obs :=
  match k with
  | 0 => []
  | S k' => O_setTimeout 500 :: O_get (url "/health") :: retries k'
  end.

Lemma probes_retries (k : nat) :
  O_get (url "/health") :: retries k = probes k ++ [O_get (url "/health")].
Proof.
  induction k as [|k IH]; [reflexivity|].
  cbn [retries probes app]. now rewrite IH.
Qed.

Lemma probes_snoc (k : nat) :
  probes k ++ [O_get (url "/health"); O_setTimeout 500] = probes (S k).
Proof.
  induction k as [|k IH]; [reflexivity|].
  cbn [probes app] in *. now rewrite IH.
Qed.

(** What the boundary-cache call leaves in the log when it has failed. *)
Definition boundary_log (r : outcome) : list obs :=
  match r with
  | Fulfilled _ => []
  | Rejected _ => [O_console_error "Failed to ensure boundary cache"]
  end.

Ltac norm_world :=
  cbn [process ready startPromise quitting next_promise settled waiters jobs children
       inflight timers kill_throws log set_process set_ready set_startPromise
       set_quitting set_next_promise set_settled set_waiters set_jobs set_children
       set_inflight set_timers set_log log_event alloc app].

Ltac pending n :=
  repeat rewrite lookup_cons_ne by (lia || congruence);
  rewrite ?(lookup_fresh n) by (assumption || lia);
  repeat match goal with
    | H : lookup ?p ?st = None |- context [lookup ?p ?st] => rewrite H
    end.

Ltac decide_eqb :=
  repeat match goal with
    | |- context [(?a =? ?b)%nat] =>
        first [ rewrite (proj2 (Nat.eqb_eq a b)) by lia
              | rewrite (proj2 (Nat.eqb_neq a b)) by lia ]
    end.

Ltac run_do := repeat (rewrite exec_Do; cbn [perform]; norm_world).

Section Joining.

(** The start operation in flight: [p0] is the promise of the call that
    began it, [p1] that of [spawnWorker], [p2] that of [waitForReady] and
    [p4] the shared [startPromise]; [h] is the worker spawned.  The rest
    is what the start found and leaves alone. *)
Variables (p1 p2 p4 : promise) (h : handle).
Variables (qt : bool) (ch : list child) (kt : handle -> bool).
Hypothesis distinct : p1 <> p2 /\ p1 <> p4 /\ p2 <> p4.

#[local] Set Default Proof Using "All".

(** [spawnWorker] waits for [waitForReady], [finally] for [spawnWorker],
    and every call of [start()] for the promise of [finally]. *)
Definition op_spawnWorker : waiter :=
  {| awaited := p2; w_self := p1;
     resume := fun o =>
       match o with
       | Fulfilled _ =>
           Call M_ensureBoundary (fun p' => await p' (fun _ => Return Undefined))
       | Rejected e => Throw e
       end |}.

Definition op_finally : waiter :=
  {| awaited := p1; w_self := p4;
     resume := fun o => Invoke Cb_clear_startPromise ;;; pass_on o |}.

Definition caller (q : promise) : waiter :=
  {| awaited := p4; w_self := q; resume := start_resumes |}.

Definition operation (Q : list promise) : list waiter :=
  op_spawnWorker :: op_finally :: map caller Q.

(** [waitForReady] waits for the probe [x], with [m] attempts left after
    it, or for the sleep [s] after a refused probe. *)
Definition probe_waiter (m : nat) (x : promise) : waiter :=
  {| awaited := x; w_self := p2;
     resume := fun o =>
       match o with
       | Fulfilled _ => Set_ready true ;;; Return Undefined
       | Rejected _ => sleep 500 (fun s => await s (fun _ => waitForReady_loop m))
       end |}.

Definition sleep_waiter (m : nat) (s : promise) : waiter :=
  {| awaited := s; w_self := p2; resume := after_await (fun _ => waitForReady_loop m) |}.

(** After a health probe has been answered: [performRequest] waits for
    axios, [request] for [performRequest], [ensureBoundary] for its
    request, and [spawnWorker] for [ensureBoundary]. *)
Definition catching (pr rq : promise) : waiter :=
  {| awaited := pr; w_self := rq;
     resume := request_catch "/boundary/cache" (Some (JObj [])) |}.

Definition ensuring (rq eb : promise) : waiter :=
  {| awaited := rq; w_self := eb;
     resume := fun o =>
       match o with
       | Fulfilled _ => Return Undefined
       | Rejected _ =>
           Console_error "Failed to ensure boundary cache" ;;;
           Return Undefined
       end |}.

Definition op_ensured (eb : promise) : waiter :=
  {| awaited := eb; w_self := p1; resume := after_await (fun _ => Return Undefined) |}.

(** The manager while [waitForReady] probes or sleeps: [sp] is its
    waiter, somewhere among those of the operation. *)
Definition startup (n : promise) (st : list (promise * outcome))
           (A : list waiter) (sp : waiter) (B : list waiter)
           (net : list promise) (tm : list callback) (lg : list obs) : world :=
  {| process := Some h; ready := false; startPromise := Some p4; quitting := qt;
     next_promise := n; settled := st; waiters := A ++ sp :: B; jobs := [];
     children := ch; inflight := net; timers := tm;
     kill_throws := kt; log := lg |}.

(** The worker has answered a health probe: the manager is ready, and the
    start operation waits for the boundary-cache call. *)
Definition ensuring_boundary (n : promise) (st : list (promise * outcome))
           (Q : list promise) (lg : list obs) : world :=
  {| process := Some h; ready := true; startPromise := Some p4; quitting := qt;
     next_promise := S (S (S (S n))); settled := st;
     waiters := (op_finally :: map caller Q) ++
                [forward (S (S (S n))) (S (S n)); catching (S (S n)) (S n);
                 ensuring (S n) n; op_ensured n];
     jobs := [];
     children := ch; inflight := [S (S (S n))]; timers := [];
     kill_throws := kt; log := lg |}.

(** The start operation is over with the result [o] of the shared
    promise: the continuation of every call is queued. *)
Definition settling (n : promise) (st : list (promise * outcome))
           (o : outcome) (rd : bool) (lg : list obs) (Q : list promise) : world :=
  {| process := Some h; ready := rd; startPromise := None; quitting := qt;
     next_promise := n; settled := st; waiters := [];
     jobs := map (fun q => (q, start_resumes o)) Q;
     children := ch; inflight := []; timers := [];
     kill_throws := kt; log := lg |}.

(** The promises in play while [waitForReady] runs: [x] is the pending
    probe or sleep, [Q] the calls of [start()] so far; none of them is
    settled. *)
Record joined (n : promise) (st : list (promise * outcome)) (x : promise)
       (Q : list promise) : Prop := {
  j_settled : Forall (fun y => fst y < n) st;
  j_op : (p1 < n /\ p2 < n /\ p4 < n) /\
         lookup p1 st = None /\ lookup p2 st = None /\ lookup p4 st = None;
  j_x : x < n /\ x <> p1 /\ x <> p2 /\ x <> p4 /\ lookup x st = None;
  j_distinct : NoDup Q;
  j_callers : forall q, In q Q ->
                        q < n /\ q <> p1 /\ q <> p2 /\ q <> p4 /\ q <> x /\
                        lookup q st = None
}.

Record ensured (n : promise) (st : list (promise * outcome)) (Q : list promise) : Prop := {
  e_settled : Forall (fun y => fst y < n) st;
  e_op : (p1 < n /\ p4 < n) /\ lookup p1 st = None /\ lookup p4 st = None;
  e_distinct : NoDup Q;
  e_callers : forall q, In q Q -> q < n /\ q <> p1 /\ q <> p4 /\ lookup q st = None
}.

Lemma filter_callers (l : list promise) :
  filter (awaits p4) (map caller l) = map caller l /\
  filter (fun x => negb (awaits p4 x)) (map caller l) = [].
Proof.
  assert (H : forall q, awaits p4 (caller q) = true)
    by (intros q; apply Nat.eqb_refl).
  induction l as [|q l [IH1 IH2]]; cbn [map filter]; [auto|].
  rewrite H. cbn [negb]. split; [now rewrite IH1 | exact IH2].
Qed.

Lemma filter_callers_other (p : promise) (l : list promise) :
  p <> p4 ->
  filter (awaits p) (map caller l) = [] /\
  filter (fun x => negb (awaits p x)) (map caller l) = map caller l.
Proof.
  intros Hp.
  assert (H : forall q, awaits p (caller q) = false)
    by (intros q; apply Nat.eqb_neq; cbn; congruence).
  induction l as [|q l [IH1 IH2]]; cbn [map filter]; [auto|].
  rewrite H. cbn [negb]. split; [exact IH1 | now rewrite IH2].
Qed.

Lemma operation_filters (Q : list promise) (p : promise) :
  p <> p1 -> p <> p2 -> p <> p4 -> filter (awaits p) (operation Q) = [].
Proof.
  intros H1 H2 H4.
  assert (Ha : awaits p op_spawnWorker = false) by (apply Nat.eqb_neq; cbn; congruence).
  assert (Hb : awaits p op_finally = false) by (apply Nat.eqb_neq; cbn; congruence).
  unfold operation. cbn [filter]. rewrite Ha, Hb.
  apply filter_callers_other. assumption.
Qed.

Lemma operation_snoc (A B : list waiter) (Q : list promise) (l : list promise) :
  A ++ B = operation Q -> A ++ B ++ map caller l = operation (Q ++ l).
Proof.
  intros H. rewrite app_assoc, H. unfold operation. now rewrite map_app.
Qed.

Lemma caller_waits (A B : list waiter) (sp : waiter) (Q : list promise) (q : promise) :
  A ++ B = operation Q -> In q Q -> In (caller q) (A ++ sp :: B).
Proof.
  intros H Hq.
  assert (Hin : In (caller q) (A ++ B))
    by (rewrite H; right; right; now apply in_map).
  apply in_app_or in Hin. apply in_or_app. destruct Hin; [now left | right; now right].
Qed.

(** Settles the promise at the head of the goal and wakes its waiters. *)
Ltac wake n :=
  unfold settle at 1, outcome_of; norm_world; pending n; cbv iota;
  cbn [filter]; rewrite ?filter_app; cbn [filter];
  repeat match goal with
    | H : filter _ (map caller _) = _ |- _ => rewrite H
    end;
  unfold awaits;
  cbn [awaited op_finally op_spawnWorker forward catching ensuring op_ensured];
  decide_eqb;
  cbn [negb app map w_self resume op_finally op_spawnWorker forward catching
       ensuring op_ensured].

(** *** The invariant along the run *)

Lemma joined_join (n : promise) (st : list (promise * outcome)) (x : promise)
      (Q : list promise) :
  joined n st x Q -> joined (S n) st x (Q ++ [n]).
Proof.
  intros [Hst (Hop & Hop') (Hx & Hx') Hnd HQ]. split.
  - eapply Forall_impl; [|exact Hst]. cbn. intros; lia.
  - split; [lia | exact Hop'].
  - split; [lia | exact Hx'].
  - apply NoDup_app; [exact Hnd | repeat constructor; cbn; tauto |].
    intros q Hq [E | []]. destruct (HQ q Hq). lia.
  - intros q Hq. apply in_app_or in Hq. destruct Hq as [Hq | [<- | []]].
    + destruct (HQ q Hq) as (H1 & H2). split; [lia | exact H2].
    + repeat split; try lia. apply (lookup_fresh n); [assumption | lia].
Qed.

Lemma joined_next (n : promise) (st : list (promise * outcome)) (x : promise)
      (Q : list promise) (o : outcome) :
  joined n st x Q -> joined (S n) ((x, o) :: st) n Q.
Proof.
  intros [Hst (Hop & P1 & P2 & P4) (Hx & Hx1 & Hx2 & Hx4 & Px) Hnd HQ]. split.
  - constructor; [cbn; lia|]. eapply Forall_impl; [|exact Hst]. cbn. intros; lia.
  - split; [lia|]. rewrite !lookup_cons_ne by congruence. auto.
  - repeat split; try lia.
    rewrite lookup_cons_ne by lia. apply (lookup_fresh n); [assumption | lia].
  - exact Hnd.
  - intros q Hq. destruct (HQ q Hq) as (H1 & H2 & H3 & H4 & H5 & H6).
    repeat split; try lia. rewrite lookup_cons_ne by congruence. exact H6.
Qed.

Lemma joined_calls (c : nat) : forall (n : promise) (st : list (promise * outcome))
      (x : promise) (Q : list promise),
  joined n st x Q -> joined (c + n) st x (Q ++ seq n c).
Proof.
  induction c as [|c IH]; intros n st x Q H.
  - cbn. now rewrite app_nil_r.
  - cbn [seq]. replace (S c + n) with (c + S n) by lia.
    change (n :: seq (S n) c) with ([n] ++ seq (S n) c). rewrite app_assoc.
    apply IH, joined_join, H.
Qed.

Lemma joined_ensured (n : promise) (st : list (promise * outcome)) (x : promise)
      (Q : list promise) (v : value) :
  joined n st x Q ->
  ensured n ((p2, Fulfilled Undefined) :: (x, Fulfilled v) :: st) Q.
Proof.
  intros [Hst (Hop & P1 & P2 & P4) (Hx & Hx1 & Hx2 & Hx4 & Px) Hnd HQ]. split.
  - constructor; [cbn; lia|]. constructor; [cbn; lia | exact Hst].
  - split; [lia|]. destruct distinct as (D1 & D2 & D3).
    rewrite !lookup_cons_ne by congruence. auto.
  - exact Hnd.
  - intros q Hq. destruct (HQ q Hq) as (H1 & H2 & H3 & H4 & H5 & H6).
    repeat split; try lia. rewrite !lookup_cons_ne by congruence. exact H6.
Qed.

Lemma joined_pending (n : promise) (st : list (promise * outcome)) (x : promise)
      (Q : list promise) (extra : list (promise * outcome)) :
  joined n st x Q ->
  (forall p, In p (map fst extra) -> p = p1 \/ p = p2 \/ p = p4 \/ p = x \/ n <= p) ->
  forall q, In q Q -> lookup q (extra ++ st) = None.
Proof.
  intros HJ Hextra q Hq.
  destruct (j_callers _ _ _ _ HJ q Hq) as (H0 & H1 & H2 & H4 & Hx & Pq).
  induction extra as [|[p o] extra IH]; [exact Pq|].
  cbn [app]. rewrite lookup_cons_ne.
  - apply IH. intros p' Hp'. apply Hextra. now right.
  - destruct (Hextra p (or_introl eq_refl)) as [-> | [-> | [-> | [-> | Hp]]]];
      try congruence. lia.
Qed.

(** *** One turn at a time *)

Lemma start_joins (f : nat) (n : promise) (st : list (promise * outcome))
      (A : list waiter) (sp : waiter) (B : list waiter)
      (net : list promise) (tm : list callback) (lg : list obs) :
  lookup p4 st = None ->
  step (S f) (App_call M_start) (startup n st A sp B net tm lg)
  = Some (startup (S n) st A sp (B ++ [caller n]) net tm lg).
Proof.
  intros H4. unfold step, handle_event, startup. cbn [alloc body]. norm_world.
  unfold start. run_do. unfold await. rewrite exec_Await.
  unfold suspend, outcome_of. norm_world. rewrite H4.
  norm_world. rewrite drain_nil by reflexivity.
  rewrite <- app_assoc. reflexivity.
Qed.

Lemma probe_refused (f : nat) (n : promise) (st : list (promise * outcome))
      (A B : list waiter) (m : nat) (x : promise) (lg : list obs) (e : thrown) :
  Forall (fun y => fst y < n) st -> x < n -> lookup x st = None ->
  filter (awaits x) (A ++ B) = [] ->
  step (S f) (Http_reply 0 (Rejected e))
    (startup n st A (probe_waiter m x) B [x] [] lg)
  = Some (startup (S n) ((x, Rejected e) :: st) (A ++ B) (sleep_waiter m n) []
            [] [Cb_resolve n] (lg ++ [O_setTimeout 500])).
Proof.
  intros Hst Hx Px HAB.
  destruct (filter_special x A B (probe_waiter m x) eq_refl HAB) as [F1 F2].
  unfold step, handle_event, startup. cbn [inflight nth_error remove_nth].
  unfold settle at 1, outcome_of. norm_world. rewrite Px, F1, F2.
  cbn [map app w_self resume probe_waiter].
  rewrite drain_S. norm_world.
  unfold sleep. run_do. unfold await. rewrite exec_Await.
  unfold suspend, outcome_of. norm_world. pending n. cbv iota.
  norm_world. rewrite drain_nil by reflexivity. reflexivity.
Qed.

Lemma sleep_over (f : nat) (n : promise) (st : list (promise * outcome))
      (A B : list waiter) (m : nat) (s : promise) (lg : list obs) :
  Forall (fun y => fst y < n) st -> s < n -> lookup s st = None ->
  filter (awaits s) (A ++ B) = [] ->
  step (S f) (Timer_fire 0)
    (startup n st A (sleep_waiter (S m) s) B [] [Cb_resolve s] lg)
  = Some (startup (S n) ((s, Fulfilled Undefined) :: st) (A ++ B) (probe_waiter m n) []
            [n] [] (lg ++ [O_get (url "/health")])).
Proof.
  intros Hst Hs Ps HAB.
  destruct (filter_special s A B (sleep_waiter (S m) s) eq_refl HAB) as [F1 F2].
  unfold step, handle_event, startup. cbn [timers nth_error remove_nth run_callback].
  unfold settle at 1, outcome_of. norm_world. rewrite Ps, F1, F2.
  cbn [map app w_self resume sleep_waiter after_await].
  rewrite drain_S. norm_world.
  rewrite waitForReady_loop_S. run_do. rewrite exec_Await.
  unfold suspend, outcome_of. norm_world. pending n. cbv iota.
  norm_world. rewrite drain_nil by reflexivity. reflexivity.
Qed.

Lemma budget_spent (f : nat) (n : promise)
      (st : list (promise * outcome)) (A B : list waiter) (s : promise)
      (lg : list obs) (Q : list promise) :
  A ++ B = operation Q -> joined n st s Q ->
  step (3 + f) (Timer_fire 0)
    (startup n st A (sleep_waiter 0 s) B [] [Cb_resolve s] lg)
  = drain f
      (settling n
         ((p4, Rejected startup_error) :: (p1, Rejected startup_error) ::
          (p2, Rejected startup_error) :: (s, Fulfilled Undefined) :: st)
         (Rejected startup_error) false lg Q).
Proof.
  intros HAB [Hst (Hop & P1 & P2 & P4) (Hs & Hs1 & Hs2 & Hs4 & Ps) Hnd HQ].
  destruct distinct as (D1 & D2 & D3).
  assert (Fs : filter (awaits s) (A ++ B) = [])
    by (rewrite HAB; apply operation_filters; assumption).
  destruct (filter_special s A B (sleep_waiter 0 s) eq_refl Fs) as [F1 F2].
  destruct (filter_callers_other p2 Q) as [C2a C2b]; [congruence|].
  destruct (filter_callers_other p1 Q) as [C1a C1b]; [congruence|].
  destruct (filter_callers Q) as [C4a C4b].
  unfold step, handle_event, startup. cbn [timers nth_error remove_nth run_callback].
  unfold settle at 1, outcome_of. norm_world. rewrite Ps, F1, F2.
  cbn [map app w_self resume sleep_waiter after_await].
  change (3 + f) with (S (S (S f))).
  rewrite drain_S. norm_world.
  change (waitForReady_loop 0) with (Throw startup_error). rewrite exec_Throw.
  rewrite HAB. unfold operation.
  wake n. rewrite drain_S. norm_world. rewrite exec_Throw.
  wake n. rewrite drain_S. norm_world.
  rewrite exec_Do. cbn [perform run_callback]. rewrite exec_pass_on.
  wake n. rewrite map_map. cbn [w_self resume caller].
  reflexivity.
Qed.

Lemma health_answered (f : nat) (n : promise) (st : list (promise * outcome))
      (A B : list waiter) (m : nat) (x : promise) (lg : list obs) (Q : list promise)
      (v : value) :
  A ++ B = operation Q -> joined n st x Q ->
  step (4 + f) (Http_reply 0 (Fulfilled v))
    (startup n st A (probe_waiter m x) B [x] [] lg)
  = Some (ensuring_boundary n ((p2, Fulfilled Undefined) :: (x, Fulfilled v) :: st) Q
            (lg ++ [O_post (url "/boundary/cache") (JObj [])])).
Proof.
  intros HAB [Hst (Hop & P1 & P2 & P4) (Hx & Hx1 & Hx2 & Hx4 & Px) Hnd HQ].
  destruct distinct as (D1 & D2 & D3).
  assert (Fx : filter (awaits x) (A ++ B) = [])
    by (rewrite HAB; apply operation_filters; assumption).
  destruct (filter_special x A B (probe_waiter m x) eq_refl Fx) as [F1 F2].
  destruct (filter_callers_other p2 Q) as [C2a C2b]; [congruence|].
  unfold step, handle_event, startup. cbn [inflight nth_error remove_nth].
  unfold settle at 1, outcome_of. norm_world. rewrite Px, F1, F2.
  cbn [map app w_self resume probe_waiter].
  change (4 + f) with (S (S (S (S f)))).
  rewrite drain_S. norm_world.
  rewrite exec_Do. cbn [perform]. rewrite exec_Return.
  rewrite HAB. unfold operation.
  wake n. rewrite drain_S. norm_world.
  rewrite exec_Call. cbn [alloc body]. unfold ensureBoundary.
  rewrite exec_Call. cbn [alloc body]. unfold request. run_do.
  rewrite exec_Async. cbn [alloc]. unfold performRequest. run_do.
  unfold await. rewrite exec_Await.
  unfold suspend at 1, outcome_of. norm_world. pending n. cbv iota.
  norm_world. rewrite exec_Await.
  unfold suspend at 1, outcome_of. norm_world. pending n. cbv iota.
  norm_world. rewrite exec_Await.
  unfold suspend at 1, outcome_of. norm_world. pending n. cbv iota.
  norm_world. rewrite exec_Await.
  unfold suspend at 1, outcome_of. norm_world. pending n. cbv iota.
  norm_world. rewrite drain_nil by reflexivity.
  unfold ensuring_boundary. rewrite <- !app_assoc. reflexivity.
Qed.

Lemma boundary_answered (f : nat) (n : promise) (st : list (promise * outcome))
      (Q : list promise) (lg : list obs) (r : outcome) :
  no_recovery r -> ensured n st Q ->
  step (5 + f) (Http_reply 0 r) (ensuring_boundary n st Q lg)
  = drain f
      (settling (S (S (S (S n))))
         ((p4, Fulfilled Undefined) :: (p1, Fulfilled Undefined) ::
          (n, Fulfilled Undefined) :: (S n, direct_result r) ::
          (S (S n), r) :: (S (S (S n)), r) :: st)
         (Fulfilled Undefined) true (lg ++ boundary_log r) Q).
Proof.
  intros Hr [Hst (Hop & P1 & P4) Hnd HQ].
  destruct distinct as (D1 & D2 & D3).
  destruct (filter_callers_other (S (S (S n))) Q) as [Ca1 Ca2]; [lia|].
  destruct (filter_callers_other (S (S n)) Q) as [Cb1 Cb2]; [lia|].
  destruct (filter_callers_other (S n) Q) as [Cc1 Cc2]; [lia|].
  destruct (filter_callers_other n Q) as [Cd1 Cd2]; [lia|].
  destruct (filter_callers_other p1 Q) as [Ce1 Ce2]; [congruence|].
  destruct (filter_callers Q) as [Cf1 Cf2].
  unfold step, handle_event, ensuring_boundary. cbn [inflight nth_error remove_nth].
  change (5 + f) with (S (S (S (S (S f))))).
  destruct r as [v|e]; cbn [no_recovery] in Hr; cbn [direct_result boundary_log].
  - wake n. rewrite drain_S. norm_world. cbn [after_await]. rewrite exec_Return.
    wake n. rewrite drain_S. norm_world. cbn [request_catch]. rewrite exec_Return.
    wake n. rewrite drain_S. norm_world. rewrite exec_Return.
    wake n. rewrite drain_S. norm_world. cbn [after_await]. rewrite exec_Return.
    wake n. rewrite drain_S. norm_world.
    rewrite exec_Do. cbn [perform run_callback]. rewrite exec_pass_on.
    wake n. rewrite !app_nil_r, map_map. cbn [w_self resume caller].
    reflexivity.
  - wake n. rewrite drain_S. norm_world. cbn [after_await]. rewrite exec_Throw.
    wake n. rewrite drain_S. norm_world. cbn [request_catch]. rewrite Hr, exec_Throw.
    wake n. rewrite drain_S. norm_world.
    rewrite exec_Do. cbn [perform]. rewrite exec_Return.
    wake n. rewrite drain_S. norm_world. cbn [after_await]. rewrite exec_Return.
    wake n. rewrite drain_S. norm_world.
    rewrite exec_Do. cbn [perform run_callback]. rewrite exec_pass_on.
    wake n. rewrite !app_nil_r, map_map. cbn [w_self resume caller].
    reflexivity.
Qed.

Lemma settling_settles (f : nat) (n : promise) (st : list (promise * outcome))
      (o : outcome) (rd : bool) (lg : list obs) (Q : list promise) :
  NoDup Q -> (forall q, In q Q -> lookup q st = None) ->
  exists w',
    drain (length Q + f) (settling n st o rd lg Q) = Some w' /\
    (forall q, In q Q -> outcome_of w' q = Some (start_result o)) /\
    startPromise w' = None /\ process w' = Some h /\ ready w' = rd /\
    log w' = lg /\ children w' = ch /\
    inflight w' = [] /\ timers w' = [] /\ waiters w' = [] /\ jobs w' = [].
Proof.
  intros Hnd HQ.
  destruct (drain_callers o Q (settling n st o rd lg Q) f)
    as (w' & Hd & Hin & Hother & Hw & Hj & Hl & Hi & (Hm1 & Hm2 & Hm3) & (Hp1 & Hp2)).
  - reflexivity.
  - exact Hnd.
  - intros q Hq. split; [apply HQ, Hq | reflexivity].
  - exists w'. split; [exact Hd|]. split; [exact Hin|].
    rewrite Hm1, Hm2, Hm3, Hl, Hi, Hp1, Hp2, Hw, Hj.
    cbn. auto 12.
Qed.

(** *** Rounds *)

Section Schedule.

Variable f : nat.

Lemma calls_join (c : nat) :
  forall (n : promise) (st : list (promise * outcome)) (A : list waiter) (sp : waiter)
         (B : list waiter) (net : list promise) (tm : list callback) (lg : list obs),
    lookup p4 st = None ->
    run (S f) (calls c) (startup n st A sp B net tm lg)
    = Some (startup (c + n) st A sp (B ++ map caller (seq n c)) net tm lg) /\
    call_promises (S f) (calls c) (startup n st A sp B net tm lg) = seq n c.
Proof.
  induction c as [|c IH]; intros n st A sp B net tm lg H4.
  - cbn. now rewrite app_nil_r.
  - unfold calls. cbn [repeat seq map call_promises]. fold (calls c).
    rewrite run_cons, start_joins by exact H4.
    destruct (IH (S n) st A sp (B ++ [caller n]) net tm lg H4) as [Hr Hc].
    rewrite Hr, Hc. rewrite <- app_assoc. cbn [app next_promise startup].
    replace (c + S n) with (S c + n) by lia. auto.
Qed.

(** One round: calls, the probe is refused, calls, the sleep is over. *)
Lemma round_run (m c1 c2 : nat) (e : thrown) (rest : list event)
      (n : promise) (st : list (promise * outcome)) (A B : list waiter) (x : promise)
      (Q : list promise) (lg : list obs) :
  A ++ B = operation Q -> joined n st x Q ->
  exists n' st' A' x' Q',
    let w := startup n st A (probe_waiter (S m) x) B [x] [] lg in
    let w' := startup n' st' A' (probe_waiter m x') [] [x'] []
                (lg ++ [O_setTimeout 500; O_get (url "/health")]) in
    let evs := calls c1 ++ Http_reply 0 (Rejected e) :: calls c2 ++ Timer_fire 0 :: rest in
    run (S f) evs w = run (S f) rest w' /\
    call_promises (S f) evs w = Q' ++ call_promises (S f) rest w' /\
    length Q' = c1 + c2 /\
    A' ++ [] = operation (Q ++ Q') /\ joined n' st' x' (Q ++ Q').
Proof.
  intros HAB HJ.
  pose proof (j_op _ _ _ _ HJ) as (_ & _ & _ & P4).
  (* calls while the probe is pending *)
  destruct (calls_join c1 n st A (probe_waiter (S m) x) B [x] [] lg P4) as [R1 C1].
  pose proof (operation_snoc A B Q (seq n c1) HAB) as HAB1.
  pose proof (joined_calls c1 n st x Q HJ) as J1.
  (* the probe is refused *)
  assert (Fx : filter (awaits x) (A ++ B ++ map caller (seq n c1)) = []).
  { rewrite HAB1. destruct (j_x _ _ _ _ J1) as (_ & X1 & X2 & X4 & _).
    apply operation_filters; assumption. }
  pose proof (probe_refused f (c1 + n) st A (B ++ map caller (seq n c1)) (S m) x lg e
                (j_settled _ _ _ _ J1) (proj1 (j_x _ _ _ _ J1))
                (proj2 (proj2 (proj2 (proj2 (j_x _ _ _ _ J1))))) Fx) as R2.
  pose proof (joined_next _ _ _ _ (Rejected e) J1) as J2.
  pose proof (j_op _ _ _ _ J2) as (_ & _ & _ & P4').
  (* calls while the loop sleeps *)
  destruct (calls_join c2 (S (c1 + n)) ((x, Rejected e) :: st)
              (A ++ B ++ map caller (seq n c1)) (sleep_waiter (S m) (c1 + n)) []
              [] [Cb_resolve (c1 + n)] (lg ++ [O_setTimeout 500]) P4') as [R3 C3].
  assert (HAB3 : (A ++ B ++ map caller (seq n c1)) ++ [] ++ map caller (seq (S (c1 + n)) c2)
                 = operation ((Q ++ seq n c1) ++ seq (S (c1 + n)) c2)).
  { apply operation_snoc. now rewrite app_nil_r. }
  pose proof (joined_calls c2 _ _ _ _ J2) as J3.
  (* the sleep is over *)
  assert (Fs : filter (awaits (c1 + n))
                 ((A ++ B ++ map caller (seq n c1)) ++
                  [] ++ map caller (seq (S (c1 + n)) c2)) = []).
  { rewrite HAB3. destruct (j_x _ _ _ _ J3) as (_ & X1 & X2 & X4 & _).
    apply operation_filters; assumption. }
  pose proof (sleep_over f (c2 + S (c1 + n)) ((x, Rejected e) :: st)
                (A ++ B ++ map caller (seq n c1))
                ([] ++ map caller (seq (S (c1 + n)) c2)) m (c1 + n)
                (lg ++ [O_setTimeout 500])
                (j_settled _ _ _ _ J3) (proj1 (j_x _ _ _ _ J3))
                (proj2 (proj2 (proj2 (proj2 (j_x _ _ _ _ J3))))) Fs) as R4.
  pose proof (joined_next _ _ _ _ (Fulfilled Undefined) J3) as J4.
  exists (S (c2 + S (c1 + n))),
         ((c1 + n, Fulfilled Undefined) :: (x, Rejected e) :: st),
         ((A ++ B ++ map caller (seq n c1)) ++ map caller (seq (S (c1 + n)) c2)),
         (c2 + S (c1 + n)), (seq n c1 ++ seq (S (c1 + n)) c2).
  cbv zeta. rewrite <- (app_assoc lg) in R4. cbn [app] in *.
  split; [|split; [|split; [|split]]].
  - rewrite run_app, R1, run_cons, R2, run_app, R3, run_cons, R4. reflexivity.
  - rewrite (call_promises_app _ _ _ _ _ R1), C1.
    cbn [call_promises app]. rewrite R2.
    rewrite (call_promises_app _ _ _ _ _ R3), C3.
    cbn [call_promises app]. rewrite R4.
    rewrite <- !app_assoc. reflexivity.
  - rewrite length_app, !length_seq. reflexivity.
  - rewrite app_nil_r, (app_assoc Q). exact HAB3.
  - rewrite app_assoc. exact J4.
Qed.

Lemma rounds_run (k : nat) :
  forall (m : nat) (gaps : nat -> nat) (errors : nat -> thrown) (rest : list event)
         (n : promise) (st : list (promise * outcome)) (A B : list waiter) (x : promise)
         (Q : list promise) (lg : list obs),
    A ++ B = operation Q -> joined n st x Q ->
    exists n' st' A' B' x' Q',
      let w := startup n st A (probe_waiter (k + m) x) B [x] [] lg in
      let w' := startup n' st' A' (probe_waiter m x') B' [x'] [] (lg ++ retries k) in
      run (S f) (refused_rounds k gaps errors ++ rest) w = run (S f) rest w' /\
      call_promises (S f) (refused_rounds k gaps errors ++ rest) w
      = Q' ++ call_promises (S f) rest w' /\
      length Q' = joins k gaps /\
      A' ++ B' = operation (Q ++ Q') /\ joined n' st' x' (Q ++ Q').
Proof.
  induction k as [|k IH]; intros m gaps errors rest n st A B x Q lg HAB HJ.
  - exists n, st, A, B, x, []. cbn. rewrite !app_nil_r. auto.
  - cbn [refused_rounds joins retries]. change (S k + m) with (S (k + m)).
    destruct (round_run (k + m) (gaps 0) (gaps 1) (errors 0)
                (refused_rounds k (fun i => gaps (2 + i)) (fun i => errors (S i)) ++ rest)
                n st A B x Q lg HAB HJ)
      as (n1 & st1 & A1 & x1 & Q1 & R1 & C1 & L1 & HAB1 & J1).
    cbv zeta in R1, C1.
    destruct (IH m (fun i => gaps (2 + i)) (fun i => errors (S i)) rest
                n1 st1 A1 [] x1 (Q ++ Q1)
                (lg ++ [O_setTimeout 500; O_get (url "/health")]) HAB1 J1)
      as (n2 & st2 & A2 & B2 & x2 & Q2 & R2 & C2 & L2 & HAB2 & J2).
    cbv zeta in R2, C2.
    exists n2, st2, A2, B2, x2, (Q1 ++ Q2). cbv zeta.
    assert (E : forall a b r (x y : event),
               (a ++ x :: b ++ y :: r) ++ rest = a ++ x :: b ++ y :: r ++ rest).
    { intros. rewrite <- app_assoc. cbn [app]. rewrite <- app_assoc. reflexivity. }
    rewrite E, (app_assoc Q). clear E.
    rewrite <- (app_assoc lg) in R2, C2. cbn [app] in R2, C2.
    split; [|split; [|split; [|split]]].
    + rewrite R1, R2. reflexivity.
    + rewrite C1, C2, app_assoc. reflexivity.
    + rewrite length_app, L1, L2. lia.
    + exact HAB2.
    + exact J2.
Qed.

End Schedule.

(** *** The two ends of the start operation *)

Lemma worker_comes_up (f : nat) (n : promise) (st : list (promise * outcome))
      (A B : list waiter) (m : nat) (x : promise) (Q : list promise) (lg : list obs)
      (v : value) (r : outcome) :
  A ++ B = operation Q -> joined n st x Q -> no_recovery r ->
  exists w',
    run (5 + (length Q + f)) [Http_reply 0 (Fulfilled v); Http_reply 0 r]
      (startup n st A (probe_waiter m x) B [x] [] lg) = Some w' /\
    (forall q, In q Q -> outcome_of w' q = Some (Fulfilled Undefined)) /\
    startPromise w' = None /\ process w' = Some h /\ ready w' = true /\
    log w' = lg ++ O_post (url "/boundary/cache") (JObj []) :: boundary_log r /\
    children w' = ch /\
    inflight w' = [] /\ timers w' = [] /\ waiters w' = [] /\ jobs w' = [].
Proof.
  intros HAB HJ Hr.
  pose proof (health_answered (1 + (length Q + f)) n st A B m x lg Q v HAB HJ) as R1.
  pose proof (boundary_answered (length Q + f) n _ Q
                (lg ++ [O_post (url "/boundary/cache") (JObj [])]) r Hr
                (joined_ensured n st x Q v HJ)) as R2.
  destruct (settling_settles f (S (S (S (S n))))
              ((p4, Fulfilled Undefined) :: (p1, Fulfilled Undefined) ::
               (n, Fulfilled Undefined) :: (S n, direct_result r) ::
               (S (S n), r) :: (S (S (S n)), r) ::
               (p2, Fulfilled Undefined) :: (x, Fulfilled v) :: st)
              (Fulfilled Undefined) true
              ((lg ++ [O_post (url "/boundary/cache") (JObj [])]) ++ boundary_log r) Q)
    as (w' & Hd & Hw').
  - apply (j_distinct _ _ _ _ HJ).
  - apply (joined_pending n st x Q
             [(p4, Fulfilled Undefined); (p1, Fulfilled Undefined);
              (n, Fulfilled Undefined); (S n, direct_result r);
              (S (S n), r); (S (S (S n)), r); (p2, Fulfilled Undefined);
              (x, Fulfilled v)] HJ).
    cbn. intuition lia.
  - exists w'. split.
    + rewrite run_cons.
      change (5 + (length Q + f)) with (4 + (1 + (length Q + f))) at 1.
      rewrite R1, run_cons, R2, Hd. reflexivity.
    + rewrite <- app_assoc in Hw'. exact Hw'.
Qed.

Lemma worker_never_answers (f : nat) (n : promise)
      (st : list (promise * outcome)) (A B : list waiter) (x : promise)
      (Q : list promise) (lg : list obs) (e : thrown) (c : nat) :
  A ++ B = operation Q -> joined n st x Q ->
  let F := 3 + (length Q + c + f) in
  let w := startup n st A (probe_waiter 0 x) B [x] [] lg in
  let evs := Http_reply 0 (Rejected e) :: calls c in
  exists w1 w2,
    run F evs w = Some w1 /\
    call_promises F evs w = seq (S n) c /\
    NoDup (Q ++ seq (S n) c) /\
    startPromise w1 = Some p4 /\ outcome_of w1 p4 = None /\
    (forall q, In q (Q ++ seq (S n) c) ->
               outcome_of w1 q = None /\ In (caller q) (waiters w1)) /\
    log w1 = lg ++ [O_setTimeout 500] /\ children w1 = ch /\ process w1 = Some h /\
    step F (Timer_fire 0) w1 = Some w2 /\
    (forall q, In q (Q ++ seq (S n) c) ->
               outcome_of w2 q = Some (Rejected startup_error)) /\
    startPromise w2 = None /\ process w2 = Some h /\ ready w2 = false /\
    log w2 = lg ++ [O_setTimeout 500] /\ children w2 = ch /\
    inflight w2 = [] /\ timers w2 = [] /\ waiters w2 = [] /\ jobs w2 = [].
Proof.
  intros HAB HJ F w evs. subst F w evs.
  assert (Fx : filter (awaits x) (A ++ B) = []).
  { rewrite HAB. destruct (j_x _ _ _ _ HJ) as (_ & X1 & X2 & X4 & _).
    apply operation_filters; assumption. }
  pose proof (probe_refused (2 + (length Q + c + f)) n st A B 0 x lg e
                (j_settled _ _ _ _ HJ) (proj1 (j_x _ _ _ _ HJ))
                (proj2 (proj2 (proj2 (proj2 (j_x _ _ _ _ HJ))))) Fx) as R1.
  pose proof (joined_next _ _ _ _ (Rejected e) HJ) as J1.
  pose proof (j_op _ _ _ _ J1) as (_ & _ & _ & P4).
  destruct (calls_join (2 + (length Q + c + f)) c (S n) ((x, Rejected e) :: st)
              (A ++ B) (sleep_waiter 0 n) [] [] [Cb_resolve n]
              (lg ++ [O_setTimeout 500]) P4) as [R2 C2].
  cbn [app] in R2.
  assert (HAB2 : (A ++ B) ++ map caller (seq (S n) c) = operation (Q ++ seq (S n) c)).
  { apply (operation_snoc (A ++ B) [] Q (seq (S n) c)). now rewrite app_nil_r. }
  pose proof (joined_calls c _ _ _ _ J1) as J2.
  pose proof (budget_spent (length (Q ++ seq (S n) c) + f) (c + S n)
                ((x, Rejected e) :: st) (A ++ B) (map caller (seq (S n) c)) n
                (lg ++ [O_setTimeout 500]) (Q ++ seq (S n) c) HAB2 J2) as R3.
  destruct (settling_settles f (c + S n)
              ((p4, Rejected startup_error) :: (p1, Rejected startup_error) ::
               (p2, Rejected startup_error) :: (n, Fulfilled Undefined) ::
               (x, Rejected e) :: st)
              (Rejected startup_error) false (lg ++ [O_setTimeout 500])
              (Q ++ seq (S n) c))
    as (w2 & Hd & Hw2).
  { apply (j_distinct _ _ _ _ J2). }
  { apply (joined_pending (c + S n) ((x, Rejected e) :: st) n (Q ++ seq (S n) c)
             [(p4, Rejected startup_error); (p1, Rejected startup_error);
              (p2, Rejected startup_error); (n, Fulfilled Undefined)] J2).
    cbn. intuition lia. }
  assert (EF : 3 + (length Q + c + f) = 3 + (length (Q ++ seq (S n) c) + f))
    by (rewrite length_app, length_seq; reflexivity).
  eexists; exists w2.
  split; [|split; [|split; [|split; [|split; [|split; [|split; [|split; [|split]]]]]]]].
  - rewrite run_cons.
    change (3 + (length Q + c + f)) with (S (2 + (length Q + c + f))).
    rewrite R1, R2. reflexivity.
  - cbn [call_promises app].
    change (3 + (length Q + c + f)) with (S (2 + (length Q + c + f))).
    rewrite R1. exact C2.
  - apply (j_distinct _ _ _ _ J2).
  - reflexivity.
  - apply (j_op _ _ _ _ J2).
  - intros q Hq. split.
    + apply (j_callers _ _ _ _ J2 q Hq).
    + apply (caller_waits (A ++ B) (map caller (seq (S n) c)) (sleep_waiter 0 n)
               (Q ++ seq (S n) c) q HAB2 Hq).
  - reflexivity.
  - reflexivity.
  - reflexivity.
  - rewrite EF, R3, Hd. split; [reflexivity | exact Hw2].
Qed.

End Joining.

(** *** From an idle manager *)

(** [Idle]: no worker process is held, the manager is not ready, no start
    is in flight, and nothing is pending. *)
Record idle (w : world) : Prop := {
  idle_process : process w = None;
  idle_ready : ready w = false;
  idle_startPromise : startPromise w = None;
  idle_settled : Forall (fun x => fst x < next_promise w) (settled w);
  idle_quiet : waiters w = [] /\ jobs w = [] /\ inflight w = [] /\ timers w = []
}.

(** The manager that the first call of [start()] leaves behind: it has
    spawned a worker and waits for its first health probe. *)
Definition started (w0 : world) : world :=
  let b := next_promise w0 in
  startup (4 + b) (length (children w0)) (quitting w0)
    (children w0 ++ [still_running]) (kill_throws w0)
    (5 + b) (settled w0) [] (probe_waiter (2 + b) 59 (3 + b))
    (operation (1 + b) (2 + b) (4 + b) [b]) [3 + b] []
    ((log w0 ++ [O_spawn (length (children w0))]) ++ [O_get (url "/health")]).

Lemma first_call (f : nat) (w0 : world) :
  idle w0 -> step (3 + f) (App_call M_start) w0 = Some (started w0).
Proof.
  intros [Hp Hr Hsp Hst (Hw & Hj & Hi & Ht)].
  destruct w0 as [pr rd sp qt b st ws js ch inf tm kt lg]; cbn in *; subst.
  unfold step, handle_event, started. cbn [alloc]. norm_world.
  change (3 + f) with (S (S (S f))).
  unfold body, start. run_do.
  rewrite exec_Call. cbn [alloc body]. unfold spawnWorker. run_do.
  unfold add_listener. norm_world. rewrite update_last.
  rewrite exec_Call. cbn [alloc body]. unfold waitForReady.
  rewrite waitForReady_loop_S. run_do. rewrite exec_Await.
  unfold suspend at 1, outcome_of. norm_world. pending b. cbv iota. norm_world.
  unfold await, finally. rewrite exec_Await.
  unfold suspend at 1, outcome_of. norm_world. pending b. cbv iota. norm_world.
  rewrite exec_Async. cbn [alloc]. rewrite exec_Await.
  unfold suspend at 1, outcome_of. norm_world. pending b. cbv iota. norm_world.
  run_do. rewrite exec_Await.
  unfold suspend at 1, outcome_of. norm_world. pending b. cbv iota. norm_world.
  rewrite drain_nil by reflexivity.
  reflexivity.
Qed.

Lemma first_joined (w0 : world) :
  idle w0 ->
  let b := next_promise w0 in
  joined (1 + b) (2 + b) (4 + b) (5 + b) (settled w0) (3 + b) [b].
Proof.
  intros [_ _ _ Hst _] b. subst b. split.
  - eapply Forall_impl; [|exact Hst]. cbn. intros; lia.
  - split; [lia|].
    rewrite !(lookup_fresh (next_promise w0)) by (assumption || lia). auto.
  - repeat split; try lia.
    apply (lookup_fresh (next_promise w0)); [assumption | lia].
  - repeat constructor. cbn. tauto.
  - intros q [<- | []]. repeat split; try lia.
    apply (lookup_fresh (next_promise w0)); [assumption | lia].
Qed.

(** The run up to the moment the worker answers or the budget is spent:
    the first call, [k] refused probes with calls in between, and [c]
    more calls while the next probe is pending. *)
Definition joining (k : nat) (gaps : nat -> nat) (errors : nat -> thrown) (c : nat)
  : list event :=
  App_call M_start :: refused_rounds k gaps errors ++ calls c.

Section FromIdle.

Variable w0 : world.
Hypothesis w0_idle : idle w0.

Local Abbreviation b := (next_promise w0).
Local Abbreviation h := (length (children w0)).
Local Abbreviation ch := (children w0 ++ [still_running]).

Lemma ids_distinct : 1 + b <> 2 + b /\ 1 + b <> 4 + b /\ 2 + b <> 4 + b.
Proof. lia. Qed.

Lemma joining_run (f : nat) (k m : nat) (gaps : nat -> nat)
      (errors : nat -> thrown) (c : nat) :
  k + m = 59 ->
  exists n st A B x Q,
    let F := 3 + f in
    let w := startup (4 + b) h (quitting w0) ch (kill_throws w0)
               n st A (probe_waiter (2 + b) m x) B [x] []
               (log w0 ++ O_spawn h :: probes k ++ [O_get (url "/health")]) in
    run F (joining k gaps errors c) w0 = Some w /\
    call_promises F (joining k gaps errors c) w0 = Q /\
    length Q = 1 + joins k gaps + c /\
    A ++ B = operation (1 + b) (2 + b) (4 + b) Q /\
    joined (1 + b) (2 + b) (4 + b) n st x Q.
Proof.
  intros Hk. unfold joining.
  destruct (rounds_run (1 + b) (2 + b) (4 + b) h (quitting w0) ch (kill_throws w0)
              ids_distinct
              (2 + f) k m gaps errors (calls c) (5 + b) (settled w0) []
              (operation (1 + b) (2 + b) (4 + b) [b]) (3 + b) [b]
              ((log w0 ++ [O_spawn h]) ++ [O_get (url "/health")])
              eq_refl (first_joined w0 w0_idle))
    as (n1 & st1 & A1 & B1 & x1 & Q1 & R1 & C1 & L1 & HAB1 & J1).
  cbv zeta in R1, C1. rewrite Hk in R1, C1.
  pose proof (j_op _ _ _ _ _ _ _ J1) as (_ & _ & _ & P4).
  destruct (calls_join (1 + b) (2 + b) (4 + b) h (quitting w0) ch (kill_throws w0)
              ids_distinct
              (2 + f) c n1 st1 A1 (probe_waiter (2 + b) m x1) B1 [x1] []
              (((log w0 ++ [O_spawn h]) ++ [O_get (url "/health")]) ++ retries k) P4)
    as [R2 C2].
  exists (c + n1), st1, A1, (B1 ++ map (caller (4 + b)) (seq n1 c)), x1,
         (b :: Q1 ++ seq n1 c).
  cbv zeta. change (3 + f) with (S (2 + f)).
  split; [|split; [|split; [|split]]].
  - rewrite run_cons. change (S (2 + f)) with (3 + f) at 1.
    rewrite (first_call f w0 w0_idle).
    etransitivity; [exact R1|]. rewrite R2.
    rewrite <- !app_assoc. cbn [app]. rewrite probes_retries. reflexivity.
  - cbn [call_promises]. change (S (2 + f)) with (3 + f) at 1.
    rewrite (first_call f w0 w0_idle). cbn [app]. f_equal.
    etransitivity; [exact C1|]. rewrite C2. reflexivity.
  - cbn [length]. rewrite length_app, L1, length_seq. lia.
  - rewrite (operation_snoc (1 + b) (2 + b) (4 + b) h (quitting w0) ch (kill_throws w0)
               ids_distinct _ _ _ (seq n1 c) HAB1). reflexivity.
  - apply (joined_calls (1 + b) (2 + b) (4 + b) h (quitting w0) ch (kill_throws w0)
             ids_distinct c n1 st1 x1 ([b] ++ Q1) J1).
Qed.

End FromIdle.

(** C1 (amended). Calls of [start()] on an idle manager, as many as one
    likes and whenever they come while [waitForReady] probes or sleeps:
    the call that begins the operation, [gaps i] calls during each of the
    [k] refused probes and the sleeps after them, and [c] and [c'] calls
    during the last probe and the last sleep.  As long as the worker does
    not exit and the boundary-cache call does not fail with a transient
    error: one worker is spawned; [startPromise] is one promise [p] until
    the operation ends, and every call is suspended on it; and all calls
    settle with the result of that operation: fulfilled when the worker
    answers a probe within the 60 attempts, whether the boundary-cache
    call then succeeds or not, rejected with the startup error when it
    answers none. *)
Theorem starts_share_one_operation
        (w0 : world) (gaps : nat -> nat) (errors : nat -> thrown) (f : nat) :
  idle w0 ->
  let p := 4 + next_promise w0 in
  let h := length (children w0) in
  (forall (k c : nat) (v : value) (r : outcome),
      k < 60 -> no_recovery r ->
      let evs := joining k gaps errors c in
      let F := 5 + (1 + joins k gaps + c) + f in
      exists w1 w2,
        run F evs w0 = Some w1 /\
        length (call_promises F evs w0) = 1 + joins k gaps + c /\
        NoDup (call_promises F evs w0) /\
        startPromise w1 = Some p /\ outcome_of w1 p = None /\
        (forall q, In q (call_promises F evs w0) ->
                   outcome_of w1 q = None /\ In (caller p q) (waiters w1)) /\
        log w1 = log w0 ++ O_spawn h :: probes k ++ [O_get (url "/health")] /\
        children w1 = children w0 ++ [still_running] /\ process w1 = Some h /\
        run F [Http_reply 0 (Fulfilled v); Http_reply 0 r] w1 = Some w2 /\
        (forall q, In q (call_promises F evs w0) ->
                   outcome_of w2 q = Some (Fulfilled Undefined)) /\
        startPromise w2 = None /\ process w2 = Some h /\ ready w2 = true /\
        log w2 = log w1 ++ O_post (url "/boundary/cache") (JObj []) :: boundary_log r /\
        children w2 = children w1) /\
  (forall (c c' : nat),
      let evs := joining 59 gaps errors c ++
                 Http_reply 0 (Rejected (errors 59)) :: calls c' in
      let F := 5 + (1 + joins 59 gaps + c + c') + f in
      exists w1 w2,
        run F evs w0 = Some w1 /\
        length (call_promises F evs w0) = 1 + joins 59 gaps + c + c' /\
        NoDup (call_promises F evs w0) /\
        startPromise w1 = Some p /\ outcome_of w1 p = None /\
        (forall q, In q (call_promises F evs w0) ->
                   outcome_of w1 q = None /\ In (caller p q) (waiters w1)) /\
        log w1 = log w0 ++ O_spawn h :: probes 60 /\
        children w1 = children w0 ++ [still_running] /\ process w1 = Some h /\
        step F (Timer_fire 0) w1 = Some w2 /\
        (forall q, In q (call_promises F evs w0) ->
                   outcome_of w2 q = Some (Rejected startup_error)) /\
        startPromise w2 = None /\ process w2 = Some h /\ ready w2 = false /\
        log w2 = log w1 /\ children w2 = children w1).
Proof.
  intros Hidle p h. subst p h. split.
  - intros k c v r Hk Hr evs F. subst evs F.
    set (N := 1 + joins k gaps + c).
    destruct (joining_run w0 Hidle (2 + N + f) k (59 - k) gaps errors c)
      as (n & st & A & B & x & Q & R & C & L & HAB & J); [lia|].
    cbv zeta in R, C.
    change (3 + (2 + N + f)) with (5 + N + f) in R, C.
    destruct (worker_comes_up _ _ _ (length (children w0)) (quitting w0)
                (children w0 ++ [still_running]) (kill_throws w0)
                (ids_distinct w0) f n st A B (59 - k) x Q
                (log w0 ++ O_spawn (length (children w0)) :: probes k ++
                 [O_get (url "/health")]) v r HAB J Hr)
      as (w2 & R2 & Hall & Hsp & Hp & Hrd & Hlg & Hch & _).
    replace (5 + (length Q + f)) with (5 + N + f) in R2 by (rewrite L; lia).
    eexists; exists w2. rewrite R, C.
    split; [reflexivity|]. split; [exact L|].
    split; [apply (j_distinct _ _ _ _ _ _ _ J)|].
    split; [reflexivity|].
    split; [apply (j_op _ _ _ _ _ _ _ J)|].
    split.
    { intros q Hq. split; [apply (j_callers _ _ _ _ _ _ _ J q Hq)|].
      apply (caller_waits _ _ _ (length (children w0)) (quitting w0)
               (children w0 ++ [still_running]) (kill_throws w0)
               (ids_distinct w0) A B _ Q q HAB Hq). }
    split; [reflexivity|]. split; [reflexivity|]. split; [reflexivity|].
    split; [exact R2|]. split; [exact Hall|].
    rewrite Hsp, Hp, Hrd, Hlg, Hch. auto.
  - intros c c' evs F. subst evs F.
    set (N := 1 + joins 59 gaps + c + c').
    destruct (joining_run w0 Hidle (2 + N + f) 59 0 gaps errors c)
      as (n & st & A & B & x & Q & R & C & L & HAB & J); [lia|].
    cbv zeta in R, C.
    change (3 + (2 + N + f)) with (5 + N + f) in R, C.
    destruct (worker_never_answers _ _ _ (length (children w0)) (quitting w0)
                (children w0 ++ [still_running]) (kill_throws w0)
                (ids_distinct w0) (2 + f) n st A B x Q
                (log w0 ++ O_spawn (length (children w0)) :: probes 59 ++
                 [O_get (url "/health")]) (errors 59) c' HAB J)
      as (w1 & w2 & R1 & C1 & ND & Hsp1 & Ho1 & Hw1 & Hlg1 & Hch1 & Hp1 & R2 & Hall &
          Hsp & Hp & Hrd & Hlg & Hch & _).
    replace (3 + (length Q + c' + (2 + f))) with (5 + N + f) in R1, C1, R2
      by (rewrite L; subst N; lia).
    exists w1, w2.
    rewrite (run_app _ _ _ _), R, R1.
    rewrite (call_promises_app _ _ _ _ _ R), C, C1.
    split; [reflexivity|].
    split; [rewrite length_app, L, length_seq; subst N; lia|].
    split; [exact ND|]. split; [exact Hsp1|]. split; [exact Ho1|].
    split; [exact Hw1|].
    split; [rewrite Hlg1, <- app_assoc; cbn [app]; rewrite <- app_assoc, probes_snoc;
            reflexivity|].
    split; [exact Hch1|]. split; [exact Hp1|].
    split; [exact R2|]. split; [exact Hall|].
    rewrite Hsp, Hp, Hrd, Hlg, Hch, Hlg1, Hch1. auto.
Qed.

Definition two_early_one_late (i : nat) : nat :=
  match i with 0 => 1 | 1 => 1 | _ => 0 end.

Lemma starts_share_one_operation_witness :
  exists w1 w2,
    run 9 [App_call M_start; App_call M_start; Http_reply 0 (Rejected refused);
           App_call M_start; Timer_fire 0; App_call M_start] (idle_world false)
    = Some w1 /\
    run 9 [Http_reply 0 (ok health_body); Http_reply 0 (ok (JObj []))] w1 = Some w2 /\
    outcome_of w2 0 = Some (Fulfilled Undefined) /\
    outcome_of w2 5 = Some (Fulfilled Undefined) /\
    outcome_of w2 7 = Some (Fulfilled Undefined) /\
    outcome_of w2 9 = Some (Fulfilled Undefined) /\
    log w2 = [O_spawn 0; O_get (url "/health"); O_setTimeout 500;
              O_get (url "/health"); O_post (url "/boundary/cache") (JObj [])].
Proof.
  assert (Hi : idle (idle_world false)) by (split; cbn; auto).
  destruct (proj1 (starts_share_one_operation (idle_world false) two_early_one_late
                     (fun _ => refused) 0 Hi)
              1 1 (Data health_body) (ok (JObj [])) ltac:(lia) I)
    as (w1 & w2 & R1 & _ & _ & _ & _ & _ & L1 & _ & _ & R2 & Hall & _ & _ & _ & L2 & _).
  exists w1, w2.
  split; [exact R1|]. split; [exact R2|].
  split; [apply Hall; vm_compute; auto|].
  split; [apply Hall; vm_compute; auto|].
  split; [apply Hall; vm_compute; auto|].
  split; [apply Hall; vm_compute; auto|].
  rewrite L2, L1. reflexivity.
Defined.

(** Three callers, start to end: the worker comes up, or never answers. *)
Example three_callers_succeed :
  exists w,
    run fuel [App_call M_start; App_call M_start; App_call M_start;
              Http_reply 0 (ok health_body); Http_reply 0 (ok (JObj []))]
      (idle_world false) = Some w /\
    outcome_of w 0 = Some (Fulfilled Undefined) /\
    outcome_of w 5 = Some (Fulfilled Undefined) /\
    outcome_of w 6 = Some (Fulfilled Undefined) /\
    log w = [O_spawn 0; O_get (url "/health");
             O_post (url "/boundary/cache") (JObj [])].
Proof.
  eexists; split; [vm_compute; reflexivity|]. vm_compute. auto.
Qed.

Example three_callers_time_out :
  exists w,
    run fuel (App_call M_start :: App_call M_start :: App_call M_start ::
              rounds 0 (fun _ => refused) 60)
      (idle_world false) = Some w /\
    outcome_of w 0 = Some (Rejected startup_error) /\
    outcome_of w 5 = Some (Rejected startup_error) /\
    outcome_of w 6 = Some (Rejected startup_error) /\
    log w = O_spawn 0 :: probes 60.
Proof.
  eexists; split; [vm_compute; reflexivity|]. vm_compute. auto.
Qed.

End SingleFlight.

(** ** Further properties of the manager *)

Section Forwarding.

(** X1. [normalizeError] hands back a plain [Error] or the error it was given,
    and normalising a second time changes nothing. *)
Theorem normalizeError_settles (e : thrown) :
  (normalizeError e = e \/ exists m, normalizeError e = Error m) /\
  normalizeError (normalizeError e) = normalizeError e.
Proof.
  destruct e as [[[st d]|] code | m | v]; cbn [normalizeError data].
  - destruct (truthy d) eqn:Hd.
    + destruct d; split; eauto.
    + destruct (code_is_transient code) eqn:Hc; split; eauto.
      cbn [normalizeError data]. now rewrite Hd, Hc.
  - destruct (code_is_transient code) eqn:Hc; split; eauto.
    cbn [normalizeError]. now rewrite Hc.
  - split; eauto.
  - split; eauto.
Qed.

Definition unavailable : thrown :=
  Error (Lit "Python worker is unavailable. Please try again.").

(** What [request] throws for an axios error it does not retry: the
    response body when there is one, the axios error itself otherwise. *)
Definition forwarded (response : option AxiosResponse) (code : option string) : thrown :=
  match response with
  | Some r =>
      if truthy (data r) then Error (content (data r)) else AxiosError response code
  | None => AxiosError response code
  end.

(** X2. [request] normalises an error only when [shouldAttemptRecovery] has
    answered false, and then the error code is not a transient one: the
    branch of [normalizeError] that reports the worker as unavailable is
    never the one taken. *)
Theorem unretried_error_is_never_unavailable
        (response : option AxiosResponse) (code : option string) :
  shouldAttemptRecovery (AxiosError response code) = false ->
  code_is_transient code = false /\
  normalizeError (AxiosError response code) = forwarded response code.
Proof.
  intros H. cbn [shouldAttemptRecovery] in H.
  assert (code_is_transient code = false) as Hc.
  { destruct response as [r|].
    - destruct (500 <=? status r)%Z; [discriminate|].
      destruct (code_is_transient code); [discriminate | reflexivity].
    - destruct (code_is_transient code); [discriminate | reflexivity]. }
  split; [exact Hc|].
  unfold forwarded. cbn [normalizeError]. rewrite Hc.
  destruct response as [[st d]|]; [|reflexivity].
  cbn [data]. destruct (truthy d); [destruct d|]; reflexivity.
Qed.

Lemma unretried_error_is_never_unavailable_witness :
  code_is_transient (Some "ERR_NETWORK") = false /\
  normalizeError (AxiosError None (Some "ERR_NETWORK")) =
  AxiosError None (Some "ERR_NETWORK").
Proof.
  apply (unretried_error_is_never_unavailable None (Some "ERR_NETWORK")).
  reflexivity.
Defined.

End Forwarding.

Section LazyStart.

Definition boundary_failure_logged : list obs :=
  [O_spawn 0; O_get (url "/health"); O_post (url "/boundary/cache") (JObj []);
   O_console_error "Failed to ensure boundary cache"].

(** X3. The boundary-cache call at the end of [spawnWorker] fails with an
    error that is not retried: [ensureBoundary] logs it and [start()] is
    fulfilled, with the worker ready. *)
Theorem boundary_failure_does_not_fail_start
        (kill_fails : bool) (dh : json) (e : thrown) :
  shouldAttemptRecovery e = false ->
  exists w,
    run fuel [App_call M_start; Http_reply 0 (ok dh); Http_reply 0 (Rejected e)]
      (idle_world kill_fails) = Some w /\
    outcome_of w 0 = Some (Fulfilled Undefined) /\
    ready w = true /\ process w = Some 0 /\ startPromise w = None /\
    log w = boundary_failure_logged.
Proof.
  intros He. eexists; split.
  - rewrite run_cons. compute_step. rewrite run_cons. compute_step.
    classify_with e He. vm_compute. reflexivity.
  - vm_compute. auto 10.
Qed.

Lemma boundary_failure_does_not_fail_start_witness :
  exists w,
    run fuel [App_call M_start; Http_reply 0 (ok health_body);
              Http_reply 0 (Rejected (bad_request unknown_token))]
      (idle_world false) = Some w /\
    outcome_of w 0 = Some (Fulfilled Undefined) /\
    ready w = true /\ process w = Some 0 /\ startPromise w = None /\
    log w = boundary_failure_logged.
Proof.
  apply (boundary_failure_does_not_fail_start false health_body
           (bad_request unknown_token)).
  reflexivity.
Defined.


(** X4. The boundary-cache call fails with a transient error and the worker
    respawned by the restart never answers: the startup error of the
    restart is swallowed by [ensureBoundary] as well, so the [start()]
    that was in progress is fulfilled although no worker is ready. *)
Theorem start_is_fulfilled_after_failed_restart
        (dh : json) (e : thrown) (errors : nat -> thrown) (evs : list event) :
  shouldAttemptRecovery e = true ->
  never_healthy errors evs ->
  exists w,
    run fuel (App_call M_start :: Http_reply 0 (ok dh) ::
              Http_reply 0 (Rejected e) :: evs) (idle_world false) = Some w /\
    outcome_of w 0 = Some (Fulfilled Undefined) /\
    ready w = false /\ startPromise w = None /\
    log w = [O_spawn 0; O_get (url "/health");
             O_post (url "/boundary/cache") (JObj []);
             O_kill 0; O_setTimeout 2000; O_spawn 1] ++
            probes 60 ++
            [O_console_error "Failed to ensure boundary cache"].
Proof.
  intros He Hevs.
  rewrite run_cons. compute_step. rewrite run_cons. compute_step.
  classify_with e He. finish_turn.
  destruct Hevs as [(code & j & Hj & ->) | ->].
  - do 5 (destruct j as [|j];
          [eexists; split; [vm_compute; reflexivity | vm_compute; auto 10]|]).
    lia.
  - eexists; split; [vm_compute; reflexivity | vm_compute; auto 10].
Qed.

Lemma start_is_fulfilled_after_failed_restart_witness :
  exists w,
    run fuel (App_call M_start :: Http_reply 0 (ok health_body) ::
              Http_reply 0 (Rejected server_error) ::
              Timer_fire 0 :: rounds 0 (fun _ => refused) 60)
      (idle_world false) = Some w /\
    outcome_of w 0 = Some (Fulfilled Undefined) /\
    ready w = false /\ process w = Some 1.
Proof.
  destruct (start_is_fulfilled_after_failed_restart health_body server_error
              (fun _ => refused) (Timer_fire 0 :: rounds 0 (fun _ => refused) 60))
    as (w & Hrun & Hout & Hr & _).
  - reflexivity.
  - right. reflexivity.
  - exists w. rewrite Hrun. split; [reflexivity|]. split; [exact Hout|].
    split; [exact Hr|].
    vm_compute in Hrun. injection Hrun as <-. reflexivity.
Defined.



(** X6. A request on a manager that holds no worker process (the idle state
    of a fresh manager), whose new worker never answers the health probes:
    the request is rejected with the startup error as [start()] threw it,
    and the endpoint is not called.  The manager is left not ready, with
    the handle of the worker that never answered and no start in
    flight. *)
Theorem request_fails_when_start_fails
        (kill_fails : bool) (endpoint : string) (payload : option json)
        (errors : nat -> thrown) :
  exists w,
    run fuel (App_call (M_request endpoint payload) :: rounds 0 errors 60)
      (idle_world kill_fails) = Some w /\
    outcome_of w 0 = Some (Rejected startup_error) /\
    ready w = false /\ inflight w = [] /\
    log w = O_spawn 0 :: probes 60 /\
    process w = Some 0 /\ startPromise w = None /\ length (children w) = 1.
Proof.
  destruct payload;
    (eexists; split; [vm_compute; reflexivity | vm_compute; auto 10]).
Qed.


End LazyStart.

Section WorkerExit.


(** X8. The worker dies while the manager is [Ready]: the exit handler clears
    the handle and the ready flag, and the next request spawns a new
    worker and waits for it before its bridge call. *)
Theorem request_after_crash_respawns
        (kill_fails : bool) (code : option Z) (endpoint : string)
        (payload : option json) (dh db : json) (r : outcome) :
  no_recovery r ->
  let w0 := ready_world kill_fails in
  exists w1 w2,
    step fuel (Proc_exit 0 code) w0 = Some w1 /\
    process w1 = None /\ ready w1 = false /\ log w1 = log w0 /\
    run fuel [App_call (M_request endpoint payload);
              Http_reply 0 (ok dh); Http_reply 0 (ok db); Http_reply 0 r] w1 = Some w2 /\
    outcome_of w2 (next_promise w0) = Some (direct_result r) /\
    process w2 = Some 1 /\ ready w2 = true /\
    log w2 = log w0 ++
             [O_spawn 1; O_get (url "/health");
              O_post (url "/boundary/cache") (JObj []);
              bridge_call endpoint payload].
Proof.
  intros Hr w0; subst w0.
  destruct payload as [b|], r as [v|e]; cbn in Hr;
    (eexists; eexists; split; [vm_compute; reflexivity|]);
    (do 3 (split; [reflexivity|])).
  1, 3: split; [vm_compute; reflexivity | vm_compute; auto 10].
  - split.
    + do 3 (rewrite run_cons; compute_step).
      classify_with e Hr. vm_compute. reflexivity.
    + vm_compute. auto 10.
  - split.
    + do 3 (rewrite run_cons; compute_step).
      classify_with e Hr. vm_compute. reflexivity.
    + vm_compute. auto 10.
Qed.

Lemma request_after_crash_respawns_witness :
  exists w2,
    run fuel [Proc_exit 0 (Some 1%Z);
              App_call (M_request "/health" None);
              Http_reply 0 (ok health_body); Http_reply 0 (ok (JObj []));
              Http_reply 0 (ok health_body)] (ready_world false) = Some w2 /\
    outcome_of w2 9 = Some (ok health_body) /\
    process w2 = Some 1 /\ ready w2 = true.
Proof.
  destruct (request_after_crash_respawns false (Some 1%Z) "/health" None
              health_body (JObj []) (ok health_body) I)
    as (w1 & w2 & Hs & _ & _ & _ & Hrun & Hout & Hp & Hr & _).
  exists w2. rewrite run_cons, Hs. auto.
Defined.

(** X9. The timer that [stop()] arms is not cancelled when the worker confirms
    its exit. After a restart that took less than two seconds the timer
    fires on the manager of the new worker: it clears the handle and the
    ready flag while child 1 is running, and the next request spawns a
    third process beside it. *)
Theorem stale_stop_timer_disowns_new_worker
        (endpoint : string) (payload : option json) (e : thrown)
        (code : option Z) (dh db : json) (r2 : outcome)
        (endpoint' : string) (payload' : option json) :
  shouldAttemptRecovery e = true ->
  exists w1 w2 w3,
    run fuel [App_call (M_request endpoint payload); Http_reply 0 (Rejected e);
              Proc_exit 0 code;
              Http_reply 0 (ok dh); Http_reply 0 (ok db); Http_reply 0 r2]
      (ready_world false) = Some w1 /\
    process w1 = Some 1 /\ ready w1 = true /\ timers w1 = [Cb_cleanup 0 14] /\
    step fuel (Timer_fire 0) w1 = Some w2 /\
    process w2 = None /\ ready w2 = false /\
    nth_error (children w2) 1 = Some still_running /\
    step fuel (App_call (M_request endpoint' payload')) w2 = Some w3 /\
    log w3 = log w1 ++ [O_spawn 2; O_get (url "/health")] /\
    nth_error (children w3) 1 = Some still_running /\
    process w3 = Some 2.
Proof.
  intros He.
  rewrite (run_two _ _ _ _ _ _ (transient_failure_restarts endpoint payload e He)).
  destruct payload, payload', r2;
    (eexists; eexists; eexists; in_order).
Qed.

Lemma stale_stop_timer_disowns_new_worker_witness :
  exists w1 w2,
    run fuel [App_call (M_request "/grid/build" None); Http_reply 0 (Rejected refused);
              Proc_exit 0 None;
              Http_reply 0 (ok health_body); Http_reply 0 (ok (JObj []));
              Http_reply 0 (ok JNull)]
      (ready_world false) = Some w1 /\
    process w1 = Some 1 /\ ready w1 = true /\
    step fuel (Timer_fire 0) w1 = Some w2 /\
    process w2 = None /\ ready w2 = false.
Proof.
  destruct (stale_stop_timer_disowns_new_worker "/grid/build" None refused None
              health_body (JObj []) (ok JNull) "/grid/build" None eq_refl)
    as (w1 & w2 & w3 & H1 & H2 & H3 & _ & H4 & H5 & H6 & _).
  exists w1, w2. auto 10.
Defined.

(** X10. The application quits while the worker is starting and the worker
    exits: with [quitting] set the exit handler leaves [startPromise] in
    place, so a [start()] made afterwards joins the operation in flight
    and spawns nothing.  Without the quit the same exit clears
    [startPromise] and that [start()] spawns a second worker. *)
Theorem no_respawn_while_quitting (kill_fails : bool) (code : option Z) :
  let w0 := starting_world kill_fails in
  (exists w1 w2,
      run fuel [Before_quit; Proc_exit 0 code] w0 = Some w1 /\
      quitting w1 = true /\ process w1 = None /\
      startPromise w1 = startPromise w0 /\
      step fuel (App_call M_start) w1 = Some w2 /\
      outcome_of w2 (next_promise w1) = None /\
      log w2 = log w1 /\ children w2 = children w1 /\
      process w2 = None /\ startPromise w2 = startPromise w0) /\
  (exists w1 w2,
      step fuel (Proc_exit 0 code) w0 = Some w1 /\
      quitting w1 = false /\ process w1 = None /\ startPromise w1 = None /\
      step fuel (App_call M_start) w1 = Some w2 /\
      log w2 = log w1 ++ [O_spawn 1; O_get (url "/health")] /\
      process w2 = Some 1).
Proof.
  intros w0; subst w0.
  split; destruct kill_fails; (eexists; eexists; in_order).
Qed.

(** X11. Two requests are in flight when the worker fails and both get a
    transient error; what the second restart does depends on whether the
    exit of the old worker has been seen when the second error arrives.
    When both errors arrive before the exit, both calls of [stop()] signal
    the old worker; after its exit the second [restartWorker] clears the
    [startPromise] that the first has just set, its [start()] finds the
    new process handle and returns at once, and its retry goes out while
    the new worker is still being probed; the result of that retry reaches
    the caller as it is.  When the exit is seen before the second error,
    between the two errors or before both, the first restart has already
    spawned the new worker, and the [stop()] of the second restart
    signals that new worker: no retry has been sent, and both requests
    wait. *)
Theorem concurrent_restarts_retry_before_ready
        (ea eb : string) (pa pb : option json) (e1 e2 : thrown)
        (code : option Z) (r : outcome) :
  shouldAttemptRecovery e1 = true ->
  shouldAttemptRecovery e2 = true ->
  let w0 := ready_world false in
  (exists w1 w2,
    run fuel [App_call (M_request ea pa); App_call (M_request eb pb);
              Http_reply 0 (Rejected e1); Http_reply 0 (Rejected e2);
              Proc_exit 0 code] w0 = Some w1 /\
    log w1 = log w0 ++
             [bridge_call ea pa; bridge_call eb pb;
              O_kill 0; O_setTimeout 2000; O_kill 0; O_setTimeout 2000;
              O_spawn 1; O_get (url "/health"); bridge_call eb pb] /\
    ready w1 = false /\ startPromise w1 = None /\
    length (inflight w1) = 2 /\
    outcome_of w1 9 = None /\ outcome_of w1 12 = None /\
    step fuel (Http_reply 1 r) w1 = Some w2 /\
    outcome_of w2 12 = Some r /\ outcome_of w2 9 = None /\
    ready w2 = false /\ log w2 = log w1) /\
  (exists w1,
    run fuel [App_call (M_request ea pa); App_call (M_request eb pb);
              Http_reply 0 (Rejected e1); Proc_exit 0 code;
              Http_reply 0 (Rejected e2)] w0 = Some w1 /\
    log w1 = log w0 ++
             [bridge_call ea pa; bridge_call eb pb;
              O_kill 0; O_setTimeout 2000;
              O_spawn 1; O_get (url "/health");
              O_kill 1; O_setTimeout 2000] /\
    process w1 = Some 1 /\ ready w1 = false /\
    length (inflight w1) = 1 /\ length (children w1) = 2 /\
    outcome_of w1 9 = None /\ outcome_of w1 12 = None) /\
  (exists w1,
    run fuel [App_call (M_request ea pa); App_call (M_request eb pb);
              Proc_exit 0 code;
              Http_reply 0 (Rejected e1); Http_reply 0 (Rejected e2)] w0 = Some w1 /\
    log w1 = log w0 ++
             [bridge_call ea pa; bridge_call eb pb;
              O_spawn 1; O_get (url "/health");
              O_kill 1; O_setTimeout 2000] /\
    process w1 = Some 1 /\ ready w1 = false /\
    length (inflight w1) = 1 /\ length (children w1) = 2 /\
    outcome_of w1 9 = None /\ outcome_of w1 12 = None).
Proof.
  intros H1 H2 w0; subst w0. split; [|split].
  - destruct pa as [ba|], pb as [bb|], r as [v|e];
      (eexists; eexists; split;
       [ do 2 (rewrite run_cons; compute_step);
         classify_with e1 H1; finish_turn;
         classify_with e2 H2; finish_turn;
         vm_compute; reflexivity
       | in_order ]).
  - destruct pa as [ba|], pb as [bb|];
      (eexists; split;
       [ do 2 (rewrite run_cons; compute_step);
         classify_with e1 H1; finish_turn;
         rewrite run_cons; compute_step;
         classify_with e2 H2; finish_turn;
         reflexivity
       | in_order ]).
  - destruct pa as [ba|], pb as [bb|];
      (eexists; split;
       [ do 3 (rewrite run_cons; compute_step);
         classify_with e1 H1; finish_turn;
         classify_with e2 H2; finish_turn;
         reflexivity
       | in_order ]).
Qed.

Lemma concurrent_restarts_retry_before_ready_witness :
  exists w1 w2,
    run fuel [App_call (M_request "/grid/build" None);
              App_call (M_request "/mission/compile" None);
              Http_reply 0 (Rejected refused); Http_reply 0 (Rejected refused);
              Proc_exit 0 None] (ready_world false) = Some w1 /\
    ready w1 = false /\
    step fuel (Http_reply 1 (Rejected refused)) w1 = Some w2 /\
    outcome_of w2 12 = Some (Rejected refused).
Proof.
  destruct (concurrent_restarts_retry_before_ready "/grid/build" "/mission/compile"
              None None refused refused None (Rejected refused) eq_refl eq_refl)
    as [(w1 & w2 & Hrun & _ & Hr & _ & _ & _ & _ & Hs & Ho & _) _].
  exists w1, w2. auto.
Defined.

End WorkerExit.

(** ** An invariant of every run *)

Section Invariant.

(** Statements that leave the process handle and the list of children
    alone, or only attach listeners. *)
Definition plain {X : Type} (a : action X) : Prop :=
  match a with
  | Spawn => False
  | Set_process (Some _) => False
  | _ => True
  end.

(** The shape of every method body: the handle is set only to a process
    spawned the statement before, and the exit handler is attached the
    statement after. *)
Inductive safe : prog -> Prop :=
| safe_Return (v : value) : safe (Return v)
| safe_Throw (e : thrown) : safe (Throw e)
| safe_Do (X : Type) (a : action X) (k : X -> prog) :
    plain a -> (forall x, safe (k x)) -> safe (Do a k)
| safe_Spawn (k : handle -> prog) :
    (forall h, safe (k h)) ->
    safe (Do Spawn (fun h =>
          Do (Set_process (Some h)) (fun _ =>
          Do (On_exit h Cb_process_exit) (fun _ => k h))))
| safe_Async (b : prog) (k : promise -> prog) :
    safe b -> (forall q, safe (k q)) -> safe (Async b k)
| safe_Call (m : method) (k : promise -> prog) :
    (forall q, safe (k q)) -> safe (Call m k)
| safe_Await (p : promise) (k : outcome -> prog) :
    (forall o, safe (k o)) -> safe (Await p k).

Ltac safe_step :=
  first
    [ apply safe_Return
    | apply safe_Throw
    | apply safe_Spawn; intros
    | apply safe_Do; [exact I | intros]
    | apply safe_Async; [|intros]
    | apply safe_Call; intros
    | apply safe_Await; intros
    | match goal with
      | |- safe (match ?x with _ => _ end) => destruct x
      | |- safe (if ?x then _ else _) => destruct x
      end ].

Lemma waitForReady_loop_safe (n : nat) : safe (waitForReady_loop n).
Proof.
  induction n as [|n IH].
  - apply safe_Throw.
  - change (waitForReady_loop (S n))
      with (Do (Axios_get (url "/health")) (fun p =>
            Await p (fun o =>
              match o with
              | Fulfilled _ => Set_ready true ;;; Return Undefined
              | Rejected _ => sleep 500 (fun s => await s (fun _ => waitForReady_loop n))
              end))).
    unfold sleep, await, after_await.
    repeat first [exact IH | safe_step].
Qed.

Lemma body_safe (m : method) : safe (body m).
Proof.
  destruct m; cbn [body].
  - unfold start, await, after_await, finally, pass_on. repeat safe_step.
  - unfold spawnWorker, await, after_await.
    apply safe_Do; [exact I | intros proc]. destruct proc; [apply safe_Return|].
    apply safe_Do; [exact I | intros _].
    apply (safe_Spawn (fun _ =>
             Call M_waitForReady (fun p => Await p (fun o =>
               match o with
               | Fulfilled v =>
                   Call M_ensureBoundary (fun p' => Await p' (fun o' =>
                     match o' with
                     | Fulfilled _ => Return Undefined
                     | Rejected e => Throw e
                     end))
               | Rejected e => Throw e
               end)))).
    intros _. repeat safe_step.
  - apply waitForReady_loop_safe.
  - unfold ensureBoundary. repeat safe_step.
  - unfold request, performRequest, await, after_await, pass_on. repeat safe_step.
  - unfold restartWorker, await, after_await. repeat safe_step.
  - unfold stop, pass_on. repeat safe_step.
Qed.

(** The manager holds only a process that has not exited, and every such
    process carries the exit handler of [spawnWorker]; every continuation
    that is queued or waiting has the shape above. *)
Record sound (w : world) : Prop := {
  held_alive :
    forall h, process w = Some h ->
              exists c, nth_error (children w) h = Some c /\ alive c = true;
  alive_watched :
    forall h c, nth_error (children w) h = Some c -> alive c = true ->
                exitCode c = None /\ In (false, Cb_process_exit) (listeners c);
  jobs_safe : Forall (fun j => safe (snd j)) (jobs w);
  waiters_safe : Forall (fun x => forall o, safe (resume x o)) (waiters w)
}.

Lemma nth_error_update_at {A : Type} (f : A -> A) (l : list A) (h h' : nat) :
  nth_error (update h f l) h' =
  if (h =? h')%nat then option_map f (nth_error l h') else nth_error l h'.
Proof.
  revert h h'; induction l as [|a l IH]; intros [|h] [|h']; cbn; try reflexivity.
  - destruct (h =? h')%nat; reflexivity.
  - apply IH.
Qed.

(** A change of the listeners of one child that keeps the exit handler. *)
Lemma listeners_changed (w : world) (h : handle)
      (g : list (bool * callback) -> list (bool * callback)) :
  (forall l, In (false, Cb_process_exit) l -> In (false, Cb_process_exit) (g l)) ->
  sound w ->
  sound (set_children
           (update h (fun c => {| alive := alive c; exitCode := exitCode c;
                                  listeners := g (listeners c) |})
              (children w)) w).
Proof.
  intros Hg [Hh Ha Hj Hw]. split; cbn; auto.
  - intros h' Hp. destruct (Hh h' Hp) as (c & Hc & Hal).
    rewrite nth_error_update_at, Hc.
    destruct (h =? h')%nat; cbn; eauto.
  - intros h' c. rewrite nth_error_update_at.
    destruct (h =? h')%nat; [|apply Ha].
    destruct (nth_error (children w) h') as [c0|] eqn:Hc; cbn; [|discriminate].
    intros Heq Hal. injection Heq as <-. cbn in *.
    destruct (Ha h' c0 Hc Hal) as [He Hin]. auto.
Qed.

Lemma settle_sound (p : promise) (o : outcome) (w : world) :
  sound w -> sound (settle p o w).
Proof.
  intros Hs. unfold settle. destruct (outcome_of w p); [exact Hs|].
  destruct Hs as [Hh Ha Hj Hw]. split; cbn; auto.
  - apply Forall_app. split; [exact Hj|].
    apply Forall_map. cbn.
    rewrite Forall_forall in *. intros x Hx. apply filter_In in Hx. apply Hw, Hx.
  - rewrite Forall_forall in *. intros x Hx. apply filter_In in Hx. apply Hw, Hx.
Qed.

Lemma suspend_sound (p self : promise) (k : outcome -> prog) (w : world) :
  (forall o, safe (k o)) -> sound w -> sound (suspend p self k w).
Proof.
  intros Hk [Hh Ha Hj Hw]. unfold suspend.
  destruct (outcome_of w p); split; cbn; auto.
  - apply Forall_app. split; [exact Hj|]. constructor; [apply Hk | constructor].
  - apply Forall_app. split; [exact Hw|]. constructor; [exact Hk | constructor].
Qed.

Lemma no_process_sound (w : world) (r : bool) :
  sound w -> sound (set_ready r (set_process None w)).
Proof.
  intros [Hh Ha Hj Hw]. split; cbn; auto. discriminate.
Qed.

Lemma run_callback_sound (cb : callback) (w : world) :
  sound w -> sound (run_callback cb w).
Proof.
  intros Hs. destruct cb as [| proc resolve | resolve |]; cbn [run_callback].
  - assert (sound (set_process None (set_ready false w))) as H1.
    { destruct Hs as [Hh Ha Hj Hw]. split; cbn; auto. discriminate. }
    destruct (quitting (set_process None (set_ready false w))); [exact H1|].
    destruct H1 as [Hh Ha Hj Hw]. split; cbn in *; auto.
  - apply settle_sound, no_process_sound.
    unfold removeListener.
    apply (listeners_changed w proc
             (filter (fun l => negb (callback_eqb (snd l) (Cb_cleanup proc resolve)))));
      [|exact Hs].
    intros l Hin. apply filter_In. split; [exact Hin | reflexivity].
  - now apply settle_sound.
  - destruct Hs as [Hh Ha Hj Hw]. split; cbn; auto.
Qed.

Lemma perform_sound {X : Type} (a : action X) (w : world) :
  plain a -> sound w -> sound (fst (perform a w)).
Proof.
  intros Hp Hs. destruct a; cbn [perform fst]; try exact Hs;
    try (destruct Hs as [Hh Ha Hj Hw]; split; cbn; auto; fail).
  - destruct h as [h|]; [destruct Hp|].
    destruct Hs as [Hh Ha Hj Hw]. split; cbn; auto. discriminate.
  - destruct Hp.
  - unfold add_listener.
    apply (listeners_changed w h (fun l => l ++ [(false, cb)])); [|exact Hs].
    intros l Hin. apply in_or_app. now left.
  - unfold add_listener.
    apply (listeners_changed w h (fun l => l ++ [(true, cb)])); [|exact Hs].
    intros l Hin. apply in_or_app. now left.
  - now apply run_callback_sound.
Qed.

(** [h = spawn(...); this.process = h; h.on('exit', ...)] *)
Lemma spawn_sound (w : world) :
  sound w ->
  let (w1, h) := perform Spawn w in
  sound (fst (perform (On_exit h Cb_process_exit)
                (fst (perform (Set_process (Some h)) w1)))).
Proof.
  intros [Hh Ha Hj Hw]. cbn [perform fst].
  unfold add_listener, log_event. cbn.
  split; cbn; auto.
  - intros h Heq. injection Heq as <-.
    rewrite nth_error_update_at, Nat.eqb_refl, nth_error_app2, Nat.sub_diag by lia.
    cbn. eauto.
  - intros h c. rewrite nth_error_update_at.
    destruct (Nat.eqb_spec (length (children w)) h) as [<- | Hne].
    + rewrite nth_error_app2, Nat.sub_diag by lia. cbn.
      intros Heq _. injection Heq as <-. cbn. auto.
    + intros Hc Hal.
      assert (h < length (children w ++ [{| alive := true; exitCode := None;
                                            listeners := [] |}])) as Hlt
          by (apply nth_error_Some; congruence).
      rewrite length_app in Hlt. cbn in Hlt.
      rewrite nth_error_app1 in Hc by lia. eauto.
Qed.

Lemma alloc_sound (w : world) : sound w -> sound (fst (alloc w)).
Proof. intros [Hh Ha Hj Hw]. split; cbn; auto. Qed.

Lemma exec_sound (d : nat) :
  forall c, safe c ->
  forall w self w', sound w -> exec d w self c = Some w' -> sound w'.
Proof.
  induction d as [|d IHd]; intros c Hc; induction Hc as
      [v | e | X a k Hp Hk IHk | k Hk IHk | b k Hb IHb Hk IHk | m k Hk IHk | p k Hk IHk];
    intros w self w' Hs He.
  all: try (rewrite exec_Return in He; injection He as <-; now apply settle_sound).
  all: try (rewrite exec_Throw in He; injection He as <-; now apply settle_sound).
  all: try (rewrite exec_Await in He; injection He as <-; now apply suspend_sound).
  all: try (rewrite exec_Do in He;
            pose proof (perform_sound a w Hp Hs) as H1;
            destruct (perform a w) as [w1 x]; eapply IHk; eassumption).
  all: try (do 3 (rewrite exec_Do in He; cbn [perform] in He);
            pose proof (spawn_sound w Hs) as H1; cbn [perform fst] in H1;
            eapply IHk; eassumption).
  all: try (rewrite exec_Async in He;
            pose proof (alloc_sound w Hs) as H1;
            destruct (alloc w) as [w1 q];
            destruct (exec _ w1 q b) as [w2|] eqn:Hb2; [|discriminate];
            eapply IHk; [eapply IHb; eassumption | eassumption]).
  - rewrite exec_Call_0 in He. discriminate.
  - rewrite exec_Call in He.
    pose proof (alloc_sound w Hs) as H1.
    destruct (alloc w) as [w1 q].
    destruct (exec d w1 q (body m)) as [w2|] eqn:Hb2; [|discriminate].
    eapply IHk; [|eassumption].
    eapply IHd; [apply body_safe | eassumption | eassumption].
Qed.

Lemma drain_sound (f : nat) :
  forall w w', sound w -> drain f w = Some w' -> sound w'.
Proof.
  induction f as [|f IH]; intros w w' Hs Hd.
  - destruct (jobs w) as [|[self c] rest] eqn:Hj.
    + rewrite drain_nil in Hd by assumption. now injection Hd as <-.
    + change (drain 0 w) with (match jobs w with [] => Some w | (_, _) :: _ => None end) in Hd.
      rewrite Hj in Hd. discriminate.
  - rewrite drain_S in Hd.
    destruct (jobs w) as [|[self c] rest] eqn:Hj; [now injection Hd as <-|].
    destruct (exec (S f) (set_jobs rest w) self c) as [w1|] eqn:He; [|discriminate].
    apply (IH w1 w'); [|exact Hd].
    apply (exec_sound (S f) c) with (w := set_jobs rest w) (self := self); [| |exact He].
    + pose proof (jobs_safe w Hs) as Hjs. rewrite Hj in Hjs.
      now inversion Hjs.
    + destruct Hs as [Hh Ha Hjs Hw]. split; cbn; auto.
      rewrite Hj in Hjs. now inversion Hjs.
Qed.

(** The listeners of an exit run on a manager whose handle may still name
    the process that has just ended. *)
Record sound_but (dead : handle) (w : world) : Prop := {
  held_alive_but :
    forall h, process w = Some h ->
              h = dead \/ exists c, nth_error (children w) h = Some c /\ alive c = true;
  dead_child :
    forall c, nth_error (children w) dead = Some c -> alive c = false;
  alive_watched_but :
    forall h c, nth_error (children w) h = Some c -> alive c = true ->
                exitCode c = None /\ In (false, Cb_process_exit) (listeners c);
  jobs_safe_but : Forall (fun j => safe (snd j)) (jobs w);
  waiters_safe_but : Forall (fun x => forall o, safe (resume x o)) (waiters w)
}.

Lemma sound_but_done (dead : handle) (w : world) :
  sound_but dead w -> process w = None -> sound w.
Proof.
  intros [Hh Hd Ha Hj Hw] Hp. split; auto. intros h Hq. congruence.
Qed.

Lemma settle_sound_but (dead : handle) (p : promise) (o : outcome) (w : world) :
  sound_but dead w -> sound_but dead (settle p o w).
Proof.
  intros Hs. unfold settle. destruct (outcome_of w p); [exact Hs|].
  destruct Hs as [Hh Hd Ha Hj Hw]. split; cbn; auto.
  - apply Forall_app. split; [exact Hj|].
    apply Forall_map. cbn.
    rewrite Forall_forall in *. intros x Hx. apply filter_In in Hx. apply Hw, Hx.
  - rewrite Forall_forall in *. intros x Hx. apply filter_In in Hx. apply Hw, Hx.
Qed.

(** Detaching any listener from the process that has ended. *)
Lemma removeListener_dead (dead : handle) (cb : callback) (w : world) :
  sound_but dead w -> sound_but dead (removeListener dead cb w).
Proof.
  intros [Hh Hd Ha Hj Hw]. unfold removeListener. split; cbn; auto.
  - intros h Hp. destruct (Hh h Hp) as [-> | (c & Hc & Hal)]; [now left|].
    right. rewrite nth_error_update_at, Hc.
    destruct (dead =? h)%nat; cbn; eauto.
  - intros c. rewrite nth_error_update_at, Nat.eqb_refl.
    destruct (nth_error (children w) dead) as [c0|] eqn:Hc; cbn; [|discriminate].
    intros Heq. injection Heq as <-. cbn. now apply Hd.
  - intros h c. rewrite nth_error_update_at.
    destruct (Nat.eqb_spec dead h) as [<- | Hne]; [|apply Ha].
    destruct (nth_error (children w) dead) as [c0|] eqn:Hc; cbn; [|discriminate].
    intros Heq Hal. injection Heq as <-. cbn in Hal.
    rewrite (Hd c0 eq_refl) in Hal. discriminate.
Qed.

Lemma removeListener_cleanup (dead proc : handle) (resolve : promise) (w : world) :
  sound_but dead w -> sound_but dead (removeListener proc (Cb_cleanup proc resolve) w).
Proof.
  intros [Hh Hd Ha Hj Hw]. unfold removeListener. split; cbn; auto.
  - intros h Hp. destruct (Hh h Hp) as [-> | (c & Hc & Hal)]; [now left|].
    right. rewrite nth_error_update_at, Hc.
    destruct (proc =? h)%nat; cbn; eauto.
  - intros c. rewrite nth_error_update_at.
    destruct (proc =? dead)%nat; [|apply Hd].
    destruct (nth_error (children w) dead) as [c0|] eqn:Hc; cbn; [|discriminate].
    intros Heq. injection Heq as <-. cbn. now apply Hd.
  - intros h c. rewrite nth_error_update_at.
    destruct (proc =? h)%nat; [|apply Ha].
    destruct (nth_error (children w) h) as [c0|] eqn:Hc; cbn; [|discriminate].
    intros Heq Hal. injection Heq as <-. cbn in *.
    destruct (Ha h c0 Hc Hal) as [He Hin]. split; [exact He|].
    apply filter_In. split; [exact Hin | reflexivity].
Qed.

Lemma run_callback_sound_but (dead : handle) (cb : callback) (w : world) :
  sound_but dead w -> sound_but dead (run_callback cb w).
Proof.
  intros Hs. destruct cb as [| proc resolve | resolve |]; cbn [run_callback].
  - assert (sound_but dead (set_process None (set_ready false w))) as H1.
    { destruct Hs as [Hh Hd Ha Hj Hw]. split; cbn; auto. discriminate. }
    destruct (quitting (set_process None (set_ready false w))); [exact H1|].
    destruct H1 as [Hh Hd Ha Hj Hw]. split; cbn in *; auto.
  - apply settle_sound_but.
    pose proof (removeListener_cleanup dead proc resolve w Hs) as [Hh Hd Ha Hj Hw].
    split; cbn; auto. discriminate.
  - now apply settle_sound_but.
  - destruct Hs as [Hh Hd Ha Hj Hw]. split; cbn; auto.
Qed.

Lemma settle_process (p : promise) (o : outcome) (w : world) :
  process (settle p o w) = process w.
Proof. unfold settle. destruct (outcome_of w p); reflexivity. Qed.

(** No callback ever sets the handle. *)
Lemma run_callback_process (cb : callback) (w : world) :
  process (run_callback cb w) = None \/
  (cb <> Cb_process_exit /\ process (run_callback cb w) = process w).
Proof.
  destruct cb as [| proc resolve | resolve |]; cbn [run_callback].
  - left. destruct (quitting _); reflexivity.
  - left. rewrite settle_process. reflexivity.
  - right. split; [discriminate | apply settle_process].
  - right. split; [discriminate | reflexivity].
Qed.

Definition exit_listener (h : handle) (w : world) (l : bool * callback) : world :=
  let (once, cb) := l in
  run_callback cb (if once then removeListener h cb w else w).

Lemma exit_listener_sound_but (h : handle) (w : world) (l : bool * callback) :
  sound_but h w -> sound_but h (exit_listener h w l).
Proof.
  intros Hs. destruct l as [[|] cb]; cbn [exit_listener].
  - apply run_callback_sound_but, removeListener_dead, Hs.
  - apply run_callback_sound_but, Hs.
Qed.

Lemma exit_listener_process (h : handle) (w : world) (l : bool * callback) :
  process (exit_listener h w l) = None \/
  (snd l <> Cb_process_exit /\ process (exit_listener h w l) = process w).
Proof.
  destruct l as [once cb]. cbn [exit_listener snd].
  destruct (run_callback_process cb (if once then removeListener h cb w else w))
    as [H | [Hne H]]; [now left|].
  right. split; [exact Hne|]. rewrite H. destruct once; reflexivity.
Qed.

Lemma exit_listeners_run (h : handle) (ls : list (bool * callback)) :
  forall w,
    sound_but h w ->
    process w = None \/ (exists b, In (b, Cb_process_exit) ls) ->
    sound (fold_left (exit_listener h) ls w).
Proof.
  induction ls as [|l ls IH]; intros w Hs Hp; cbn [fold_left].
  - destruct Hp as [Hp | [b []]]. now apply (sound_but_done h).
  - apply IH; [now apply exit_listener_sound_but|].
    destruct (exit_listener_process h w l) as [Hn | [Hne Heq]]; [now left|].
    destruct Hp as [Hp | [b [Hin | Hin]]].
    + left. congruence.
    + subst l. cbn in Hne. congruence.
    + right. eauto.
Qed.

Lemma emit_exit_fold (h : handle) (w : world) :
  emit_exit h w =
  match nth_error (children w) h with
  | None => w
  | Some c => fold_left (exit_listener h) (listeners c) w
  end.
Proof. reflexivity. Qed.

(** Every event but the failure of a launch. *)
Definition launched (ev : event) : bool :=
  match ev with
  | Launch_error _ _ => false
  | _ => true
  end.

Lemma handle_event_sound (f : nat) (ev : event) (w w' : world) :
  launched ev = true -> sound w -> handle_event f ev w = Some w' -> sound w'.
Proof.
  intros Hl Hs He.
  destruct ev as [m | | i r | i | h code | h errno]; cbn [handle_event] in He;
    [ | | | | | discriminate Hl].
  - pose proof (alloc_sound w Hs) as H1. destruct (alloc w) as [w1 q].
    eapply exec_sound; [apply body_safe | exact H1 | exact He].
  - assert (sound (set_quitting true w)) as Hq
        by (destruct Hs as [Hh Ha Hj Hw]; split; cbn; auto).
    pose proof (alloc_sound _ Hq) as H1. destruct (alloc (set_quitting true w)) as [w1 q].
    eapply exec_sound; [apply body_safe | exact H1 | exact He].
  - destruct (nth_error (inflight w) i); injection He as <-; [|exact Hs].
    apply settle_sound. destruct Hs as [Hh Ha Hj Hw]. split; cbn; auto.
  - destruct (nth_error (timers w) i); injection He as <-; [|exact Hs].
    apply run_callback_sound. destruct Hs as [Hh Ha Hj Hw]. split; cbn; auto.
  - destruct (nth_error (children w) h) as [[[|] ec ls]|] eqn:Hc;
      injection He as <-; try exact Hs.
    rewrite emit_exit_fold. cbn [children set_children].
    rewrite nth_error_update_at, Nat.eqb_refl, Hc. cbn [option_map listeners].
    destruct Hs as [Hh Ha Hj Hw].
    apply exit_listeners_run.
    + split; cbn; auto.
      * intros h' Hp. destruct (Nat.eqb_spec h h') as [-> | Hne]; [now left|].
        right. destruct (Hh h' Hp) as (c & Hc' & Hal).
        rewrite nth_error_update_at.
        destruct (Nat.eqb_spec h h'); [congruence|]. eauto.
      * intros c0. rewrite nth_error_update_at, Nat.eqb_refl, Hc. cbn.
        intros Heq. now injection Heq as <-.
      * intros h' c0. rewrite nth_error_update_at.
        destruct (Nat.eqb_spec h h') as [<- | Hne]; [|apply Ha].
        rewrite Hc. cbn. intros Heq Hal. injection Heq as <-. discriminate.
    + right. exists false. apply (Ha h _ Hc eq_refl).
Qed.

Lemma run_sound (f : nat) (evs : list event) :
  forall w w', forallb launched evs = true ->
               sound w -> run f evs w = Some w' -> sound w'.
Proof.
  induction evs as [|ev evs IH]; intros w w' Hl Hs Hr.
  - change (run f [] w) with (Some w) in Hr. now injection Hr as <-.
  - cbn [forallb] in Hl. apply andb_true_iff in Hl. destruct Hl as [Hev Hl].
    rewrite run_cons, step_eq in Hr.
    destruct (handle_event f ev w) as [w1|] eqn:He; [|discriminate].
    destruct (drain f w1) as [w2|] eqn:Hd; [|discriminate].
    apply (IH w2 w'); [exact Hl | | exact Hr].
    eapply drain_sound; [|exact Hd].
    eapply handle_event_sound; eassumption.
Qed.

Lemma initial_world_sound (kill_fails : handle -> bool) : sound (initial_world kill_fails).
Proof.
  split; cbn.
  - intros h Hp. discriminate.
  - intros h c0 Hc. destruct h; discriminate.
  - constructor.
  - constructor.
Qed.

(** A worker whose launch failed, and a [stop()] after that: the handle
    is held with the exit code set, and [stop()] takes its first branch. *)
Definition stop_after_failed_launch (start_first : list event) (errno : Z) : Prop :=
  exists w1 w2,
    run fuel (start_first ++ [Launch_error 0 errno]) (idle_world false) = Some w1 /\
    process w1 = Some 0 /\
    snd (perform (Get_exitCode 0) w1) = Some errno /\
    step fuel (App_call M_stop) w1 = Some w2 /\
    outcome_of w2 (next_promise w1) = Some (Fulfilled Undefined) /\
    process w2 = None /\ ready w2 = false /\
    log w2 = log w1 /\ timers w2 = timers w1.

(** X12. Whatever the application, the worker, the network and the timers do,
    and in whatever order: as long as no launch fails, when the manager
    holds a process handle, that process has not exited and carries the
    exit handler of [spawnWorker], so [proc.exitCode] is null whenever
    [stop()] reads it.  When a launch fails (Node then sets [exitCode] to
    the errno and emits 'error', not 'exit'), the exit handler does not
    run and the manager keeps the handle, while the start is in flight
    and after it has timed out; the next [stop()] finds the exit code
    set and cleans up at once: handle cleared, [ready] false, resolved,
    with no [kill()] and no timer. *)
Theorem held_process_has_not_exited :
  (forall (kill_fails : handle -> bool) (f : nat) (evs : list event) (w : world) (h : handle),
      forallb launched evs = true ->
      run f evs (initial_world kill_fails) = Some w ->
      process w = Some h ->
      exists c,
        nth_error (children w) h = Some c /\
        alive c = true /\ exitCode c = None /\
        In (false, Cb_process_exit) (listeners c) /\
        snd (perform (Get_exitCode h) w) = None) /\
  (forall errno : Z,
      stop_after_failed_launch [App_call M_start] errno /\
      stop_after_failed_launch
        (App_call M_start :: rounds 0 (fun _ => refused) 60) errno).
Proof.
  split.
  - intros kill_fails f evs w h Hl Hr Hp.
    pose proof (run_sound f evs _ w Hl (initial_world_sound kill_fails) Hr) as Hs.
    destruct (held_alive w Hs h Hp) as (c & Hc & Hal).
    destruct (alive_watched w Hs h c Hc Hal) as [He Hin].
    exists c. cbn [perform snd]. rewrite Hc. auto.
  - intros errno. split.
    + unfold stop_after_failed_launch. eexists; eexists.
      split; [vm_compute; reflexivity|].
      repeat (split; [vm_compute; reflexivity|]). vm_compute; reflexivity.
    + unfold stop_after_failed_launch. eexists; eexists.
      split; [vm_compute; reflexivity|].
      repeat (split; [vm_compute; reflexivity|]). vm_compute; reflexivity.
Qed.

Lemma held_process_has_not_exited_witness :
  exists c,
    nth_error (children (ready_world false)) 0 = Some c /\
    alive c = true /\ exitCode c = None /\
    In (false, Cb_process_exit) (listeners c) /\
    snd (perform (Get_exitCode 0) (ready_world false)) = None.
Proof.
  apply (proj1 held_process_has_not_exited (fun _ => false) fuel boot (ready_world false) 0).
  - reflexivity.
  - apply (boot_reaches_ready false).
  - reflexivity.
Defined.

End Invariant.

(** ** The earlier revision of the main process *)

Section EarlierRevision.

(** X13. The earlier [stop()] returns with the manager idle although the
    worker has not exited: nothing is awaited, no timer is set and the
    exit handler stays attached.  It is a no-op without a worker and when
    repeated.  When [kill()] throws, the exception leaves [stop()] before
    the manager is reset: the handle and the ready flag stay as they
    were. *)
Theorem earlier_stop_resets_at_once (w : world) :
  (process w = None -> stop_sync w = (w, false)) /\
  (forall h,
      process w = Some h -> kill_throws w h = false ->
      exists w',
        stop_sync w = (w', false) /\
        process w' = None /\ ready w' = false /\
        children w' = children w /\ timers w' = timers w /\
        waiters w' = waiters w /\ settled w' = settled w /\
        log w' = log w ++ [O_kill h] /\
        stop_sync w' = (w', false)) /\
  (forall h,
      process w = Some h -> kill_throws w h = true ->
      exists w',
        stop_sync w = (w', true) /\
        process w' = Some h /\ ready w' = ready w /\
        log w' = log w ++ [O_kill h]).
Proof.
  unfold stop_sync. split; [|split].
  - intros ->. reflexivity.
  - intros h Hp Hk. rewrite Hp. cbn [perform]. rewrite Hk.
    eexists; split; [reflexivity|]. cbn. auto 10.
  - intros h Hp Hk. rewrite Hp. cbn [perform]. rewrite Hk.
    eexists; split; [reflexivity|]. cbn. auto.
Qed.

Lemma earlier_stop_resets_at_once_witness :
  exists w',
    stop_sync (ready_world false) = (w', false) /\
    process w' = None /\ ready w' = false /\
    nth_error (children w') 0 = Some still_running /\
    stop_sync (ready_world true) = (log_event (O_kill 0) (ready_world true), true).
Proof.
  destruct (proj1 (proj2 (earlier_stop_resets_at_once (ready_world false))) 0
              eq_refl eq_refl)
    as (w' & Hs & Hp & Hr & Hc & _).
  exists w'. rewrite Hc. auto.
Defined.

End EarlierRevision.

(** ** How the worker is launched *)

Section Launch.

(** [path.join] and [path.delimiter] of the platform. *)
Variable path_join : list string -> string.
Variable delimiter : string.

(** What [spawnWorker] reads from Electron, Node and the environment. *)
Record host : Type := {
  isPackaged : bool;                 (* app.isPackaged *)
  resourcesPath : string;            (* process.resourcesPath *)
  platform : string;                 (* process.platform *)
  dirname : string;                  (* __dirname *)
  userData : string;                 (* app.getPath('userData') *)
  env_PYTHON_BIN : option string;    (* process.env.PYTHON_BIN *)
  env_PYTHONPATH : option string;    (* process.env.PYTHONPATH *)
  existsSync : string -> bool        (* fs.existsSync *)
}.

Definition with_PYTHON_BIN (bin : option string) (h : host) : host :=
  {| isPackaged := isPackaged h;
     resourcesPath := resourcesPath h;
     platform := platform h;
     dirname := dirname h;
     userData := userData h;
     env_PYTHON_BIN := bin;
     env_PYTHONPATH := env_PYTHONPATH h;
     existsSync := existsSync h |}.

Definition resolvePythonBinary (h : host) : string :=
  if isPackaged h then
    let envRoot := path_join [resourcesPath h; "python_env"] in
    if platform h =? "win32" then path_join [envRoot; "Scripts"; "python.exe"]
    else
      let candidate := path_join [envRoot; "bin"; "python3"] in
      if existsSync h candidate then candidate
      else path_join [envRoot; "bin"; "python"]
  else
    match env_PYTHON_BIN h with
    | Some bin => if bin =? "" then (if platform h =? "win32" then "python" else "python3")
                  else bin
    | None => if platform h =? "win32" then "python" else "python3"
    end.

Definition resolveServerPath (h : host) : string :=
  if isPackaged h then path_join [resourcesPath h; "server"]
  else path_join [dirname h; ".."; ".."; "server"].

(** [array.filter(Boolean)] on strings that may be undefined. *)
Definition filter_Boolean (l : list (option string)) : list string :=
  flat_map (fun v => match v with
                     | Some s => if s =? "" then [] else [s]
                     | None => []
                     end) l.

(** [env.PYTHONPATH] of the worker. *)
Definition worker_PYTHONPATH (h : host) : string :=
  String.concat delimiter
    (filter_Boolean [Some (resolveServerPath h); env_PYTHONPATH h]).

(** X14. A packaged application runs the interpreter bundled under its
    resources whatever [PYTHON_BIN] says: [Scripts/python.exe] on win32;
    on every other platform [bin/python3] when that file exists and
    [bin/python] when it does not.  In development a non-empty
    [PYTHON_BIN] is used as it is, and without one the interpreter is
    [python] on win32 and [python3] elsewhere. *)
Theorem packaged_app_uses_bundled_python (h : host) :
  (isPackaged h = true ->
   let envRoot := path_join [resourcesPath h; "python_env"] in
   let python3 := path_join [envRoot; "bin"; "python3"] in
   (forall bin, resolvePythonBinary (with_PYTHON_BIN bin h) = resolvePythonBinary h) /\
   (platform h = "win32" ->
    resolvePythonBinary h = path_join [envRoot; "Scripts"; "python.exe"]) /\
   (platform h <> "win32" -> existsSync h python3 = true ->
    resolvePythonBinary h = python3) /\
   (platform h <> "win32" -> existsSync h python3 = false ->
    resolvePythonBinary h = path_join [envRoot; "bin"; "python"])) /\
  (isPackaged h = false ->
   (forall bin, bin <> "" ->
                resolvePythonBinary (with_PYTHON_BIN (Some bin) h) = bin) /\
   (env_PYTHON_BIN h = None \/ env_PYTHON_BIN h = Some "" ->
    resolvePythonBinary h = if platform h =? "win32" then "python" else "python3")).
Proof.
  split.
  - intros Hp envRoot python3. subst envRoot python3. unfold resolvePythonBinary.
    cbn [with_PYTHON_BIN isPackaged resourcesPath platform existsSync].
    rewrite Hp. repeat split.
    + intros Hw. now rewrite Hw.
    + intros Hw He. apply String.eqb_neq in Hw. now rewrite Hw, He.
    + intros Hw He. apply String.eqb_neq in Hw. now rewrite Hw, He.
  - intros Hp. unfold resolvePythonBinary. rewrite Hp. split.
    + intros bin Hbin. cbn [with_PYTHON_BIN isPackaged env_PYTHON_BIN]. rewrite Hp.
      apply String.eqb_neq in Hbin. now rewrite Hbin.
    + intros [Hn | Hn]; now rewrite Hn.
Qed.

(** X15. The server directory always comes first in the worker's [PYTHONPATH];
    the inherited value follows after one delimiter, and nothing is
    appended when it is unset or empty. *)
Theorem worker_PYTHONPATH_starts_with_server (h : host) :
  resolveServerPath h <> "" ->
  worker_PYTHONPATH h =
  match env_PYTHONPATH h with
  | Some inherited =>
      if inherited =? "" then resolveServerPath h
      else (resolveServerPath h ++ delimiter ++ inherited)%string
  | None => resolveServerPath h
  end.
Proof.
  intros Hs. apply String.eqb_neq in Hs.
  unfold worker_PYTHONPATH, filter_Boolean. cbn [flat_map]. rewrite Hs.
  destruct (env_PYTHONPATH h) as [inherited|]; [|reflexivity].
  destruct (inherited =? ""); reflexivity.
Qed.

End Launch.

Definition posix_join (segments : list string) : string := String.concat "/" segments.

Definition packaged_linux : host :=
  {| isPackaged := true;
     resourcesPath := "/opt/planner/resources";
     platform := "linux";
     dirname := "/opt/planner/resources/app/dist/electron";
     userData := "/home/user/.config/planner";
     env_PYTHON_BIN := Some "/usr/bin/python3.12";
     env_PYTHONPATH := None;
     existsSync := fun _ => false |}.

Lemma packaged_app_uses_bundled_python_witness :
  resolvePythonBinary posix_join packaged_linux
  = "/opt/planner/resources/python_env/bin/python".
Proof.
  destruct (proj1 (packaged_app_uses_bundled_python posix_join packaged_linux) eq_refl)
    as (_ & _ & _ & H).
  apply H; [discriminate | reflexivity].
Defined.

Lemma worker_PYTHONPATH_starts_with_server_witness :
  worker_PYTHONPATH posix_join ":" packaged_linux = "/opt/planner/resources/server".
Proof.
  apply (worker_PYTHONPATH_starts_with_server posix_join ":" packaged_linux).
  discriminate.
Defined.

(** ** The open-path handler and the script that bundles Python *)

Section Shell.

(** [fs.existsSync] and [fs.statSync(p).isDirectory()]. *)
Variable existsSync : string -> bool.
Variable isDirectory : string -> bool.

(** What a handler did with the path it was given. *)
Inductive handled : Type :=
| Ignored                      (* returned without doing anything *)
| Refused (e : thrown)         (* threw *)
| Opened (p : string)          (* shell.openPath(p) *)
| Revealed (p : string).       (* shell.showItemInFolder(p) *)

(** [ipcMain.handle('open-path', ...)] *)
Definition open_path (filePath : string) : handled :=
  if filePath =? "" then Ignored
  else if negb (existsSync filePath) then Refused (Error (Lit "File does not exist"))
  else if isDirectory filePath then Opened filePath
  else Revealed filePath.

(** The same handler in the earlier revision. *)
Definition open_path_earlier (filePath : string) : handled :=
  if filePath =? "" then Ignored
  else if negb (existsSync filePath) then Refused (Error (Lit "File does not exist"))
  else Revealed filePath.

(** X16. The open-path handler by cases.  An empty path is ignored without an
    error; a path that does not exist is refused with the error
    "File does not exist" and the shell is not called; an existing
    directory is opened by the latest revision, where the earlier one
    reveals it in its parent folder; an existing file is revealed in its
    folder by both.  So the shell is only ever handed the path that was
    asked for, and only when it is not empty and exists. *)
Theorem open_path_touches_existing_paths_only (filePath : string) :
  (filePath = "" ->
   open_path filePath = Ignored /\ open_path_earlier filePath = Ignored) /\
  (filePath <> "" -> existsSync filePath = false ->
   open_path filePath = Refused (Error (Lit "File does not exist")) /\
   open_path_earlier filePath = Refused (Error (Lit "File does not exist"))) /\
  (filePath <> "" -> existsSync filePath = true -> isDirectory filePath = true ->
   open_path filePath = Opened filePath /\
   open_path_earlier filePath = Revealed filePath) /\
  (filePath <> "" -> existsSync filePath = true -> isDirectory filePath = false ->
   open_path filePath = Revealed filePath /\
   open_path_earlier filePath = Revealed filePath) /\
  (forall p, open_path filePath = Opened p \/ open_path filePath = Revealed p \/
             open_path_earlier filePath = Opened p \/
             open_path_earlier filePath = Revealed p ->
             p = filePath /\ filePath <> "" /\ existsSync filePath = true).
Proof.
  unfold open_path, open_path_earlier.
  destruct (String.eqb_spec filePath "") as [-> | Hne].
  - repeat split; try congruence.
    all: destruct H as [H | [H | [H | H]]]; discriminate.
  - destruct (existsSync filePath), (isDirectory filePath); cbn [negb].
    all: repeat split; try congruence.
    all: destruct H as [H | [H | [H | H]]]; congruence.
Qed.

End Shell.

Section BuildScript.

(** [path.join]. *)
Variable path_join : list string -> string.

(** What scripts/build-python-env.cjs reads: the environment, the file
    system, and the exit status that [spawnSync] reports for a command
    ([None]: the command was ended by a signal). *)
Record build_host : Type := {
  script_root : string;                 (* path.resolve(__dirname, '..') *)
  script_platform : string;             (* process.platform *)
  script_PYTHON_BIN : option string;    (* process.env.PYTHON_BIN *)
  envDir_exists : bool;                 (* fs.existsSync(envDir) *)
  spawn_status : string -> list string -> option Z
}.

Inductive script_step : Type :=
| Removed (dir : string)                      (* fs.rmSync(dir, ...) *)
| Ran (command : string) (args : list string). (* spawnSync(command, args) *)

(** [run]: the steps taken so far and, once a command has failed, the code
    the script has exited with. *)
Definition run_command (h : build_host) (command : string) (args : list string)
           (so_far : list script_step * option Z) : list script_step * option Z :=
  match so_far with
  | (steps, Some code) => (steps, Some code)
  | (steps, None) =>
      let steps := steps ++ [Ran command args] in
      match spawn_status h command args with
      | Some 0%Z => (steps, None)
      | Some status => (steps, Some status)
      | None => (steps, Some 1%Z)
      end
  end.

Definition build_python_env (h : build_host) : list script_step * Z :=
  let envDir := path_join [script_root h; "python_env"] in
  let cleared := if envDir_exists h then [Removed envDir] else [] in
  let pythonBin :=
    match script_PYTHON_BIN h with
    | Some bin => if bin =? "" then (if script_platform h =? "win32" then "python" else "python3")
                  else bin
    | None => if script_platform h =? "win32" then "python" else "python3"
    end in
  let pipPath :=
    if script_platform h =? "win32" then path_join [envDir; "Scripts"; "pip.exe"]
    else path_join [envDir; "bin"; "pip"] in
  let '(steps, exited) :=
    run_command h pipPath ["install"; "-r";
                           path_join [script_root h; "server"; "requirements.txt"]]
      (run_command h pipPath ["install"; "--upgrade"; "pip"]
         (run_command h pythonBin ["-m"; "venv"; envDir] (cleared, None))) in
  (steps, match exited with Some code => code | None => 0%Z end).

Definition commands_run (steps : list script_step) : list (string * list string) :=
  flat_map (fun s => match s with Ran c a => [(c, a)] | Removed _ => [] end) steps.

Ltac all_succeeded :=
  repeat first [apply Forall_nil | apply Forall_cons; [cbn [fst snd]; assumption|]].

Ltac each_succeeded :=
  repeat match goal with
         | H : Forall _ (_ :: _) |- _ => inversion H; clear H; subst; cbn [fst snd] in *
         end.

(** X17. The script exits with 0 exactly when it has run three commands and
    each reported status 0.  Otherwise the last command it ran is the first
    that failed, nothing is run after it, and the exit code is the status
    of that command, or 1 when a signal ended it. *)
Theorem build_script_stops_at_first_failure (h : build_host) :
  let (steps, code) := build_python_env h in
  let ran := commands_run steps in
  (code = 0%Z <->
   length ran = 3 /\
   Forall (fun c => spawn_status h (fst c) (snd c) = Some 0%Z) ran) /\
  (code <> 0%Z ->
   exists before c,
     ran = before ++ [c] /\ length before < 3 /\
     Forall (fun c => spawn_status h (fst c) (snd c) = Some 0%Z) before /\
     match spawn_status h (fst c) (snd c) with
     | Some status => code = status
     | None => code = 1%Z
     end).
Proof.
  unfold build_python_env.
  set (envDir := path_join [script_root h; "python_env"]).
  set (pythonBin := match script_PYTHON_BIN h with Some _ => _ | None => _ end).
  set (pipPath := if script_platform h =? "win32" then _ else _).
  set (req := path_join [script_root h; "server"; "requirements.txt"]).
  destruct (envDir_exists h); cbn [run_command];
    (destruct (spawn_status h pythonBin ["-m"; "venv"; envDir]) as [[|s1|s1]|] eqn:H1;
     cbn [run_command];
     [ destruct (spawn_status h pipPath ["install"; "--upgrade"; "pip"]) as [[|s2|s2]|] eqn:H2;
       cbn [run_command];
       [ destruct (spawn_status h pipPath ["install"; "-r"; req]) as [[|s3|s3]|] eqn:H3;
         cbn [run_command]
       | | | ]
     | | | ]);
    cbn [commands_run flat_map app length fst snd].
  all: split; [split|].
  all: lazymatch goal with
       | |- _ = _ -> _ /\ _ =>
           (* exit code 0 gives three successful commands *)
           intros Hc; first [discriminate Hc | split; [reflexivity | all_succeeded]]
       | |- _ /\ _ -> _ =>
           (* three successful commands give exit code 0 *)
           intros [Hlen Hall];
           first [reflexivity | discriminate Hlen | each_succeeded; congruence]
       | |- _ <> _ -> _ =>
           (* another exit code names the command that failed *)
           intros Hc;
           first
             [ congruence
             | solve [ exists [], (pythonBin, ["-m"; "venv"; envDir]);
                       cbn [fst snd app length]; rewrite H1;
                       repeat split; auto; try lia; all_succeeded ]
             | solve [ exists [(pythonBin, ["-m"; "venv"; envDir])],
                         (pipPath, ["install"; "--upgrade"; "pip"]);
                       cbn [fst snd app length]; rewrite H2;
                       repeat split; auto; try lia; all_succeeded ]
             | solve [ exists [(pythonBin, ["-m"; "venv"; envDir]);
                               (pipPath, ["install"; "--upgrade"; "pip"])],
                         (pipPath, ["install"; "-r"; req]);
                       cbn [fst snd app length]; rewrite H3;
                       repeat split; auto; try lia; all_succeeded ] ]
       end.
Qed.

End BuildScript.

(** ** The mission simulation of the renderer (app/src/App.tsx) *)

Section Simulation.

Import PrimFloat.

(** A JavaScript number is an IEEE 754 double.  Array indices and the
    counters of the loops are natural numbers. *)
Definition number : Type := float.

(** [Boolean(x)] of a number. *)
Definition truthy_number (x : number) : bool :=
  negb (is_nan x) && negb (x =? 0)%float.

Definition Math_max (a b : number) : number :=
  if is_nan a || is_nan b then nan
  else if (a <? b)%float then b
  else if (b <? a)%float then a
  else if is_zero a && get_sign a then b else a.

Definition Math_min (a b : number) : number :=
  if is_nan a || is_nan b then nan
  else if (a <? b)%float then a
  else if (b <? a)%float then b
  else if is_zero a && get_sign a then a else b.

Record MissionWaypoint : Type := {
  seq : number;
  x : number;
  y : number;
  z : number;
  lat : number;
  lon : number;
  line : number;
  in_florida : bool;
  snapped : bool
}.

Record SimulationState : Type := {
  points : list MissionWaypoint;
  segments : list number;
  cumulative : list number;
  currentIndex : nat;
  progress : number;
  active : bool;
  speed : number;
  multiplier : number;
  dwellQueue : number;
  totalDistance : number
}.

(** The loop of [computeSegments]: one round for each pair of neighbours. *)
Fixpoint computeSegments_loop (pts : list MissionWaypoint)
         (segs cumul : list number) (total : number)
  : list number * list number * number :=
  match pts with
  | a :: (b :: _) as rest =>
      let dx := (x b - x a)%float in
      let dy := (y b - y a)%float in
      let length := sqrt (dx * dx + dy * dy)%float in
      let total := (total + length)%float in
      computeSegments_loop rest (segs ++ [length]) (cumul ++ [total]) total
  | _ => (segs, cumul, total)
  end.

Definition computeSegments (pts : list MissionWaypoint)
  : list number * list number * number :=
  let '(segs, cumul, total) := computeSegments_loop pts [] [0%float] 0%float in
  (segs, (if (length pts =? 1)%nat then cumul ++ [0%float] else cumul), total).

(** The state that [handleCompile] installs for a compile result. *)
Definition new_simulation (waypoints : list MissionWaypoint)
           (mission_speed : option number) (speedMultiplier : number)
  : SimulationState :=
  let '(segs, cumul, total) := computeSegments waypoints in
  {| points := waypoints;
     segments := segs;
     cumulative := cumul;
     currentIndex := 0;
     progress := 0%float;
     active := false;
     speed := match mission_speed with Some s => s | None => 1%float end;
     multiplier := speedMultiplier;
     dwellQueue := 0%float;
     totalDistance := total |}.

(** [dwellMap]: a [Map] filled by [set] in the order of the events. *)
Fixpoint Map_set (k : nat) (v : number) (m : list (nat * number)) : list (nat * number) :=
  match m with
  | [] => [(k, v)]
  | (k', v') :: m' => if (k' =? k)%nat then (k, v) :: m' else (k', v') :: Map_set k v m'
  end.

Fixpoint Map_get (m : list (nat * number)) (k : nat) : option number :=
  match m with
  | [] => None
  | (k', v) :: m' => if (k' =? k)%nat then Some v else Map_get m' k
  end.

Definition dwellMap (dwell_events : list (nat * number)) : list (nat * number) :=
  fold_left (fun m ev => Map_set (fst ev) (snd ev) m) dwell_events [].

(** Coordinates handed to [updateSource('toolhead', ...)]. *)
Definition toolhead : Type := (number * number)%type.

Inductive updated : Type :=
| TypeError
| Next (s : SimulationState) (marker : option toolhead).

(** The [while] loop of [tick]; every round moves to the next segment, so
    [rounds_left] of them, counted from the segments ahead, are all there
    can be. *)
Fixpoint advance (rounds_left : nat) (segs : list number) (dwell : list (nat * number))
         (currentIndex : nat) (remainingDistance dwellQueue : number)
  : nat * number * number :=
  match rounds_left with
  | 0 => (currentIndex, remainingDistance, dwellQueue)
  | S rounds_left' =>
      match nth_error segs currentIndex with
      | Some seg =>
          if (seg <=? remainingDistance)%float
          then
            let remainingDistance := (remainingDistance - seg)%float in
            let currentIndex := currentIndex + 1 in
            match Map_get dwell currentIndex with
            | Some dwellEvent =>
                if truthy_number dwellEvent
                then (currentIndex, 0%float, dwellEvent)
                else advance rounds_left' segs dwell currentIndex remainingDistance dwellQueue
            | None =>
                advance rounds_left' segs dwell currentIndex remainingDistance dwellQueue
            end
          else (currentIndex, remainingDistance, dwellQueue)
      | None => (currentIndex, remainingDistance, dwellQueue)
      end
  end.

Definition with_position (prev : SimulationState) (i : nat) (p : number)
           (a : bool) (d : number) : SimulationState :=
  {| points := points prev;
     segments := segments prev;
     cumulative := cumulative prev;
     currentIndex := i;
     progress := p;
     active := a;
     speed := speed prev;
     multiplier := multiplier prev;
     dwellQueue := d;
     totalDistance := totalDistance prev |}.

(** The state update of one animation frame, [delta] seconds after the
    previous one. *)
Definition tick (dwell : list (nat * number)) (delta : number) (prev : SimulationState)
  : updated :=
  if negb (active prev) then Next prev None
  else
    let maxIndex := length (segments prev) in
    if (0 <? dwellQueue prev)%float
    then
      let remaining := Math_max (dwellQueue prev - delta)%float 0%float in
      Next (with_position prev (currentIndex prev) (progress prev) (active prev) remaining)
           None
    else
      let '(currentIndex, remainingDistance, dwellQueue) :=
        advance (maxIndex - currentIndex prev) (segments prev) dwell
                (currentIndex prev)
                (speed prev * multiplier prev * delta + progress prev)%float
                (dwellQueue prev) in
      if (maxIndex <=? currentIndex)%nat
      then
        match nth_error (points prev) (length (points prev) - 1) with
        | Some last =>
            Next (with_position prev maxIndex 0%float false 0%float)
                 (Some (lon last, lat last))
        | None => TypeError
        end
      else
        let segmentLength :=
          match nth_error (segments prev) currentIndex with
          | Some s => if truthy_number s then s else 0%float
          | None => 0%float
          end in
        let ratio :=
          if (0 <? segmentLength)%float
          then Math_min (remainingDistance / segmentLength)%float 1%float
          else 1%float in
        match nth_error (points prev) currentIndex,
              nth_error (points prev)
                        (Nat.min (currentIndex + 1) (length (points prev) - 1)) with
        | Some pointA, Some pointB =>
            Next (with_position prev currentIndex remainingDistance (active prev) dwellQueue)
                 (Some ((lon pointA + (lon pointB - lon pointA) * ratio)%float,
                        (lat pointA + (lat pointB - lat pointA) * ratio)%float))
        | _, _ => TypeError
        end.

Definition togglePlay (simulation : SimulationState) : SimulationState :=
  if (length (segments simulation) <=? currentIndex simulation)%nat
  then with_position simulation 0 0%float true 0%float
  else with_position simulation (currentIndex simulation) (progress simulation)
                     (negb (active simulation)) (dwellQueue simulation).

Definition stepForward (simulation : SimulationState) : SimulationState * option toolhead :=
  let nextIndex := Nat.min (currentIndex simulation + 1) (length (segments simulation)) in
  (with_position simulation nextIndex 0%float false (dwellQueue simulation),
   match nth_error (points simulation) nextIndex with
   | Some p => Some (lon p, lat p)
   | None => None
   end).

Definition resetSimulation (simulation : SimulationState) : SimulationState * option toolhead :=
  (with_position simulation 0 0%float false 0%float,
   match points simulation with
   | p :: _ => Some (lon p, lat p)
   | [] => None
   end).

(** *** computeSegments *)

Lemma last_at_length {A : Type} (l : list A) (d : A) :
  last l d = nth (length l - 1) l d.
Proof.
  induction l as [|a [|b l] IH]; [reflexivity | reflexivity |].
  change (last (a :: b :: l) d) with (last (b :: l) d). rewrite IH.
  replace (length (a :: b :: l) - 1) with (S (length (b :: l) - 1))
    by (cbn [length]; lia).
  reflexivity.
Qed.

Lemma computeSegments_loop_pair (a b : MissionWaypoint) (rest : list MissionWaypoint)
      (segs cumul : list number) (total : number) :
  computeSegments_loop (a :: b :: rest) segs cumul total =
  let dx := (x b - x a)%float in
  let dy := (y b - y a)%float in
  let len := sqrt (dx * dx + dy * dy)%float in
  computeSegments_loop (b :: rest) (segs ++ [len]) (cumul ++ [(total + len)%float])
                       (total + len)%float.
Proof. reflexivity. Qed.

Lemma computeSegments_loop_shape (pts : list MissionWaypoint) :
  forall (segs cumul : list number) (total : number),
    length cumul = S (length segs) ->
    last cumul 0%float = total ->
    (forall i, i < length segs ->
               nth (S i) cumul 0%float = (nth i cumul 0 + nth i segs 0)%float) ->
    let '(segs', cumul', total') := computeSegments_loop pts segs cumul total in
    length segs' = length segs + (length pts - 1) /\
    length cumul' = S (length segs') /\
    last cumul' 0%float = total' /\
    nth 0 cumul' 0%float = nth 0 cumul 0%float /\
    (forall i, i < length segs' ->
               nth (S i) cumul' 0%float = (nth i cumul' 0 + nth i segs' 0)%float).
Proof.
  induction pts as [|a pts IH]; intros segs cumul total Hlen Hlast Hrec.
  - cbn. rewrite Nat.add_0_r. auto.
  - destruct pts as [|b pts].
    + cbn. rewrite Nat.add_0_r. auto.
    + rewrite computeSegments_loop_pair. cbv zeta.
      set (len := sqrt _).
      specialize (IH (segs ++ [len]) (cumul ++ [(total + len)%float]) (total + len)%float).
      destruct (computeSegments_loop (b :: pts) (segs ++ [len])
                  (cumul ++ [(total + len)%float]) (total + len)%float)
        as [[segs' cumul'] total'].
      destruct IH as (H1 & H2 & H3 & H4 & H5).
      * rewrite !length_app. cbn. lia.
      * apply last_last.
      * intros i Hi. rewrite length_app in Hi. cbn in Hi.
        destruct (Nat.eq_dec i (length segs)) as [-> | Hne].
        -- rewrite <- Hlen at 1. rewrite nth_middle.
           rewrite app_nth1 by lia. rewrite nth_middle.
           f_equal. rewrite <- Hlast, last_at_length, Hlen. f_equal. lia.
        -- rewrite !app_nth1 by lia. apply Hrec. lia.
      * cbv beta iota. split; [|split; [|split; [|split]]].
        -- rewrite H1, length_app. cbn [length]. lia.
        -- exact H2.
        -- exact H3.
        -- rewrite H4. destruct cumul; [discriminate | reflexivity].
        -- exact H5.
Qed.

(** X18. [computeSegments] returns one segment for each pair of neighbouring
    points; [cumulative] starts at 0, each entry adds the segment before
    it, and its last entry is [total].  A single point gives no segment
    and the two entries [0, 0]; no point gives no segment and [0]. *)
Theorem computeSegments_running_total (pts : list MissionWaypoint) :
  let '(segs, cumul, total) := computeSegments pts in
  length segs = length pts - 1 /\
  length cumul = match length pts with 0 => 1 | 1 => 2 | n => n end /\
  nth 0 cumul 0%float = 0%float /\
  last cumul 0%float = total /\
  forall i, i < length segs ->
            nth (S i) cumul 0%float = (nth i cumul 0 + nth i segs 0)%float.
Proof.
  unfold computeSegments.
  pose proof (computeSegments_loop_shape pts [] [0%float] 0%float) as H.
  destruct (computeSegments_loop pts [] [0%float] 0%float) as [[segs cumul] total].
  destruct H as (H1 & H2 & H3 & H4 & H5); [reflexivity | reflexivity | cbn; lia |].
  cbn [length plus] in H1.
  destruct pts as [|a [|b pts]].
  - cbn in *. destruct segs; [|discriminate]. auto.
  - cbn [length Nat.eqb] in *. destruct segs; [|discriminate].
    destruct cumul as [|c [|c' cumul]]; try discriminate.
    cbn in *. subst. repeat split; auto. intros i Hi; lia.
  - cbn [length Nat.eqb] in *. repeat split; auto; try lia.
Qed.


(** *** dwellMap *)

Lemma Map_get_set (k : nat) (v : number) (m : list (nat * number)) (k' : nat) :
  Map_get (Map_set k v m) k' = if (k =? k')%nat then Some v else Map_get m k'.
Proof.
  induction m as [|[k1 v1] m IH]; [reflexivity|].
  cbn [Map_set]. destruct (Nat.eqb_spec k1 k) as [-> | Hne]; cbn [Map_get].
  - destruct (k =? k')%nat; reflexivity.
  - rewrite IH.
    destruct (Nat.eqb_spec k1 k'), (Nat.eqb_spec k k'); try reflexivity; congruence.
Qed.

(** X19. When several dwell events name the same waypoint, the duration of the
    last one is the one [dwellMap.get] returns; a waypoint that no event
    names has none. *)
Theorem dwellMap_last_event_wins (dwell_events : list (nat * number)) (k : nat) :
  Map_get (dwellMap dwell_events) k =
  option_map snd (find (fun ev => (fst ev =? k)%nat) (rev dwell_events)).
Proof.
  unfold dwellMap.
  induction dwell_events as [|ev evs IH] using rev_ind; [reflexivity|].
  rewrite fold_left_app, rev_app_distr. cbn [fold_left rev app find].
  rewrite Map_get_set, IH.
  destruct (fst ev =? k)%nat; reflexivity.
Qed.

(** *** The animation frame *)

(** The loop of [tick] never runs past the last segment. *)
Lemma advance_bounds (rounds_left : nat) (segs : list number) (dwell : list (nat * number)) :
  forall (i : nat) (r d : number),
    i <= length segs ->
    let '(i', _, _) := advance rounds_left segs dwell i r d in
    i <= i' <= length segs.
Proof.
  induction rounds_left as [|n IH]; intros i r d Hi; cbn [advance]; [lia|].
  destruct (nth_error segs i) as [seg|] eqn:Hseg; [|lia].
  assert (i < length segs) as Hlt by (apply nth_error_Some; congruence).
  destruct (seg <=? r)%float; [|lia].
  assert (let '(i', _, _) := advance n segs dwell (i + 1) (r - seg)%float d in
          i <= i' <= length segs) as Hnext.
  { specialize (IH (i + 1) (r - seg)%float d).
    destruct (advance n segs dwell (i + 1) (r - seg)%float d) as [[i' r'] d'].
    lia. }
  destruct (Map_get dwell (i + 1)) as [ev|]; [|exact Hnext].
  destruct (truthy_number ev); [lia | exact Hnext].
Qed.

Lemma advance_round (n : nat) (segs : list number) (dwell : list (nat * number))
      (i : nat) (r d : number) :
  advance (S n) segs dwell i r d =
  match nth_error segs i with
  | Some seg =>
      if (seg <=? r)%float
      then match Map_get dwell (i + 1) with
           | Some ev =>
               if truthy_number ev then (i + 1, 0%float, ev)
               else advance n segs dwell (i + 1) (r - seg)%float d
           | None => advance n segs dwell (i + 1) (r - seg)%float d
           end
      else (i, r, d)
  | None => (i, r, d)
  end.
Proof. reflexivity. Qed.

(** Once every segment ahead has had its round, further rounds change
    nothing: the loop has ended by then. *)
Lemma advance_has_ended (segs : list number) (dwell : list (nat * number)) :
  forall (rounds_left i : nat) (r d : number),
    length segs - i <= rounds_left ->
    advance (S rounds_left) segs dwell i r d = advance rounds_left segs dwell i r d.
Proof.
  induction rounds_left as [|n IH]; intros i r d Hi.
  - rewrite advance_round. cbn [advance].
    destruct (nth_error segs i) as [seg|] eqn:Hseg; [|reflexivity].
    assert (i < length segs) by (apply nth_error_Some; congruence). lia.
  - rewrite (advance_round (S n)), (advance_round n).
    destruct (nth_error segs i) as [seg|]; [|reflexivity].
    destruct (seg <=? r)%float; [|reflexivity].
    rewrite (IH (i + 1) (r - seg)%float d) by lia.
    reflexivity.
Qed.

(** The simulation is on its path: one point more than there are
    segments, and the index at one of the points. *)
Definition on_path (s : SimulationState) : Prop :=
  length (points s) = S (length (segments s)) /\
  currentIndex s <= length (segments s).

Lemma point_on_path (s : SimulationState) (i : nat) :
  length (points s) = S (length (segments s)) ->
  i <= length (segments s) ->
  exists p, nth_error (points s) i = Some p.
Proof.
  intros Hlen Hi.
  destruct (nth_error (points s) i) as [p|] eqn:Hp; [eauto|].
  apply nth_error_None in Hp. lia.
Qed.

Lemma tick_returns
      (dwell : list (nat * number)) (delta : number) (prev : SimulationState) :
  on_path prev -> exists s' marker, tick dwell delta prev = Next s' marker.
Proof.
  intros [Hlen Hidx]. unfold tick.
  destruct (active prev); cbn [negb]; [|eauto].
  destruct (0 <? dwellQueue prev)%float; [eauto|].
  pose proof (advance_bounds (length (segments prev) - currentIndex prev)
                (segments prev) dwell (currentIndex prev)
                (speed prev * multiplier prev * delta + progress prev)%float
                (dwellQueue prev) Hidx) as Hb.
  destruct (advance _ _ _ _ _ _) as [[i r] d].
  destruct (Nat.leb_spec (length (segments prev)) i) as [Hend | Hmid].
  - destruct (point_on_path prev (length (points prev) - 1) Hlen) as [p Hp]; [lia|].
    rewrite Hp. eauto.
  - destruct (point_on_path prev i Hlen) as [pa Hpa]; [lia|].
    destruct (point_on_path prev (Nat.min (i + 1) (length (points prev) - 1)) Hlen)
      as [pb Hpb]; [lia|].
    rewrite Hpa, Hpb. eauto.
Qed.

(** X20. A frame on a simulation that is on its path never throws; it keeps
    the points and the segments, never moves the index backwards or past
    the last point, and when a running simulation reaches the last point
    it stops there with no dwell pending, even if a dwell event is
    registered for that point. *)
Theorem tick_stays_on_path
        (dwell : list (nat * number)) (delta : number) (prev : SimulationState) :
  on_path prev ->
  exists s' marker,
    tick dwell delta prev = Next s' marker /\
    on_path s' /\
    points s' = points prev /\ segments s' = segments prev /\
    currentIndex prev <= currentIndex s' /\
    (active prev = true -> (0 <? dwellQueue prev)%float = false ->
     currentIndex s' = length (segments prev) ->
     active s' = false /\ progress s' = 0%float /\ dwellQueue s' = 0%float).
Proof.
  intros [Hlen Hidx]. unfold tick.
  destruct (active prev) eqn:Hact; cbn [negb].
  2: { exists prev, None. unfold on_path.
       repeat split; auto; intros; congruence. }
  destruct (0 <? dwellQueue prev)%float eqn:Hdw.
  { eexists; eexists; split; [reflexivity|].
    unfold on_path. cbn. repeat split; auto; intros; congruence. }
  pose proof (advance_bounds (length (segments prev) - currentIndex prev)
                (segments prev) dwell (currentIndex prev)
                (speed prev * multiplier prev * delta + progress prev)%float
                (dwellQueue prev) Hidx) as Hb.
  destruct (advance _ _ _ _ _ _) as [[i r] d].
  destruct (Nat.leb_spec (length (segments prev)) i) as [Hend | Hmid].
  - destruct (point_on_path prev (length (points prev) - 1) Hlen) as [p Hp]; [lia|].
    rewrite Hp. eexists; eexists; split; [reflexivity|].
    unfold on_path. cbn. repeat split; auto; try lia.
  - destruct (point_on_path prev i Hlen) as [pa Hpa]; [lia|].
    destruct (point_on_path prev (Nat.min (i + 1) (length (points prev) - 1)) Hlen)
      as [pb Hpb]; [lia|].
    rewrite Hpa, Hpb. eexists; eexists; split; [reflexivity|].
    unfold on_path. cbn. repeat split; auto; try lia.
Qed.

Lemma new_simulation_on_path (waypoints : list MissionWaypoint)
      (mission_speed : option number) (speedMultiplier : number) :
  waypoints <> [] ->
  on_path (new_simulation waypoints mission_speed speedMultiplier).
Proof.
  intros Hne. unfold new_simulation.
  pose proof (computeSegments_running_total waypoints) as H.
  destruct (computeSegments waypoints) as [[segs cumul] total].
  destruct H as (H1 & _). unfold on_path. cbn.
  destruct waypoints; [congruence|]. cbn [length] in *. lia.
Qed.

Lemma togglePlay_on_path (s : SimulationState) : on_path s -> on_path (togglePlay s).
Proof.
  intros [Hlen Hidx]. unfold togglePlay, on_path.
  destruct (length (segments s) <=? currentIndex s)%nat; cbn; split; auto; lia.
Qed.

Definition miami : MissionWaypoint :=
  {| seq := 0%float; x := 580000%float; y := 2850000%float; z := 2%float;
     lat := 25.75%float; lon := (-80.25)%float; line := 5%float;
     in_florida := true; snapped := false |}.

Definition fort_lauderdale : MissionWaypoint :=
  {| seq := 1%float; x := 586000%float; y := 2890000%float; z := 2%float;
     lat := 26.125%float; lon := (-80.125)%float; line := 5%float;
     in_florida := true; snapped := false |}.

Lemma tick_stays_on_path_witness :
  exists s' marker,
    tick [] 0.015625%float (togglePlay (new_simulation [miami; fort_lauderdale] None 1%float))
    = Next s' marker /\
    currentIndex s' <= 1.
Proof.
  destruct (tick_stays_on_path [] 0.015625%float
              (togglePlay (new_simulation [miami; fort_lauderdale] None 1%float)))
    as (s' & marker & Ht & [_ Hi] & _ & Hs & _).
  - split; [reflexivity | cbn; lia].
  - exists s', marker. split; [exact Ht|].
    rewrite Hs in Hi. exact Hi.
Defined.

(** The waypoint that [handleCompile] marks as the surface point, read
    before the simulation is installed: nothing when [surface_index] is
    null, otherwise [waypoints[Math.min(surface_index, length - 1)]], whose
    [lon] is read at once.  [None]: that read throws, the element being
    undefined. *)
Definition surface_point (waypoints : list MissionWaypoint) (surface_index : option Z)
  : option (option MissionWaypoint) :=
  match surface_index with
  | None => Some None
  | Some i =>
      let j := Z.min i (Z.of_nat (length waypoints) - 1) in
      if (j <? 0)%Z then None
      else match nth_error waypoints (Z.to_nat j) with
           | Some pt => Some (Some pt)
           | None => None
           end
  end.

(** What [handleCompile] hands to [setSimulation] for a compile result;
    [None]: it has thrown before, and no simulation is installed. *)
Definition handleCompile_simulation (waypoints : list MissionWaypoint)
           (surface_index : option Z)
           (mission_speed : option number) (speedMultiplier : number)
  : option SimulationState :=
  match surface_point waypoints surface_index with
  | None => None
  | Some _ => Some (new_simulation waypoints mission_speed speedMultiplier)
  end.

(** X21. Play on a compiled mission.  A result without waypoints installs a
    simulation only when its [surface_index] is null, and the first frame
    after Play then throws, since the branch for the end of the path reads
    the last point of an empty list; with a [surface_index] the handler
    throws while it reads the surface point and installs nothing.  A result
    with at least one waypoint, and a [surface_index] that is null or not
    negative, installs its simulation, and the first frame after Play goes
    through. *)
Theorem play_needs_a_waypoint
        (mission_speed : option number) (speedMultiplier : number)
        (dwell : list (nat * number)) (delta : number) :
  (handleCompile_simulation [] None mission_speed speedMultiplier
   = Some (new_simulation [] mission_speed speedMultiplier) /\
   tick dwell delta (togglePlay (new_simulation [] mission_speed speedMultiplier))
   = TypeError) /\
  (forall i, handleCompile_simulation [] (Some i) mission_speed speedMultiplier = None) /\
  (forall waypoints surface_index,
      waypoints <> [] ->
      (forall i, surface_index = Some i -> (0 <= i)%Z) ->
      handleCompile_simulation waypoints surface_index mission_speed speedMultiplier
      = Some (new_simulation waypoints mission_speed speedMultiplier) /\
      exists s' marker,
        tick dwell delta
             (togglePlay (new_simulation waypoints mission_speed speedMultiplier))
        = Next s' marker) /\
  (forall waypoints i,
      (i < 0)%Z ->
      handleCompile_simulation waypoints (Some i) mission_speed speedMultiplier = None).
Proof.
  split; [split; reflexivity|]. split.
  { intros i. unfold handleCompile_simulation, surface_point. cbn [length Z.of_nat].
    destruct (Z.min i (0 - 1) <? 0)%Z eqn:Hj; [reflexivity|].
    apply Z.ltb_ge in Hj. lia. }
  split.
  - intros waypoints surface_index Hne Hsi. split.
    + unfold handleCompile_simulation, surface_point.
      destruct surface_index as [i|]; [|reflexivity].
      specialize (Hsi i eq_refl).
      assert (Hlen : (0 < length waypoints)%nat)
        by (destruct waypoints; [congruence | cbn; lia]).
      destruct (Z.min i (Z.of_nat (length waypoints) - 1) <? 0)%Z eqn:Hj.
      { apply Z.ltb_lt in Hj. lia. }
      destruct (nth_error waypoints (Z.to_nat (Z.min i (Z.of_nat (length waypoints) - 1))))
        eqn:Hn; [reflexivity|].
      apply nth_error_None in Hn. lia.
    + apply tick_returns, togglePlay_on_path, new_simulation_on_path, Hne.
  - intros waypoints i Hi. unfold handleCompile_simulation, surface_point.
    destruct (Z.min i (Z.of_nat (length waypoints) - 1) <? 0)%Z eqn:Hj; [reflexivity|].
    apply Z.ltb_ge in Hj. lia.
Qed.

(** Step pressed [k] times. *)
Fixpoint stepForward_times (k : nat) (s : SimulationState) : SimulationState :=
  match k with
  | 0 => s
  | S k' => fst (stepForward (stepForward_times k' s))
  end.

(** X22. The buttons keep a simulation on its path.  Step moves one point
    ahead, stops at the last point however often it is pressed, and always
    finds a point for the marker; Play at the last point starts again from
    the first. *)
Theorem controls_stay_on_path (s : SimulationState) :
  on_path s ->
  on_path (togglePlay s) /\
  on_path (fst (stepForward s)) /\
  on_path (fst (resetSimulation s)) /\
  (exists p, snd (stepForward s) = Some (lon p, lat p)) /\
  (forall k, currentIndex (stepForward_times k s)
             = Nat.min (currentIndex s + k) (length (segments s))) /\
  (currentIndex s = length (segments s) ->
   currentIndex (togglePlay s) = 0 /\ active (togglePlay s) = true).
Proof.
  intros Hs. pose proof Hs as [Hlen Hidx].
  split; [now apply togglePlay_on_path|].
  split; [unfold on_path; cbn; split; [exact Hlen | lia]|].
  split; [unfold on_path; cbn; split; [exact Hlen | lia]|].
  split.
  { unfold stepForward. cbn [snd].
    destruct (point_on_path s (Nat.min (currentIndex s + 1) (length (segments s))) Hlen)
      as [p Hp]; [lia|].
    rewrite Hp. eauto. }
  split.
  { intros k. induction k as [|k IH].
    - cbn [stepForward_times]. rewrite Nat.add_0_r. symmetry. apply Nat.min_l. exact Hidx.
    - assert (segments (stepForward_times k s) = segments s) as Hseg.
      { clear IH. induction k as [|k IHk]; [reflexivity | exact IHk]. }
      cbn [stepForward_times stepForward fst with_position currentIndex].
      rewrite IH, Hseg.
      destruct (Nat.min_spec (currentIndex s + k) (length (segments s))) as [[? ->] | [? ->]];
        apply Nat.min_case_strong; intros;
        destruct (Nat.min_spec (currentIndex s + S k) (length (segments s)))
          as [[? ->] | [? ->]]; lia. }
  intros Hend. unfold togglePlay. rewrite Hend, Nat.leb_refl. cbn. auto.
Qed.

Lemma controls_stay_on_path_witness :
  currentIndex
    (stepForward_times 3 (new_simulation [miami; fort_lauderdale] None 1%float)) = 1.
Proof.
  destruct (controls_stay_on_path (new_simulation [miami; fort_lauderdale] None 1%float))
    as (_ & _ & _ & _ & Hk & _).
  - split; [reflexivity | cbn; lia].
  - rewrite Hk. reflexivity.
Defined.

End Simulation.

(** ** Errors of a failed compile, as the renderer shows them *)

Section CompileErrors.

(** [JSON.parse]; [None] when it throws. *)
Variable JSON_parse : string -> option json.

(** The value of a property of a parsed object; a key given twice keeps
    its last value. *)
Fixpoint own_field (k : string) (fields : list (string * json)) : option json :=
  match fields with
  | [] => None
  | (k', v) :: rest =>
      match own_field k rest with
      | Some later => Some later
      | None => if k' =? k then Some v else None
      end
  end.

(** [v.k] for the keys [errors], [message] and [line], which no prototype
    defines: [None] is the TypeError of reading a property of [null], and
    [Some None] is [undefined]. *)
Definition get (v : json) (k : string) : option (option json) :=
  match v with
  | JNull => None
  | JObj fields => Some (own_field k fields)
  | _ => Some None
  end.

(** An entry of the error list of the compile panel. *)
Record ErrorItem : Type := {
  item_message : option json;
  item_line : option json
}.

(** [parsed.errors.map((err) => ({ message: err.message, line: err.line }))] *)
Fixpoint error_items (errs : list json) : option (list ErrorItem) :=
  match errs with
  | [] => Some []
  | err :: rest =>
      match get err "message", get err "line", error_items rest with
      | Some m, Some l, Some items =>
          Some ({| item_message := m; item_line := l |} :: items)
      | _, _, _ => None
      end
  end.

(** What the [catch] clause of [handleCompile] passes to [setErrors] for an
    error with the text [message]. *)
Definition shown_errors (message : string) : list ErrorItem :=
  let as_it_is := [{| item_message := Some (JStr message); item_line := None |}] in
  match JSON_parse message with
  | None => as_it_is
  | Some parsed =>
      match get parsed "errors" with
      | None => as_it_is
      | Some (Some (JArr errs)) =>
          match error_items errs with
          | Some items => items
          | None => as_it_is
          end
      | Some _ =>
          match get parsed "message" with
          | Some (Some m) =>
              if truthy m then [{| item_message := Some m; item_line := None |}]
              else as_it_is
          | _ => as_it_is
          end
      end
  end.

Lemma error_items_length (errs : list json) (items : list ErrorItem) :
  error_items errs = Some items -> length items = length errs.
Proof.
  revert items; induction errs as [|err errs IH]; intros items H; cbn in H.
  - now injection H as <-.
  - destruct (get err "message"), (get err "line"), (error_items errs) as [rest|];
      try discriminate.
    injection H as <-. cbn. now rewrite (IH rest eq_refl).
Qed.

(** X23. A failed compile leaves the error panel empty in exactly one case: the
    text of the error parses to an object whose [errors] property is an
    empty array.  A text that does not parse is shown as it is, and a
    parsed list of [n] well-formed errors gives [n] entries. *)
Theorem error_panel_is_empty_only_for_empty_list (message : string) :
  (shown_errors message = [] <->
   exists parsed, JSON_parse message = Some parsed /\
                  get parsed "errors" = Some (Some (JArr []))) /\
  (JSON_parse message = None ->
   shown_errors message = [{| item_message := Some (JStr message); item_line := None |}]) /\
  (forall parsed errs items,
      JSON_parse message = Some parsed ->
      get parsed "errors" = Some (Some (JArr errs)) ->
      error_items errs = Some items ->
      shown_errors message = items /\ length items = length errs).
Proof.
  unfold shown_errors. split; [|split].
  - split.
    + destruct (JSON_parse message) as [parsed|]; [|discriminate].
      destruct (get parsed "errors") as [[e|]|] eqn:He; try discriminate.
      * destruct e; try (destruct (get parsed "message") as [[m|]|];
                         [destruct (truthy m)| |]; discriminate).
        destruct (error_items items) as [shown|] eqn:Hi; [|discriminate].
        intros ->. apply error_items_length in Hi.
        destruct items; [eauto | discriminate].
      * destruct (get parsed "message") as [[m|]|];
          [destruct (truthy m)| |]; discriminate.
    + intros (parsed & -> & ->). reflexivity.
  - intros ->. reflexivity.
  - intros parsed errs items -> -> Hi. rewrite Hi.
    split; [reflexivity | now apply error_items_length].
Qed.

End CompileErrors.
